(** * MyAICopilot: the resilient streaming client pipeline

    A shallow embedding of the API client ([src/api/client.ts]), the
    completion cache ([utils/cacheManager.ts]) and the inline completion
    provider ([src/providers/completionProvider.ts]), with the properties
    the specification states about them.

    Conventions of the embedding.
    - A JavaScript string is the list of its UTF-16 code units, each an [N].
    - A JavaScript number that the code only counts with or compares
      (failure counters, timestamps in milliseconds, HTTP statuses) is a
      [Z]; all of them stay far below 2^53, where doubles are exact.
    - Values decoded from JSON are trees of type [Json.t]; [undefined] is
      [None] of [option Json.t].
    - [async] code is written in a state-and-exception monad over an
      explicit world; what the platform decides (the clock, the outcome of
      [fetch], the chunks of a response body) is an argument. *)

From Stdlib Require Import ZArith NArith List String Ascii Bool Lia.
From Stdlib.Strings Require Import Byte.
From stdpp Require Import base option list gmap pretty.
Import ListNotations.

Set Warnings "-register-all".
Local Open Scope N_scope.

(** ** JavaScript strings *)

Abbreviation jsstring := (list N).

Module JS.

(** An ASCII literal as a JavaScript string. *)
Definition lit (s : string) : jsstring :=
  map N_of_ascii (list_ascii_of_string s).

(** The same, with every apostrophe of the literal standing for a
    quotation mark: the way JSON text is written down in this file. *)
Definition litq (s : string) : jsstring :=
  map (λ c, if c =? 39 then 34 else c) (lit s).

Definition LF : N := 10.
Definition CR : N := 13.

(** [a === b] on strings. *)
Fixpoint str_eqb (a b : jsstring) : bool :=
  match a, b with
  | [], [] => true
  | x :: a', y :: b' => (x =? y) && str_eqb a' b'
  | _, _ => false
  end.

(** [s.startsWith(p)] *)
Fixpoint startsWith (s p : jsstring) : bool :=
  match p, s with
  | [], _ => true
  | _ :: _, [] => false
  | a :: p', b :: s' => (a =? b) && startsWith s' p'
  end.

(** [s.slice(n)] for a literal [n >= 0]. *)
Definition slice (s : jsstring) (n : nat) : jsstring := drop n s.

(** [s.includes(p)] *)
Fixpoint includes (s p : jsstring) : bool :=
  startsWith s p ||
  match s with
  | [] => false
  | _ :: s' => includes s' p
  end.

(** [s.split(/\r?\n/)]: the separator is a line feed, together with the
    carriage return right before it when there is one; [cur] is the piece
    being accumulated.  The result is never empty. *)
Fixpoint split_from (cur s : jsstring) : list jsstring :=
  match s with
  | [] => [cur]
  | c :: rest =>
      if c =? LF then cur :: split_from [] rest
      else
        match rest with
        | d :: rest' =>
            if (c =? CR) && (d =? LF) then cur :: split_from [] rest'
            else split_from (cur ++ [c]) rest
        | [] => [cur ++ [c]]
        end
  end.

Definition split_newlines (s : jsstring) : list jsstring := split_from [] s.

(** [lines.pop()]: the array without its last element, and that element
    ([None] stands for [undefined], on an empty array). *)
Definition pop {A} (l : list A) : list A * option A :=
  (removelast l, last l).

(** Decimal rendering of an integer, as template literals do. *)
Definition of_Z (z : Z) : jsstring := lit (pretty z).

End JS.

(** ** Thrown values

    [catch (err)] receives any JavaScript value.  The code tells [Error]
    instances (which carry a [name] and a [message]) from everything else
    with [err instanceof Error]. *)

Inductive thrown :=
  | ErrorObj (name message : jsstring)
  | NonError (repr : jsstring).

Definition instanceofError (e : thrown) : bool :=
  match e with ErrorObj _ _ => true | NonError _ => false end.

(** [new Error(msg)] *)
Definition newError (msg : jsstring) : thrown := ErrorObj (JS.lit "Error") msg.

Inductive result (A : Type) :=
  | Ok (a : A)
  | Throw (e : thrown).
Arguments Ok {A} a.
Arguments Throw {A} e.

(** ** JSON values and [JSON.parse]

    [JSON.parse] belongs to the platform; this is the grammar of ECMA-404
    as ECMAScript reads it.  A number keeps its decimal value
    [(-1)^neg * digits * 10^exp10]. *)

Module Json.

Inductive t :=
  | JNull
  | JBool (b : bool)
  | JNum (neg : bool) (digits : N) (exp10 : Z)
  | JStr (s : jsstring)
  | JArr (items : list t)
  | JObj (members : list (jsstring * t)).

Definition is_ws (c : N) : bool :=
  (c =? 32) || (c =? 9) || (c =? 10) || (c =? 13).

Fixpoint skip_ws (s : jsstring) : jsstring :=
  match s with
  | c :: r => if is_ws c then skip_ws r else s
  | [] => []
  end.

Definition is_digit (c : N) : bool := (48 <=? c) && (c <=? 57).

Definition hex_val (c : N) : option N :=
  if is_digit c then Some (c - 48)
  else if (97 <=? c) && (c <=? 102) then Some (c - 87)
  else if (65 <=? c) && (c <=? 70) then Some (c - 55)
  else None.

(** The character a one-letter escape stands for. *)
Definition unescape (c : N) : option N :=
  if c =? 34 then Some 34          (* quotation mark *)
  else if c =? 92 then Some 92     (* reverse solidus *)
  else if c =? 47 then Some 47     (* solidus *)
  else if c =? 98 then Some 8      (* b: backspace *)
  else if c =? 102 then Some 12    (* f: form feed *)
  else if c =? 110 then Some 10    (* n: line feed *)
  else if c =? 114 then Some 13    (* r: carriage return *)
  else if c =? 116 then Some 9     (* t: tab *)
  else None.

(** The rest of a string literal, after its opening quote; [acc] holds the
    characters read so far, last first. *)
Fixpoint parse_string (acc s : jsstring) : option (jsstring * jsstring) :=
  match s with
  | [] => None
  | c :: r =>
      if c =? 34 then Some (rev acc, r)
      else if c =? 92 then
        match r with
        | [] => None
        | e :: r1 =>
            if e =? 117 then
              match r1 with
              | h1 :: h2 :: h3 :: h4 :: r2 =>
                  match hex_val h1, hex_val h2, hex_val h3, hex_val h4 with
                  | Some a, Some b, Some c', Some d =>
                      parse_string (((a * 16 + b) * 16 + c') * 16 + d :: acc) r2
                  | _, _, _, _ => None
                  end
              | _ => None
              end
            else
              match unescape e with
              | Some v => parse_string (v :: acc) r1
              | None => None
              end
        end
      else if c <? 32 then None
      else parse_string (c :: acc) r
  end.

(** The longest run of digits at the head of [s]: the number they extend
    [acc] to, how many they are, and what follows. *)
Fixpoint take_digits (acc : N) (cnt : nat) (s : jsstring) : N * nat * jsstring :=
  match s with
  | c :: r => if is_digit c then take_digits (acc * 10 + (c - 48)) (S cnt) r
              else (acc, cnt, s)
  | [] => (acc, cnt, [])
  end.

Definition parse_int_part (s : jsstring) : option (N * jsstring) :=
  match s with
  | c :: r =>
      if c =? 48 then Some (0, r)
      else if is_digit c then
        let '(m, _, r') := take_digits 0 0 s in Some (m, r')
      else None
  | [] => None
  end.

Definition parse_frac_part (m : N) (s : jsstring) : option (N * Z * jsstring) :=
  match s with
  | c :: r =>
      if c =? 46 then
        let '(m', cnt, r') := take_digits m 0 r in
        match cnt with
        | O => None
        | _ => Some (m', (- Z.of_nat cnt)%Z, r')
        end
      else Some (m, 0%Z, s)
  | [] => Some (m, 0%Z, [])
  end.

Definition parse_exp_part (s : jsstring) : option (Z * jsstring) :=
  match s with
  | c :: r =>
      if (c =? 101) || (c =? 69) then
        let '(sgn, r1) :=
          match r with
          | d :: r0 => if d =? 45 then ((-1)%Z, r0)
                       else if d =? 43 then (1%Z, r0) else (1%Z, r)
          | [] => (1%Z, r)
          end in
        let '(v, cnt, r2) := take_digits 0 0 r1 in
        match cnt with
        | O => None
        | _ => Some ((sgn * Z.of_N v)%Z, r2)
        end
      else Some (0%Z, s)
  | [] => Some (0%Z, [])
  end.

Definition parse_number (s : jsstring) : option (t * jsstring) :=
  let '(neg, s1) :=
    match s with
    | c :: r => if c =? 45 then (true, r) else (false, s)
    | [] => (false, s)
    end in
  '(m, s2) ← parse_int_part s1;
  '(m', e1, s3) ← parse_frac_part m s2;
  '(e2, s4) ← parse_exp_part s3;
  Some (JNum neg m' (e1 + e2)%Z, s4).

Definition parse_keyword (kw : jsstring) (v : t) (s : jsstring)
  : option (t * jsstring) :=
  if JS.startsWith s kw then Some (v, drop (length kw) s) else None.

(** One unit of [fuel] is spent per nested value and per array element or
    object member, each of which takes at least one character. *)
Fixpoint parse_value (fuel : nat) (s : jsstring) : option (t * jsstring) :=
  match fuel with
  | O => None
  | S fuel' =>
      match skip_ws s with
      | [] => None
      | c :: r =>
          if c =? 123 then
            match skip_ws r with
            | d :: r' => if d =? 125 then Some (JObj [], r')
                         else parse_members fuel' [] r
            | [] => None
            end
          else if c =? 91 then
            match skip_ws r with
            | d :: r' => if d =? 93 then Some (JArr [], r')
                         else parse_elements fuel' [] r
            | [] => None
            end
          else if c =? 34 then
            '(str, r') ← parse_string [] r; Some (JStr str, r')
          else if c =? 116 then parse_keyword (JS.lit "true") (JBool true) (c :: r)
          else if c =? 102 then parse_keyword (JS.lit "false") (JBool false) (c :: r)
          else if c =? 110 then parse_keyword (JS.lit "null") JNull (c :: r)
          else parse_number (c :: r)
      end
  end
with parse_elements (fuel : nat) (acc : list t) (s : jsstring)
  : option (t * jsstring) :=
  match fuel with
  | O => None
  | S fuel' =>
      '(v, r) ← parse_value fuel' s;
      match skip_ws r with
      | c :: r' =>
          if c =? 44 then parse_elements fuel' (v :: acc) r'
          else if c =? 93 then Some (JArr (rev (v :: acc)), r')
          else None
      | [] => None
      end
  end
with parse_members (fuel : nat) (acc : list (jsstring * t)) (s : jsstring)
  : option (t * jsstring) :=
  match fuel with
  | O => None
  | S fuel' =>
      match skip_ws s with
      | q :: r0 =>
          if q =? 34 then
            '(key, r1) ← parse_string [] r0;
            match skip_ws r1 with
            | c :: r2 =>
                if c =? 58 then
                  '(v, r3) ← parse_value fuel' r2;
                  match skip_ws r3 with
                  | d :: r4 =>
                      if d =? 44 then parse_members fuel' ((key, v) :: acc) r4
                      else if d =? 125 then Some (JObj (rev ((key, v) :: acc)), r4)
                      else None
                  | [] => None
                  end
                else None
            | [] => None
            end
          else None
      | [] => None
      end
  end.

(** [JSON.parse(text)]; [None] stands for the [SyntaxError] it throws. *)
Definition parse (text : jsstring) : option t :=
  '(v, r) ← parse_value (2 * length text + 2) text;
  match skip_ws r with
  | [] => Some v
  | _ :: _ => None
  end.

(** Whether the number [digits * 10^exp10] is zero as a double: rounding to
    nearest, ties to even, it is when it does not exceed half of the
    smallest subnormal, [2^-1075]. *)
Definition num_is_zero (digits : N) (exp10 : Z) : bool :=
  (digits =? 0) ||
  ((exp10 <? 0)%Z && (Z.of_N digits * 2 ^ 1075 <=? 10 ^ (- exp10))%Z).

(** JavaScript truthiness, as [||] and [if] test it. *)
Definition truthy (v : t) : bool :=
  match v with
  | JNull => false
  | JBool b => b
  | JNum _ m e => negb (num_is_zero m e)
  | JStr s => match s with [] => false | _ :: _ => true end
  | JArr _ | JObj _ => true
  end.

(** An object built by [JSON.parse] keeps the last of several members with
    the same key. *)
Fixpoint lookup_member (k : jsstring) (ms : list (jsstring * t)) : option t :=
  match ms with
  | [] => None
  | (k', v) :: r =>
      match lookup_member k r with
      | Some v' => Some v'
      | None => if JS.str_eqb k k' then Some v else None
      end
  end.

(** [v.k] on a value that is neither [null] nor [undefined], for a key
    [k] such as [choices], [delta], [content] or [text], which no built-in
    prototype defines: only an object can have it. *)
Definition get (k : jsstring) (v : t) : option t :=
  match v with
  | JObj ms => lookup_member k ms
  | _ => None
  end.

(** [v[0]]: the first element of an array, the first code unit of a
    string, the member named 0 of an object. *)
Definition index0 (v : t) : option t :=
  match v with
  | JArr (x :: _) => Some x
  | JStr (c :: _) => Some (JStr [c])
  | JObj ms => lookup_member (JS.lit "0") ms
  | _ => None
  end.

(** Optional chaining [a?.f]: [undefined] when [a] is [null] or
    [undefined]. *)
Definition opt_chain (a : option t) (f : t → option t) : option t :=
  match a with
  | None | Some JNull => None
  | Some x => f x
  end.

(** [a || E], with [E] the empty string. *)
Definition or_empty (a : option t) : t :=
  match a with
  | Some v => if truthy v then v else JStr []
  | None => JStr []
  end.

End Json.

(** ** The streaming UTF-8 decoder

    [new TextDecoder()] used with [{ stream: true }]: the UTF-8 decoder of
    the Encoding standard, not fatal (a malformed sequence becomes U+FFFD),
    dropping one leading byte order mark, and keeping the bytes of an
    unfinished sequence across calls.  It yields UTF-16 code units. *)

Module TextDecoder.

Record t := mk {
  code_point : N;
  bytes_seen : N;
  bytes_needed : N;
  lower : N;
  upper : N;
  bom_seen : bool
}.

Definition init : t := mk 0 0 0 0x80 0xBF false.

Definition reset (st : t) : t := mk 0 0 0 0x80 0xBF (bom_seen st).

(** A byte met while no sequence is open. *)
Definition handle_lead (st : t) (b : N) : list N * t :=
  if b <=? 0x7F then ([b], st)
  else if (0xC2 <=? b) && (b <=? 0xDF) then
    ([], mk (N.land b 0x1F) 0 1 0x80 0xBF (bom_seen st))
  else if (0xE0 <=? b) && (b <=? 0xEF) then
    ([], mk (N.land b 0xF) 0 2
            (if b =? 0xE0 then 0xA0 else 0x80)
            (if b =? 0xED then 0x9F else 0xBF) (bom_seen st))
  else if (0xF0 <=? b) && (b <=? 0xF4) then
    ([], mk (N.land b 0x7) 0 3
            (if b =? 0xF0 then 0x90 else 0x80)
            (if b =? 0xF4 then 0x8F else 0xBF) (bom_seen st))
  else ([0xFFFD], st).

(** One byte: the code points it completes, and the next state.  A byte
    that cannot continue the open sequence ends it with U+FFFD and is read
    again as a lead byte. *)
Definition handle_byte (st : t) (b : N) : list N * t :=
  if bytes_needed st =? 0 then handle_lead st b
  else if negb ((lower st <=? b) && (b <=? upper st)) then
    let '(out, st') := handle_lead (reset st) b in (0xFFFD :: out, st')
  else
    let cp := N.lor (N.shiftl (code_point st) 6) (N.land b 0x3F) in
    let seen := bytes_seen st + 1 in
    if seen =? bytes_needed st then ([cp], reset st)
    else ([], mk cp seen (bytes_needed st) 0x80 0xBF (bom_seen st)).

(** The code units of a code point. *)
Definition utf16 (cp : N) : jsstring :=
  if cp <? 0x10000 then [cp]
  else [0xD800 + N.shiftr (cp - 0x10000) 10; 0xDC00 + N.land (cp - 0x10000) 0x3FF].

(** Output of code points: the first one is dropped when it is U+FEFF. *)
Fixpoint emit (st : t) (cps : list N) : jsstring * t :=
  match cps with
  | [] => ([], st)
  | cp :: rest =>
      let st1 := mk (code_point st) (bytes_seen st) (bytes_needed st)
                    (lower st) (upper st) true in
      let '(out, st2) := emit st1 rest in
      if negb (bom_seen st) && (cp =? 0xFEFF) then (out, st2)
      else (utf16 cp ++ out, st2)
  end.

(** [decoder.decode(value, { stream: true })] *)
Fixpoint decode (st : t) (value : list byte) : jsstring * t :=
  match value with
  | [] => ([], st)
  | b :: rest =>
      let '(cps, st1) := handle_byte st (Byte.to_N b) in
      let '(out, st2) := emit st1 cps in
      let '(out', st3) := decode st2 rest in
      (out ++ out', st3)
  end.

End TextDecoder.

(** ** The server-sent-events parser: [APIClient.parseSSE] *)

Module SSE.

(** What [reader.read()] settles to: a chunk of bytes, or a rejection. *)
Inductive read :=
  | Chunk (value : list byte)
  | ReadFails (e : thrown).

(** A response body, as its reader shows it: the list of its reads, after
    which [done] is true, and what [reader.cancel()] settles to if it is
    called.  [None]: it is fulfilled, as on a stream that is readable or
    closed.  [Some e]: it is rejected with [e], as on a stream that is
    errored, which is the state of the body once the request has been
    aborted. *)
Record body := mkBody {
  body_reads : list read;
  body_cancel : option thrown
}.

(** A [vscode.CancellationToken], as the loop sees it: whether
    cancellation has been requested when it looks for the [i]-th time. *)
Definition token := nat → bool.

Definition isCancellationRequested (tk : option token) (i : nat) : bool :=
  match tk with
  | Some f => f i
  | None => false
  end.

(** What the generator does that a consumer can observe. *)
Inductive event :=
  | Yield (content : Json.t)
  | Warn (data : jsstring).

(** How the generator ends. *)
Inductive ending :=
  | SawDone        (* [return] at the sentinel *)
  | EndOfBody      (* [done] was true *)
  | Cancelled      (* the token was cancelled, and the reader with it *)
  | Failed (e : thrown).

(** [parsed.choices?.[0]?.delta?.content || E]; [None] is the [TypeError]
    of reading a property of [null]. *)
Definition delta_content (parsed : Json.t) : option Json.t :=
  match parsed with
  | Json.JNull => None
  | _ =>
      Some (Json.or_empty
              (Json.opt_chain
                 (Json.opt_chain
                    (Json.opt_chain (Json.get (JS.lit "choices") parsed)
                                    Json.index0)
                    (Json.get (JS.lit "delta")))
                 (Json.get (JS.lit "content"))))
  end.

(** The body of [try { ... } catch (e) { console.warn(...) }] for one
    record. *)
Definition handle_data (data : jsstring) : list event :=
  match Json.parse data with
  | Some parsed =>
      match delta_content parsed with
      | Some content => if Json.truthy content then [Yield content] else []
      | None => [Warn data]
      end
  | None => [Warn data]
  end.

(** [for (const line of lines)]: the events, and whether the sentinel was
    met (the generator then returns at once). *)
Fixpoint process_lines (lines : list jsstring) : list event * bool :=
  match lines with
  | [] => ([], false)
  | line :: rest =>
      if JS.startsWith line (JS.lit "data: ") then
        let data := JS.slice line 6 in
        if JS.str_eqb data (JS.lit "[DONE]") then ([], true)
        else
          let '(evs, done) := process_lines rest in
          (handle_data data ++ evs, done)
      else process_lines rest
  end.

Record run := mkRun {
  events : list event;
  how : ending;
  reader_cancelled : bool;   (* [reader.cancel()] was called *)
  released : nat             (* calls of [reader.releaseLock()] *)
}.

(** [while (true)], entered for the [i]-th time.  When the token is
    cancelled, [await reader.cancel()] comes before [break]: if it is
    rejected, the generator throws. *)
Fixpoint loop (tk : option token) (cancel : option thrown) (i : nat)
    (reads : list read) (decoder : TextDecoder.t) (buffer : jsstring)
  : list event * ending * bool :=
  if isCancellationRequested tk i then
    match cancel with
    | None => ([], Cancelled, true)
    | Some e => ([], Failed e, true)
    end
  else
    match reads with
    | [] => ([], EndOfBody, false)
    | ReadFails e :: _ => ([], Failed e, false)
    | Chunk value :: rest =>
        let '(text, decoder') := TextDecoder.decode decoder value in
        let '(lines, last_line) := JS.pop (JS.split_newlines (buffer ++ text)) in
        let buffer' := default [] last_line in
        let '(evs, done) := process_lines lines in
        if done then (evs, SawDone, false)
        else
          let '(evs', e, c) := loop tk cancel (S i) rest decoder' buffer' in
          (evs ++ evs', e, c)
    end.

(** [parseSSE(response, token)], drained by its consumer.  [body] is
    [response.body]: [None] when there is none. *)
Definition parseSSE (body : option body) (tk : option token) : run :=
  match body with
  | None =>
      mkRun [] (Failed (newError (JS.lit "No response body for streaming")))
            false 0
  | Some b =>
      let '(evs, e, c) :=
        loop tk (body_cancel b) 0 (body_reads b) TextDecoder.init [] in
      mkRun evs e c 1
  end.

(** The fragments a consumer of the generator receives. *)
Definition fragments (r : run) : list Json.t :=
  omap (λ ev, match ev with Yield c => Some c | Warn _ => None end) (events r).

(** ASCII text as the bytes of a response body. *)
Definition bytes (s : jsstring) : list byte :=
  omap Byte.of_N s.

(** *** Vocabulary of the statements about the parser *)

(** The body of the specification's example: two records and the
    sentinel, each followed by a blank line. *)
Definition example_body : list byte :=
  bytes (JS.litq "data: {'choices':[{'delta':{'content':'ab'}}]}" ++ [JS.LF; JS.LF]
         ++ JS.litq "data: {'choices':[{'delta':{'content':'cd'}}]}" ++ [JS.LF; JS.LF]
         ++ JS.lit "data: [DONE]" ++ [JS.LF; JS.LF]).

(** All the ways of cutting a list in three consecutive pieces, empty
    pieces included. *)
Definition splits3 {A} (l : list A) : list (list A * list A * list A) :=
  flat_map (λ i,
    map (λ j, (take i l, take j (drop i l), drop (i + j) l))
        (seq 0 (S (length l - i))))
    (seq 0 (S (length l))).

(** The run the example must give: the two fragments and nothing else,
    ended by the sentinel, the reader released once and never cancelled. *)
Definition is_example_run (r : run) : bool :=
  match events r, how r with
  | [Yield (Json.JStr a); Yield (Json.JStr b)], SawDone =>
      JS.str_eqb a (JS.lit "ab") && JS.str_eqb b (JS.lit "cd")
      && Nat.eqb (released r) 1 && negb (reader_cancelled r)
  | _, _ => false
  end.

(** The parser run on a body delivered in three chunks. *)
Definition parse3 (tk : option token) (cs : list byte * list byte * list byte) : run :=
  let '(c1, c2, c3) := cs in
  parseSSE (Some (mkBody [Chunk c1; Chunk c2; Chunk c3] None)) tk.

End SSE.

(** ** Abort signals

    The store of [AbortSignal] objects.  A controller and its signal share
    one cell, named by its index.  The only listeners this code puts on an
    ["abort"] event are [() => controller.abort()] closures registered with
    [{ once: true }]: a listener is the index of the controller it aborts. *)

Module Abort.

Record signal := mkSignal {
  aborted : bool;
  listeners : list nat
}.

Abbreviation heap := (list signal).

(** [new AbortController()] *)
Definition newController (h : heap) : nat * heap :=
  (length h, h ++ [mkSignal false []]).

(** [signal.addEventListener("abort", () => target.abort(), { once: true })].
    Nothing runs at registration, whatever the state of the signal. *)
Definition addAbortListener (s target : nat) (h : heap) : heap :=
  match h !! s with
  | Some sg => <[s := mkSignal (aborted sg) (listeners sg ++ [target])]> h
  | None => h
  end.

(** [controller.abort()]: nothing on a signal already aborted; otherwise
    the signal becomes aborted and the event is dispatched once to the
    listeners registered so far, in order.  [fuel] bounds the nesting of
    aborts started by listeners. *)
Fixpoint abort_fuel (fuel : nat) (c : nat) (h : heap) : heap :=
  match fuel with
  | O => h
  | S fuel' =>
      match h !! c with
      | None => h
      | Some sg =>
          if aborted sg then h
          else foldl (λ h' target, abort_fuel fuel' target h')
                     (<[c := mkSignal true []]> h) (listeners sg)
      end
  end.

(** Each nested abort marks one more signal, so the nesting never exceeds
    the number of signals. *)
Definition abort (c : nat) (h : heap) : heap := abort_fuel (S (length h)) c h.

Definition is_aborted (s : nat) (h : heap) : bool :=
  match h !! s with
  | Some sg => aborted sg
  | None => false
  end.

(** [APIClient.mergeSignals(signal1, signal2)] *)
Definition mergeSignals (signal1 signal2 : nat) (h : heap) : nat * heap :=
  let '(controller, h1) := newController h in
  let h2 := addAbortListener signal1 controller h1 in
  let h3 := addAbortListener signal2 controller h2 in
  (controller, h3).

End Abort.

(** ** The API client: [APIClient] of [src/api/client.ts] *)

Module Client.

Local Open Scope Z_scope.

(** The field [circuitBreaker]. *)
Record CircuitBreaker := mkBreaker {
  failures : Z;
  cooldownUntil : Z;
  maxFailures : Z;
  cooldownMs : Z
}.

(** What [fetch] is called with.  [body] is the object handed to
    [JSON.stringify]. *)
Record Request := mkRequest {
  url : jsstring;
  method : jsstring;
  headers : list (jsstring * jsstring);
  signal : nat;
  body : option Json.t
}.

(** What the operations read and change: the breaker of the instance, the
    clock ([Date.now()]), the abort signals, and the two outputs, the
    requests put on the network (oldest first) and the warnings shown with
    [vscode.window.showWarningMessage]. *)
Record World := mkWorld {
  circuitBreaker : CircuitBreaker;
  now : Z;
  signals : Abort.heap;
  requests : list Request;
  warningMessages : list jsstring
}.

(** What the constructor receives, as the operations use it: the settings
    [api.baseUrl] and [api.model] of the [ConfigurationManager] and what
    [secretStorage.get(SECRET_KEY)] resolves to ([None]: [undefined]). *)
Record Env := mkEnv {
  baseUrl : jsstring;
  model : jsstring;
  secret : option jsstring
}.

(** The state of a new instance: the initializer of [circuitBreaker].  The
    constructor stores [config] and [secretStorage] and reads neither. *)
Definition newCircuitBreaker : CircuitBreaker := mkBreaker 0 0 5 60000.

Definition newAPIClient (env : Env) (clock : Z) (h : Abort.heap) : World :=
  mkWorld newCircuitBreaker clock h [] [].

(** What [response.json()] settles to: the value the body parses to, or
    the error it is rejected with (a [SyntaxError], a [TypeError] or an
    [AbortError], instances of [Error]). *)
Inductive JsonBody :=
  | JsonValue (v : Json.t)
  | JsonError (name message : jsstring).

(** A [Response].  [json] is what [response.json()] settles to and [text]
    what [response.text()] does; [stream] is [response.body]. *)
Record Response := mkResponse {
  status : Z;
  statusText : jsstring;
  json : JsonBody;
  text : jsstring;
  stream : option SSE.body
}.

(** [response.ok] *)
Definition ok (r : Response) : bool := (200 <=? status r) && (status r <=? 299).

(** How a call of [fetch] ends, and the milliseconds it takes: with a
    response, or rejected with an error, which the Fetch standard makes a
    [TypeError] or a [DOMException] named [AbortError], both instances of
    [Error]. *)
Inductive FetchOutcome :=
  | Responds (elapsed : N) (r : Response)
  | Rejects (elapsed : N) (name message : jsstring).

(** *** The monad of the operations *)

Definition M (A : Type) : Type := World → result A * World.

Definition ret {A} (a : A) : M A := λ w, (Ok a, w).
Definition throw {A} (e : thrown) : M A := λ w, (Throw e, w).
Definition bind {A B} (c : M A) (k : A → M B) : M B :=
  λ w, match c w with
       | (Ok a, w') => k a w'
       | (Throw e, w') => (Throw e, w')
       end.
(** [try { c } catch (err) { h err }] *)
Definition try_catch {A} (c : M A) (handler : thrown → M A) : M A :=
  λ w, match c w with
       | (Ok a, w') => (Ok a, w')
       | (Throw e, w') => handler e w'
       end.

Notation "'let*' x ':=' c 'in' k" := (bind c (λ x, k))
  (at level 10, x pattern, c at level 100, k at level 200).
Notation "c ';;' k" := (bind c (λ _, k))
  (at level 100, k at level 200, right associativity).

Definition Date_now : M Z := λ w, (Ok (now w), w).

Definition modify_breaker (f : CircuitBreaker → CircuitBreaker) : M unit :=
  λ w, (Ok tt, mkWorld (f (circuitBreaker w)) (now w) (signals w)
                       (requests w) (warningMessages w)).

Definition showWarningMessage (msg : jsstring) : M unit :=
  λ w, (Ok tt, mkWorld (circuitBreaker w) (now w) (signals w)
                       (requests w) (warningMessages w ++ [msg])).

Definition newAbortController : M nat :=
  λ w, let '(c, h) := Abort.newController (signals w) in
       (Ok c, mkWorld (circuitBreaker w) (now w) h
                      (requests w) (warningMessages w)).

Definition abortErrorMessage : jsstring := JS.lit "This operation was aborted".

(** [await fetch(url, init)].  A signal already aborted rejects the call
    before anything is sent; otherwise the request goes out, the clock
    advances and the outcome is the platform's. *)
Definition fetch (req : Request) (fo : FetchOutcome) : M Response :=
  λ w,
    if Abort.is_aborted (signal req) (signals w) then
      (Throw (ErrorObj (JS.lit "AbortError") abortErrorMessage), w)
    else
      let sent elapsed :=
        mkWorld (circuitBreaker w) (now w + Z.of_N elapsed) (signals w)
                (requests w ++ [req]) (warningMessages w) in
      match fo with
      | Responds elapsed r => (Ok r, sent elapsed)
      | Rejects elapsed name message => (Throw (ErrorObj name message), sent elapsed)
      end.

(** *** The private methods *)

(** [getHeaders(apiKey)] *)
Definition getHeaders (apiKey : jsstring) : list (jsstring * jsstring) :=
  [ (JS.lit "Content-Type", JS.lit "application/json");
    (JS.lit "Authorization", JS.lit "Bearer " ++ apiKey);
    (JS.lit "User-Agent", JS.lit "MyAICopilot/0.1.0") ].

Definition apiKeyMissing : thrown :=
  newError (JS.litq "API key not configured. Run 'MyAICopilot: Set API Key' command.").

(** [getApiKey()]: [!key] holds of [undefined] and of the empty string. *)
Definition getApiKey (env : Env) : M jsstring :=
  match secret env with
  | Some (c :: key) => ret (c :: key)
  | Some [] | None => throw apiKeyMissing
  end.

Definition coolingDown : thrown :=
  newError (JS.lit "Service is cooling down due to repeated failures").

(** [checkCircuitBreaker()] *)
Definition checkCircuitBreaker : M unit :=
  let* t := Date_now in
  λ w, if t <? cooldownUntil (circuitBreaker w) then throw coolingDown w
       else ret tt w.

(** [handleFailure(status)].  The warning shows [cooldownMs / 1000], a
    whole number for the only value the field ever has. *)
Definition handleFailure (status : Z) : M unit :=
  if (500 <=? status) || (status =? 429) then
    modify_breaker (λ cb, mkBreaker (failures cb + 1) (cooldownUntil cb)
                                    (maxFailures cb) (cooldownMs cb)) ;;
    λ w,
      let cb := circuitBreaker w in
      if maxFailures cb <=? failures cb then
        (let* t := Date_now in
         modify_breaker (λ cb, mkBreaker (failures cb) (t + cooldownMs cb)
                                         (maxFailures cb) (cooldownMs cb)) ;;
         showWarningMessage
           (JS.lit "MyAICopilot: Too many errors, cooling down for "
              ++ JS.of_Z (cooldownMs cb / 1000) ++ JS.lit "s")) w
      else ret tt w
  else ret tt.

(** [this.circuitBreaker.failures = 0] *)
Definition resetFailures : M unit :=
  modify_breaker (λ cb, mkBreaker 0 (cooldownUntil cb)
                                  (maxFailures cb) (cooldownMs cb)).

Definition mergeSignals (signal1 signal2 : nat) : M nat :=
  λ w, let '(c, h) := Abort.mergeSignals signal1 signal2 (signals w) in
       (Ok c, mkWorld (circuitBreaker w) (now w) h
                      (requests w) (warningMessages w)).

(** *** The public operations

    Each takes the outcome [fo] of the one call of [fetch] it may make.
    The timers ([setTimeout(() => controller.abort(), ...)], cleared on
    every path) act only through that outcome: a timer that fires rejects
    the call with an [AbortError]. *)

(** [testConnection()] *)
Definition testConnection (env : Env) (fo : FetchOutcome) : M unit :=
  let* apiKey := getApiKey env in
  let* controller := newAbortController in
  let* response :=
    fetch (mkRequest (baseUrl env ++ JS.lit "/models") (JS.lit "GET")
             [(JS.lit "Authorization", JS.lit "Bearer " ++ apiKey)]
             controller None) fo in
  if negb (ok response) then
    throw (newError (JS.lit "HTTP " ++ JS.of_Z (status response) ++ JS.lit ": "
                       ++ statusText response))
  else
    match json response with
    | JsonValue _ => ret tt
    | JsonError name message => throw (ErrorObj name message)
    end.

(** A [CompletionRequest]. *)
Record CompletionRequest := mkCompletionRequest {
  prompt : jsstring;
  maxTokens : Json.t;
  temperature : Json.t;
  req_signal : option nat
}.

(** [createCompletion(req)] *)
Definition createCompletion (env : Env) (req : CompletionRequest)
    (fo : FetchOutcome) : M Json.t :=
  checkCircuitBreaker ;;
  let* apiKey := getApiKey env in
  let* controller := newAbortController in
  let* signal :=
    match req_signal req with
    | Some s => mergeSignals controller s
    | None => ret controller
    end in
  try_catch
    (let* response :=
       fetch (mkRequest (baseUrl env ++ JS.lit "/completions") (JS.lit "POST")
                (getHeaders apiKey) signal
                (Some (Json.JObj
                   [ (JS.lit "model", Json.JStr (model env));
                     (JS.lit "prompt", Json.JStr (prompt req));
                     (JS.lit "max_tokens", maxTokens req);
                     (JS.lit "temperature", temperature req);
                     (JS.lit "stream", Json.JBool false) ]))) fo in
     if negb (ok response) then
       handleFailure (status response) ;;
       throw (newError (JS.lit "API Error " ++ JS.of_Z (status response)
                          ++ JS.lit ": " ++ statusText response))
     else
       resetFailures ;;
       match json response with
       | JsonValue v => ret v
       | JsonError name message => throw (ErrorObj name message)
       end)
    (λ err,
       match err with
       | ErrorObj name _ =>
           if JS.str_eqb name (JS.lit "AbortError")
           then throw (newError (JS.lit "Request timeout or cancelled"))
           else throw err
       | NonError _ => throw err
       end).

(** A [ChatRequest]; [messages] is the array of [{ role, content }]. *)
Record ChatRequest := mkChatRequest {
  messages : Json.t;
  chat_maxTokens : Json.t;
  chat_temperature : Json.t
}.

(** [createChatCompletion(req, token)], drained by its consumer: what the
    generator throws before it yields anything is a [Throw]; from
    [yield* this.parseSSE(response, token)] on, it is the run of the
    parser. *)
Definition createChatCompletion (env : Env) (req : ChatRequest)
    (token : option SSE.token) (fo : FetchOutcome) : M SSE.run :=
  checkCircuitBreaker ;;
  let* apiKey := getApiKey env in
  let* controller := newAbortController in
  let* response :=
    fetch (mkRequest (baseUrl env ++ JS.lit "/chat/completions") (JS.lit "POST")
             (getHeaders apiKey) controller
             (Some (Json.JObj
                [ (JS.lit "model", Json.JStr (model env));
                  (JS.lit "messages", messages req);
                  (JS.lit "max_tokens", chat_maxTokens req);
                  (JS.lit "temperature", chat_temperature req);
                  (JS.lit "stream", Json.JBool true) ]))) fo in
  if negb (ok response) then
    handleFailure (status response) ;;
    throw (newError (JS.lit "API Error " ++ JS.of_Z (status response)
                       ++ JS.lit ": " ++ text response))
  else
    resetFailures ;;
    ret (SSE.parseSSE (stream response) token).

(** *** Vocabulary of the statements about the breaker *)

(** A failure the breaker counts: a server error or a rate limit. *)
Definition qualifying (status : Z) : bool := (500 <=? status) || (status =? 429).

(** The world with the clock reading [t]. *)
Definition at_time (t : Z) (w : World) : World :=
  mkWorld (circuitBreaker w) t (signals w) (requests w) (warningMessages w).

(** The clock after [ms] more milliseconds. *)
Definition time_passes (ms : N) (w : World) : World := at_time (now w + Z.of_N ms) w.

(** A failure with status [r.1] reported through [handleFailure] when the
    clock reads [r.2], and a series of them. *)
Definition report (w : World) (r : Z * Z) : World :=
  snd (handleFailure r.1 (at_time r.2 w)).

Definition reports (rs : list (Z * Z)) (w : World) : World := foldl report w rs.

(** What the [catch] of [createCompletion] rethrows for an error named
    [name]. *)
Definition rethrown (name message : jsstring) : thrown :=
  if JS.str_eqb name (JS.lit "AbortError")
  then newError (JS.lit "Request timeout or cancelled")
  else ErrorObj name message.

Definition completionRequest (env : Env) (apiKey : jsstring) (req : CompletionRequest)
    (sig : nat) : Request :=
  mkRequest (baseUrl env ++ JS.lit "/completions") (JS.lit "POST")
    (getHeaders apiKey) sig
    (Some (Json.JObj
       [ (JS.lit "model", Json.JStr (model env));
         (JS.lit "prompt", Json.JStr (prompt req));
         (JS.lit "max_tokens", maxTokens req);
         (JS.lit "temperature", temperature req);
         (JS.lit "stream", Json.JBool false) ])).

Definition chatRequest (env : Env) (apiKey : jsstring) (req : ChatRequest) (sig : nat)
  : Request :=
  mkRequest (baseUrl env ++ JS.lit "/chat/completions") (JS.lit "POST")
    (getHeaders apiKey) sig
    (Some (Json.JObj
       [ (JS.lit "model", Json.JStr (model env));
         (JS.lit "messages", messages req);
         (JS.lit "max_tokens", chat_maxTokens req);
         (JS.lit "temperature", chat_temperature req);
         (JS.lit "stream", Json.JBool true) ])).

Definition probeRequest (env : Env) (apiKey : jsstring) (sig : nat) : Request :=
  mkRequest (baseUrl env ++ JS.lit "/models") (JS.lit "GET")
    [(JS.lit "Authorization", JS.lit "Bearer " ++ apiKey)] sig None.

(** The world once [rq] has been sent on a new controller and answered
    after [elapsed] milliseconds. *)
Definition sent_on_new (rq : Request) (elapsed : N) (w : World) : World :=
  mkWorld (circuitBreaker w) (now w + Z.of_N elapsed)
          (signals w ++ [Abort.mkSignal false []])
          (requests w ++ [rq]) (warningMessages w).

(** The breaker after a failure with status [status] is reported at time
    [t], and after a successful response. *)
Definition after_failure (status t : Z) (cb : CircuitBreaker) : CircuitBreaker :=
  if qualifying status then
    if maxFailures cb <=? failures cb + 1
    then mkBreaker (failures cb + 1) (t + cooldownMs cb)
                   (maxFailures cb) (cooldownMs cb)
    else mkBreaker (failures cb + 1) (cooldownUntil cb)
                   (maxFailures cb) (cooldownMs cb)
  else cb.

Definition after_success (cb : CircuitBreaker) : CircuitBreaker :=
  mkBreaker 0 (cooldownUntil cb) (maxFailures cb) (cooldownMs cb).

(** The value of the header [name] in a request's headers. *)
Fixpoint header (name : jsstring) (hs : list (jsstring * jsstring))
  : option jsstring :=
  match hs with
  | [] => None
  | (n, v) :: rest => if JS.str_eqb n name then Some v else header name rest
  end.

(** The states an instance goes through: it is created when the clock
    reads some time since the epoch, time passes, and its three
    operations are called, each with whatever credential is stored then
    and whatever the network answers. *)
Inductive reachable : World → Prop :=
  | reach_new env clock h :
      0 <= clock → reachable (newAPIClient env clock h)
  | reach_time ms w :
      reachable w → reachable (time_passes ms w)
  | reach_testConnection env fo w :
      reachable w → reachable (snd (testConnection env fo w))
  | reach_createCompletion env req fo w :
      reachable w → reachable (snd (createCompletion env req fo w))
  | reach_createChatCompletion env req token fo w :
      reachable w → reachable (snd (createChatCompletion env req token fo w)).

End Client.

(** ** The editor's value types used by the pipeline *)

Module Vscode.

Record Position := mkPosition { line : Z; character : Z }.

Record Range := mkRange { range_start : Position; range_end : Position }.

Record Command := mkCommand {
  title : jsstring;
  command : jsstring;
  arguments : list jsstring
}.

Record InlineCompletionItem := mkItem {
  insertText : jsstring;
  range : Range;
  item_command : option Command
}.

End Vscode.

(** ** The completion cache: [CacheManager]

    [context.workspaceState] is a [Memento]: [get] reads the value in
    memory, and [update] replaces it at once ([undefined] removes the key)
    and returns a thenable for the write to storage. *)

Module Cache.

Local Open Scope Z_scope.

(** A [CompletionCacheEntry]. *)
Record CompletionCacheEntry := mkEntry {
  item : Vscode.InlineCompletionItem;
  expiry : Z
}.

(** The workspace state, and the lines the manager writes with
    [console.error]. *)
Record World := mkWorld {
  workspaceState : gmap jsstring CompletionCacheEntry;
  console : list jsstring
}.

(** [workspaceState.update(fullKey, value).then(() => {}, (err) =>
    console.error(msg, err))]; [stored] tells whether the thenable is
    fulfilled. *)
Definition update (fullKey : jsstring) (value : option CompletionCacheEntry)
    (stored : bool) (msg : jsstring) (w : World) : World :=
  mkWorld
    (match value with
     | Some entry => <[fullKey := entry]> (workspaceState w)
     | None => delete fullKey (workspaceState w)
     end)
    (if stored then console w else console w ++ [msg]).

Section WithPrefix.

(** The constant [CACHE_PREFIX] of [../constants]. *)
Variable CACHE_PREFIX : jsstring.

(** [delete(fullKey)] *)
Definition delete (fullKey : jsstring) (stored : bool) (w : World) : World :=
  update fullKey None stored (JS.lit "Cache delete failed:") w.

(** [getCompletion(key)], read at time [now]. *)
Definition getCompletion (key : jsstring) (now : Z) (stored : bool) (w : World)
  : option Vscode.InlineCompletionItem * World :=
  match workspaceState w !! (CACHE_PREFIX ++ key) with
  | None => (None, w)
  | Some entry =>
      if expiry entry <? now then (None, delete (CACHE_PREFIX ++ key) stored w)
      else (Some (item entry), w)
  end.

(** [setCompletion(key, item, ttlSeconds)], written at time [now]. *)
Definition setCompletion (key : jsstring) (it : Vscode.InlineCompletionItem)
    (ttlSeconds : Z) (now : Z) (stored : bool) (w : World) : World :=
  update (CACHE_PREFIX ++ key) (Some (mkEntry it (now + ttlSeconds * 1000)))
         stored (JS.lit "Cache write failed:") w.

End WithPrefix.

End Cache.

(** ** The logger's filter: [Logger.shouldLog] *)

Module Logger.

Local Open Scope Z_scope.

Definition levels : list jsstring :=
  [JS.lit "error"; JS.lit "warn"; JS.lit "info"; JS.lit "debug"].

(** [l.indexOf(x)], counting from [i]. *)
Fixpoint indexOf_from (i : Z) (l : list jsstring) (x : jsstring) : Z :=
  match l with
  | [] => -1
  | y :: rest => if JS.str_eqb y x then i else indexOf_from (i + 1) rest x
  end.

Definition indexOf (l : list jsstring) (x : jsstring) : Z := indexOf_from 0 l x.

(** [shouldLog(level)], with [configLevel] the setting [logging.level]. *)
Definition shouldLog (configLevel level : jsstring) : bool :=
  indexOf levels level <=? indexOf levels configLevel.

End Logger.

(** ** The completion pipeline: [AICodeCompletionProvider] *)

Module Provider.

Local Open Scope Z_scope.

(** A [vscode.TextDocument], through what the provider reads of it. *)
Record TextDocument := mkDocument {
  languageId : jsstring;
  uri : jsstring;
  lineCount : Z;
  getText : Vscode.Range → jsstring
}.

Inductive InlineCompletionTriggerKind := Invoke | Automatic.

(** Calls of the [Logger]: [debug] and [error]. *)
Inductive LogEntry :=
  | LogDebug (msg : jsstring)
  | LogError (msg : jsstring) (err : thrown).

(** The settings the provider reads from the [ConfigurationManager]:
    [api.maxTokens], [api.temperature], [cache.ttlSeconds],
    [autocomplete.debounceMs], [autocomplete.supportedLanguages] ([None]:
    not set), next to those the client reads. *)
Record Settings := mkSettings {
  client_env : Client.Env;
  api_maxTokens : Json.t;
  api_temperature : Json.t;
  cache_ttlSeconds : Z;
  autocomplete_debounceMs : Z;
  autocomplete_supportedLanguages : option (list jsstring)
}.

(** The provider's own fields and the state of its collaborators: the
    client, the cache, the logger's calls, and the cancellation tokens a
    listener was put on. *)
Record State := mkState {
  api : Client.World;
  cache : Cache.World;
  log : list LogEntry;
  abortController : option nat;
  debounceTimer : option nat;
  tokenListeners : list nat
}.

Definition PM (A : Type) : Type := State → result A * State.

Definition pret {A} (a : A) : PM A := λ s, (Ok a, s).
Definition pthrow {A} (e : thrown) : PM A := λ s, (Throw e, s).
Definition pbind {A B} (c : PM A) (k : A → PM B) : PM B :=
  λ s, match c s with
       | (Ok a, s') => k a s'
       | (Throw e, s') => (Throw e, s')
       end.
Definition ptry {A} (c : PM A) (handler : thrown → PM A) : PM A :=
  λ s, match c s with
       | (Ok a, s') => (Ok a, s')
       | (Throw e, s') => handler e s'
       end.

Notation "'do' x '←' c ';' k" := (pbind c (λ x, k))
  (at level 10, x pattern, c at level 100, k at level 200).
Notation "c ';;;' k" := (pbind c (λ _, k))
  (at level 100, k at level 200, right associativity).

(** A call into the client. *)
Definition call_api {A} (c : Client.M A) : PM A :=
  λ s, let '(r, a) := c (api s) in
       (r, mkState a (cache s) (log s) (abortController s) (debounceTimer s)
                   (tokenListeners s)).

(** A call into the cache, which reads the clock. *)
Definition call_cache {A} (c : Z → Cache.World → A * Cache.World) : PM A :=
  λ s, let '(r, c') := c (Client.now (api s)) (cache s) in
       (Ok r, mkState (api s) c' (log s) (abortController s) (debounceTimer s)
                      (tokenListeners s)).

Definition logger (e : LogEntry) : PM unit :=
  λ s, (Ok tt, mkState (api s) (cache s) (log s ++ [e]) (abortController s)
                       (debounceTimer s) (tokenListeners s)).

(** [this.abortController?.abort(); this.abortController = new
    AbortController()] *)
Definition replaceAbortController : PM nat :=
  λ s,
    let h := match abortController s with
             | Some c => Abort.abort c (Client.signals (api s))
             | None => Client.signals (api s)
             end in
    let '(c, h') := Abort.newController h in
    let a := api s in
    (Ok c, mkState (Client.mkWorld (Client.circuitBreaker a) (Client.now a) h'
                      (Client.requests a) (Client.warningMessages a))
                   (cache s) (log s) (Some c) (debounceTimer s)
                   (tokenListeners s)).

(** [token.onCancellationRequested(() => this.abortController?.abort())]:
    the listener is registered; when the editor cancels the token during
    the request, it shows as the outcome of [fetch]. *)
Definition onCancellationRequested (token : nat) : PM unit :=
  λ s, (Ok tt, mkState (api s) (cache s) (log s) (abortController s)
                       (debounceTimer s) (tokenListeners s ++ [token])).

(** White space and line terminators, which [String.prototype.trim]
    strips. *)
Definition is_space (c : N) : bool :=
  ((9 <=? c) && (c <=? 13) || (c =? 32) || (c =? 0xA0) || (c =? 0x1680)
   || (0x2000 <=? c) && (c <=? 0x200A) || (c =? 0x2028) || (c =? 0x2029)
   || (c =? 0x202F) || (c =? 0x205F) || (c =? 0x3000) || (c =? 0xFEFF))%N.

Fixpoint trimStart (s : jsstring) : jsstring :=
  match s with
  | c :: r => if is_space c then trimStart r else s
  | [] => []
  end.

Definition trim (s : jsstring) : jsstring := rev (trimStart (rev (trimStart s))).

(** *** Timers and promises

    What the event loop holds for the provider: the timeouts that are
    armed, the promises handed to the editor, and the fetches in flight. *)

Inductive Promise :=
  | Pending
  | Fulfilled (items : list Vscode.InlineCompletionItem)
  | Rejected (e : thrown).

(** What the callback given to [setTimeout] closes over: the arguments of
    the call and the [resolve] of the promise it returned. *)
Record Task := mkTask {
  t_document : TextDocument;
  t_position : Vscode.Position;
  t_token : nat;
  t_promise : nat
}.

(** A call of [fetchCompletion] that has not settled.  [j_debounced] tells
    the timer callback, which passes the result to [resolve], from the
    manual invocation, whose promise is the one of [fetchCompletion]. *)
Record Job := mkJob {
  j_task : Task;
  j_debounced : bool
}.

Record Loop := mkLoop {
  state : State;
  nextTimer : nat;
  timers : gmap nat Task;
  promises : list Promise;
  running : list Job
}.

(** A new provider: no timer armed, no promise handed out. *)
Definition newLoop (s : State) : Loop := mkLoop s 1 ∅ [] [].

(** Settling a promise: nothing once it is settled. *)
Definition settle (p : nat) (v : Promise) (ps : list Promise) : list Promise :=
  match ps !! p with
  | Some Pending => <[p := v]> ps
  | _ => ps
  end.

(** What happens to the provider. *)
Inductive action :=
  | Provide (document : TextDocument) (position : Vscode.Position)
            (triggerKind : InlineCompletionTriggerKind) (token : nat)
  | TimerFires (t : nat) (isCancellationRequested : bool)
  | FetchSettles (i : nat) (fo : Client.FetchOutcome) (stored_d stored_w : bool)
  | TimePasses (ms : N).

(** *** Vocabulary of the statements about the event loop *)

(** A computation that leaves the field [debounceTimer] alone. *)
Definition keeps_timer {A} (c : PM A) : Prop :=
  ∀ s, debounceTimer (snd (c s)) = debounceTimer s.

(** What holds of the event loop of a provider at all times: the only
    timer that can be armed is the one [debounceTimer] names; its number
    was handed out; the promise it is to resolve is pending, and is not
    the promise of a fetch in flight; the promises of the fetches in
    flight exist. *)
Record invariant (l : Loop) : Prop := mkInvariant {
  inv_single : ∀ t task,
    timers l !! t = Some task → debounceTimer (state l) = Some t;
  inv_fresh : ∀ t task,
    timers l !! t = Some task → (t < nextTimer l)%nat;
  inv_pending : ∀ t task,
    timers l !! t = Some task → promises l !! t_promise task = Some Pending;
  inv_apart : ∀ t task job,
    timers l !! t = Some task → job ∈ running l →
    t_promise (j_task job) ≠ t_promise task;
  inv_known : ∀ job,
    job ∈ running l → (t_promise (j_task job) < length (promises l))%nat
}.

(** A pending promise that nothing can settle any more: no armed timer
    and no fetch in flight holds its [resolve]. *)
Definition abandoned (p : nat) (l : Loop) : Prop :=
  promises l !! p = Some Pending
  ∧ (∀ t task, timers l !! t = Some task → t_promise task ≠ p)
  ∧ (∀ job, job ∈ running l → t_promise (j_task job) ≠ p).

(** A failure the [catch] block takes for a cancellation. *)
Definition is_cancellation (err : thrown) : bool :=
  match err with
  | ErrorObj name message =>
      JS.str_eqb name (JS.lit "AbortError")
      || JS.includes message (JS.lit "cancelled")
  | NonError _ => false
  end.

Section Pipeline.

(** The constant [CACHE_PREFIX] of [../constants]. *)
Variable CACHE_PREFIX : jsstring.

(** [computeHash] of [../utils/crypto], which settles to a string on every
    input: the SHA-256 of the platform, or the fallback of its [catch]. *)
Variable computeHash : jsstring → jsstring.

(** [getLanguagePrompt] of [../config/prompts], a table of prompts. *)
Variable getLanguagePrompt : jsstring → jsstring.

(** The method [cleanResponse] on a string: four [replace] with regular
    expressions and a [trim], none of which throws. *)
Variable cleanResponse : jsstring → jsstring.

(** The messages of the two [TypeError]s the engine can raise while the
    response is taken apart: reading [choices] of [null], and calling
    [replace] on a value that is not a string. *)
Variable nullPropertyMessage : jsstring.
Variable notAFunctionMessage : jsstring.

Variable settings : Settings.

(** [isLanguageSupported(languageId)] *)
Definition isLanguageSupported (languageId : jsstring) : bool :=
  let supported := default [] (autocomplete_supportedLanguages settings) in
  existsb (JS.str_eqb languageId) supported.

(** [generateCacheKey(document, position)] *)
Definition generateCacheKey (document : TextDocument) (position : Vscode.Position)
  : jsstring :=
  let startLine := Z.max 0 (Vscode.line position - 30) in
  let precedingText :=
    getText document
      (Vscode.mkRange (Vscode.mkPosition startLine 0)
                      (Vscode.mkPosition (Vscode.line position)
                                         (Vscode.character position))) in
  let contentHash :=
    computeHash (languageId document ++ JS.lit ":" ++ uri document
                   ++ JS.lit ":" ++ precedingText) in
  JS.lit "completion:" ++ contentHash.

(** [buildPrompt(document, position)] *)
Definition buildPrompt (document : TextDocument) (position : Vscode.Position)
  : jsstring :=
  let beforeLines := 50 in
  let afterLines := 5 in
  let beforeCursor :=
    getText document
      (Vscode.mkRange
         (Vscode.mkPosition (Z.max 0 (Vscode.line position - beforeLines)) 0)
         (Vscode.mkPosition (Vscode.line position) (Vscode.character position))) in
  let afterCursor :=
    getText document
      (Vscode.mkRange
         (Vscode.mkPosition (Vscode.line position) (Vscode.character position))
         (Vscode.mkPosition
            (Z.min (lineCount document) (Vscode.line position + afterLines)) 0)) in
  let lang := languageId document in
  let nl := [JS.LF] in
  getLanguagePrompt lang ++ nl ++ nl
    ++ JS.lit "## Current Code Context:" ++ nl
    ++ JS.lit "```" ++ lang ++ nl
    ++ beforeCursor ++ JS.lit "[CURSOR]" ++ afterCursor ++ nl
    ++ JS.lit "```" ++ nl ++ nl
    ++ JS.lit "## Instructions:" ++ nl
    ++ JS.lit "1. Complete the code at [CURSOR]" ++ nl
    ++ JS.lit "2. Respond with ONLY code, no explanations" ++ nl
    ++ JS.lit "3. Ensure the code is syntactically correct" ++ nl
    ++ JS.lit "4. Match the existing code style and indentation".

(** [completion.choices?.[0]?.text || E] *)
Definition suggestion_of (completion : Json.t) : PM Json.t :=
  match completion with
  | Json.JNull => pthrow (ErrorObj (JS.lit "TypeError") nullPropertyMessage)
  | _ =>
      pret (Json.or_empty
              (Json.opt_chain
                 (Json.opt_chain (Json.get (JS.lit "choices") completion)
                                 Json.index0)
                 (Json.get (JS.lit "text"))))
  end.

(** [this.cleanResponse(suggestion)]: only a string has [replace]. *)
Definition clean (suggestion : Json.t) : PM jsstring :=
  match suggestion with
  | Json.JStr text => pret (cleanResponse text)
  | _ => pthrow (ErrorObj (JS.lit "TypeError") notAFunctionMessage)
  end.

(** The [try] block of [fetchCompletion]. *)
Definition attempt (position : Vscode.Position) (cacheKey prompt : jsstring)
    (controller : nat) (fo : Client.FetchOutcome) (stored_w : bool)
  : PM (list Vscode.InlineCompletionItem) :=
  do completion ←
    call_api (Client.createCompletion (client_env settings)
                (Client.mkCompletionRequest prompt
                   (api_maxTokens settings) (api_temperature settings)
                   (Some controller)) fo);
  do suggestion ← suggestion_of completion;
  do cleaned ← clean suggestion;
  match trim cleaned with
  | [] => pret []
  | _ :: _ =>
      let it :=
        Vscode.mkItem cleaned (Vscode.mkRange position position)
          (Some (Vscode.mkCommand (JS.lit "Completion Accepted")
                   (JS.lit "myaicopilot.completionAccepted") [cacheKey])) in
      call_cache (λ now w,
        (tt, Cache.setCompletion CACHE_PREFIX cacheKey it
               (cache_ttlSeconds settings) now stored_w w)) ;;;
      logger (LogDebug (JS.lit "Completion generated successfully")) ;;;
      pret [it]
  end.

(** The [catch] block of [fetchCompletion]. *)
Definition on_failure (err : thrown) : PM (list Vscode.InlineCompletionItem) :=
  match err with
  | ErrorObj name message =>
      if JS.str_eqb name (JS.lit "AbortError")
         || JS.includes message (JS.lit "cancelled")
      then pret []
      else
        logger (LogError (JS.lit "Completion failed:") err) ;;;
        pret []
  | NonError _ => pret []
  end.

(** [fetchCompletion(document, position, token)].  [fo] is the outcome of
    the call of [fetch], [stored_d] and [stored_w] those of the cache's
    writes to storage. *)
Definition fetchCompletion (document : TextDocument) (position : Vscode.Position)
    (token : nat) (fo : Client.FetchOutcome) (stored_d stored_w : bool)
  : PM (list Vscode.InlineCompletionItem) :=
  let cacheKey := generateCacheKey document position in
  do cached ← call_cache (λ now, Cache.getCompletion CACHE_PREFIX cacheKey now stored_d);
  match cached with
  | Some it =>
      logger (LogDebug (JS.lit "Cache hit for completion")) ;;;
      pret [it]
  | None =>
      let prompt := buildPrompt document position in
      do controller ← replaceAbortController;
      onCancellationRequested token ;;;
      ptry (attempt position cacheKey prompt controller fo stored_w) on_failure
  end.

(** [provideInlineCompletionItems(document, position, context, token)],
    up to the point where it returns its promise. *)
Definition provideInlineCompletionItems (document : TextDocument)
    (position : Vscode.Position) (triggerKind : InlineCompletionTriggerKind)
    (token : nat) (l : Loop) : nat * Loop :=
  let p := length (promises l) in
  if negb (isLanguageSupported (languageId document)) then
    (p, mkLoop (state l) (nextTimer l) (timers l)
               (promises l ++ [Fulfilled []]) (running l))
  else
    match triggerKind with
    | Invoke =>
        (p, mkLoop (state l) (nextTimer l) (timers l) (promises l ++ [Pending])
                   (running l ++ [mkJob (mkTask document position token p) false]))
    | Automatic =>
        let s := state l in
        let cleared :=
          match debounceTimer s with
          | Some t => delete t (timers l)
          | None => timers l
          end in
        let t := nextTimer l in
        (p, mkLoop (mkState (api s) (cache s) (log s) (abortController s)
                            (Some t) (tokenListeners s))
                   (S t)
                   (<[t := mkTask document position token p]> cleared)
                   (promises l ++ [Pending]) (running l))
    end.

(** The callback of the debounce timer, up to its [await]. *)
Definition timer_callback (task : Task) (isCancellationRequested : bool)
    (l : Loop) : Loop :=
  if isCancellationRequested then
    mkLoop (state l) (nextTimer l) (timers l)
           (settle (t_promise task) (Fulfilled []) (promises l)) (running l)
  else
    mkLoop (state l) (nextTimer l) (timers l) (promises l)
           (running l ++ [mkJob task true]).

(** A fetch in flight is carried out when it settles.  Its result reaches
    the promise through [resolve(result)] in the timer callback, or
    directly on a manual invocation; were it to throw, the callback would
    stop before [resolve]. *)
Definition fetch_settles (job : Job) (fo : Client.FetchOutcome)
    (stored_d stored_w : bool) (l : Loop) : Loop :=
  let task := j_task job in
  let '(r, s) :=
    fetchCompletion (t_document task) (t_position task) (t_token task)
                    fo stored_d stored_w (state l) in
  let ps :=
    match r with
    | Ok items => settle (t_promise task) (Fulfilled items) (promises l)
    | Throw e =>
        if j_debounced job then promises l
        else settle (t_promise task) (Rejected e) (promises l)
    end in
  mkLoop s (nextTimer l) (timers l) ps (running l).

Definition time_passes (ms : N) (l : Loop) : Loop :=
  let s := state l in
  let a := api s in
  mkLoop (mkState (Client.mkWorld (Client.circuitBreaker a)
                     (Client.now a + Z.of_N ms) (Client.signals a)
                     (Client.requests a) (Client.warningMessages a))
                  (cache s) (log s) (abortController s) (debounceTimer s)
                  (tokenListeners s))
         (nextTimer l) (timers l) (promises l) (running l).

(** One step of the event loop; an action that names no armed timer or no
    fetch in flight does nothing. *)
Definition step (a : action) (l : Loop) : Loop :=
  match a with
  | Provide document position triggerKind token =>
      snd (provideInlineCompletionItems document position triggerKind token l)
  | TimerFires t c =>
      match timers l !! t with
      | Some task =>
          timer_callback task c
            (mkLoop (state l) (nextTimer l) (delete t (timers l))
                    (promises l) (running l))
      | None => l
      end
  | FetchSettles i fo stored_d stored_w =>
      match running l !! i with
      | Some job =>
          fetch_settles job fo stored_d stored_w
            (mkLoop (state l) (nextTimer l) (timers l) (promises l)
                    (delete i (running l)))
      | None => l
      end
  | TimePasses ms => time_passes ms l
  end.

Definition run (actions : list action) (l : Loop) : Loop :=
  foldl (λ l' a, step a l') l actions.

End Pipeline.

End Provider.

(** ** Concrete inputs, used to run the definitions *)

Module Sample.

Local Open Scope Z_scope.

Definition env : Client.Env :=
  Client.mkEnv (JS.lit "https://api.example.com/v1") (JS.lit "gpt-4o-mini")
               (Some (JS.lit "sk-test")).

(** A new client, created when the clock reads 1000. *)
Definition fresh : Client.World := Client.newAPIClient env 1000 [].

Definition request : Client.CompletionRequest :=
  Client.mkCompletionRequest (JS.lit "let x =") (Json.JNum false 256 0)
                             (Json.JNum false 2 (-1)) None.

Definition chat : Client.ChatRequest :=
  Client.mkChatRequest (Json.JArr []) (Json.JNum false 256 0)
                       (Json.JNum false 2 (-1)).

Definition unavailable : Client.Response :=
  Client.mkResponse 503 (JS.lit "Service Unavailable")
                    (Client.JsonValue Json.JNull) [] None.

Definition completed : Client.Response :=
  Client.mkResponse 200 (JS.lit "OK")
    (Client.JsonValue
       (Json.JObj [(JS.lit "choices",
                    Json.JArr [Json.JObj [(JS.lit "text", Json.JStr (JS.lit "42;"))]])]))
    [] None.

(** One call of [createCompletion] answered 503 after 10 ms. *)
Definition failing_call (w : Client.World) : Client.World :=
  snd (Client.createCompletion env request (Client.Responds 10 unavailable) w).

(** Five such calls in a row: the breaker is open until 61050. *)
Definition tripped : Client.World :=
  failing_call (failing_call (failing_call (failing_call (failing_call fresh)))).

(** The same client once the cool-down is over. *)
Definition cooled : Client.World := Client.time_passes 70000 tripped.

(** A caller's controller, aborted before the request is made, and a
    request that carries its signal. *)
Definition caller_aborted : Abort.heap :=
  Abort.abort 0 (snd (Abort.newController [])).

Definition cancelled_request : Client.CompletionRequest :=
  Client.mkCompletionRequest (JS.lit "let x =") (Json.JNum false 256 0)
                             (Json.JNum false 2 (-1)) (Some 0%nat).

(** Four failures reported through [handleFailure], a fifth to come. *)
Definition four_reports : list (Z * Z) := [(500, 1); (503, 2); (429, 3); (502, 4)].

(** A document, settings and stand-ins for the imported helpers, to run
    the pipeline. *)
Definition document : Provider.TextDocument :=
  Provider.mkDocument (JS.lit "typescript") (JS.lit "file:///a.ts") 1
                      (λ _, JS.lit "let x =").

Definition position : Vscode.Position := Vscode.mkPosition 0 7.

Definition settings : Provider.Settings :=
  Provider.mkSettings env (Json.JNum false 256 0) (Json.JNum false 2 (-1))
                      300 150 (Some [JS.lit "typescript"; JS.lit "python"]).

Definition prefix : jsstring := JS.lit "myaicopilot.cache.".

Definition idle : Provider.State :=
  Provider.mkState fresh (Cache.mkWorld ∅ []) [] None None [].

Definition an_item : Vscode.InlineCompletionItem :=
  Vscode.mkItem (JS.lit "42;") (Vscode.mkRange position position) None.

End Sample.

(** ** Cleaning the model's answer: [cleanResponse]

    [cleanResponse] of [src/providers/completionProvider.ts] is four
    [String.prototype.replace] with regular expressions and a [trim].
    Each expression is read as ECMAScript reads it; none has a flag other
    than [g], so [a-z] is the ASCII lower case, [\s] the white space and
    line terminators that [trim] strips, [^] and [$] the two ends of the
    string. *)

Module Clean.

Definition backtick : N := 96.

(** Three backticks. *)
Definition fence : jsstring := [backtick; backtick; backtick].

(** [[a-z]] *)
Definition is_lower (c : N) : bool := (97 <=? c) && (c <=? 122).

(** The first fence of [s]: what is before it and what is after it. *)
Fixpoint find_fence (s : jsstring) : option (jsstring * jsstring) :=
  match s with
  | [] => None
  | c :: rest =>
      if JS.startsWith s fence then Some ([], drop 3 s)
      else
        match find_fence rest with
        | Some (before, after) => Some (c :: before, after)
        | None => None
        end
  end.

(** [[a-z]*], which is greedy. *)
Fixpoint skip_lower (s : jsstring) : jsstring :=
  match s with
  | c :: rest => if is_lower c then skip_lower rest else s
  | [] => []
  end.

(** [\n?], which is greedy. *)
Definition skip_newline (s : jsstring) : jsstring :=
  match s with
  | c :: rest => if c =? JS.LF then rest else s
  | [] => []
  end.

(** [.replace(/```[a-z]*\n?([\s\S]*?)```/g, "$1")].  A match starts at a
    fence, takes the letters and the line feed after it, and ends with the
    first fence from there on, the group being what lies between; the
    search goes on behind the match.  Giving back letters or the line feed
    never helps to find the closing fence, no fence starting on one of
    them, and for the same reason no later start finds one when the first
    fence does not: then the rest is left as it is.  Every match is at
    least six code units long, so [length s] rounds are enough. *)
Fixpoint extract_fences_fuel (fuel : nat) (s : jsstring) : jsstring :=
  match fuel with
  | O => s
  | S fuel' =>
      match find_fence s with
      | None => s
      | Some (before, after) =>
          match find_fence (skip_newline (skip_lower after)) with
          | None => s
          | Some (group, rest) => before ++ group ++ extract_fences_fuel fuel' rest
          end
      end
  end.

Definition extract_fences (s : jsstring) : jsstring :=
  extract_fences_fuel (length s) s.

(** [.replace(/```/g, E)], [E] the empty string. *)
Fixpoint remove_fences (s : jsstring) : jsstring :=
  match s with
  | a :: tl =>
      match tl with
      | b :: c :: rest =>
          if (a =? backtick) && (b =? backtick) && (c =? backtick)
          then remove_fences rest
          else a :: remove_fences tl
      | _ => a :: remove_fences tl
      end
  | [] => []
  end.

(** What is left behind the longest prefix that [^\s*\n] matches, if there
    is one: [\s*] is greedy, so the prefix ends at the last line feed of
    the white space the string starts with. *)
Fixpoint after_leading_newline (s : jsstring) : option jsstring :=
  match s with
  | c :: rest =>
      if Provider.is_space c then
        match after_leading_newline rest with
        | Some rest' => Some rest'
        | None => if c =? JS.LF then Some rest else None
        end
      else None
  | [] => None
  end.

(** [.replace(/^\s*\n/, E)] *)
Definition remove_leading_newlines (s : jsstring) : jsstring :=
  default s (after_leading_newline s).

(** [.replace(/\n\s*$/, E)]: the match starts at the first line feed
    that only white space follows. *)
Fixpoint remove_trailing_newlines (s : jsstring) : jsstring :=
  match s with
  | c :: rest =>
      if (c =? JS.LF) && forallb Provider.is_space rest then []
      else c :: remove_trailing_newlines rest
  | [] => []
  end.

(** [cleanResponse(text)] *)
Definition cleanResponse (text : jsstring) : jsstring :=
  Provider.trim
    (remove_trailing_newlines
       (remove_leading_newlines
          (remove_fences
             (extract_fences text)))).

(** The number of backticks a string starts with. *)
Fixpoint lead (s : jsstring) : nat :=
  match s with
  | c :: r => if c =? backtick then S (lead r) else O
  | [] => O
  end.

End Clean.

(** ** Clearing the cache: [CacheManager.clear] *)

Module CacheManager.

Section WithPrefixes.

(** The constants [CACHE_PREFIX] and [CHAT_CACHE_PREFIX] of
    [../constants]. *)
Variable CACHE_PREFIX CHAT_CACHE_PREFIX : jsstring.

(** [workspaceState.keys()]: the keys that hold a value.  Their order
    plays no part in what [clear] leaves behind. *)
Definition keys (w : Cache.World) : list jsstring :=
  map fst (map_to_list (Cache.workspaceState w)).

(** [clear()].  Every [update(k, undefined)] removes its key at once;
    [Promise.allSettled] is fulfilled whether the writes to storage are
    fulfilled or rejected, so the first callback of [then] runs in either
    case: the second component is what [console.log] is called with, and
    [console.error] is not called. *)
Definition clear (w : Cache.World) : Cache.World * list jsstring :=
  let keys :=
    List.filter
      (λ k, JS.startsWith k CACHE_PREFIX || JS.startsWith k CHAT_CACHE_PREFIX)
      (keys w) in
  let state := foldl (λ m k, base.delete k m) (Cache.workspaceState w) keys in
  (Cache.mkWorld state (Cache.console w), [JS.lit "Cache cleared"]).

End WithPrefixes.

End CacheManager.

(** ** Settings, read once: [ConfigurationManager]

    [vscode.workspace.getConfiguration] returns the settings as they are
    when it is called; the manager keeps that object and a [Map] of the
    values it has looked up. *)

Module ConfigurationManager.

Section Values.

(** The values of settings. *)
Variable V : Type.

(** A [WorkspaceConfiguration]: the settings that have a value. *)
Definition WorkspaceConfiguration := gmap jsstring V.

(** The fields [config] and [cache]; a cached value can be [undefined]. *)
Record t := mk {
  config : WorkspaceConfiguration;
  cache : gmap jsstring (option V)
}.

(** [new ConfigurationManager()], the settings being [current]. *)
Definition new (current : WorkspaceConfiguration) : t := mk current ∅.

(** [get(key)] *)
Definition get (key : jsstring) (m : t) : option V * t :=
  let cacheKey := key in
  match cache m !! cacheKey with
  | Some value => (value, m)
  | None =>
      let value := config m !! key in
      (value, mk (config m) (<[cacheKey := value]> (cache m)))
  end.

(** The listener the constructor registers with
    [onDidChangeConfiguration]: [affects] is
    [e.affectsConfiguration("myaicopilot")], [current] the settings when
    the event is delivered. *)
Definition onDidChangeConfiguration (affects : bool)
    (current : WorkspaceConfiguration) (m : t) : t :=
  if affects then mk current ∅ else m.

(** The listener [onDidChange(key, listener)] registers, [affects] being
    [e.affectsConfiguration("myaicopilot." + key)]; the caller's
    [listener] is outside the manager. *)
Definition onDidChange (affects : bool) (m : t) : t :=
  if affects then mk (config m) ∅ else m.

(** What happens to a manager. *)
Inductive event :=
  | Get (key : jsstring)
  | Changed (affects : bool) (current : WorkspaceConfiguration)
  | ChangedKey (affects : bool).

Definition handle (m : t) (e : event) : t :=
  match e with
  | Get key => snd (get key m)
  | Changed affects current => onDidChangeConfiguration affects current m
  | ChangedKey affects => onDidChange affects m
  end.

(** The settings in force after the events, [current] being those at the
    start. *)
Definition settings_after (current : WorkspaceConfiguration) (es : list event)
  : WorkspaceConfiguration :=
  foldl (λ c e, match e with Changed _ c' => c' | _ => c end) current es.

(** The platform reports every change of the settings: an event that
    brings other settings says that it affects them. *)
Fixpoint reported (current : WorkspaceConfiguration) (es : list event) : Prop :=
  match es with
  | [] => True
  | Changed affects c' :: rest =>
      (affects = false → c' = current) ∧ reported c' rest
  | _ :: rest => reported current rest
  end.

(** What the fields of a manager are to the settings in force: [config]
    is them, and [cache] holds nothing else than their values. *)
Definition coherent (m : t) (current : WorkspaceConfiguration) : Prop :=
  config m = current
  ∧ ∀ k v, cache m !! k = Some v → v = current !! k.

End Values.

End ConfigurationManager.

(** ** Ignoring entries of the workspace tree: [FileContextProvider.shouldIgnore]

    [shouldIgnore] turns each pattern into the source of a regular
    expression with three [replace], and tests the name against it. *)

Module FileContext.

(** The class [[.+^${}()|[\]\\]]: full stop, plus, caret, dollar, the
    braces, the parentheses, the bar, the brackets and the backslash. *)
Definition is_special (c : N) : bool :=
  (c =? 46) || (c =? 43) || (c =? 94) || (c =? 36) || (c =? 123) || (c =? 125)
  || (c =? 40) || (c =? 41) || (c =? 124) || (c =? 91) || (c =? 93) || (c =? 92).

Definition backslash : N := 92.
Definition asterisk : N := 42.
Definition question_mark : N := 63.
Definition full_stop : N := 46.

(** [.replace(/[.+^${}()|[\]\\]/g, "\\$&")]: a backslash before each. *)
Definition escape_special (s : jsstring) : jsstring :=
  flat_map (λ c, if is_special c then [backslash; c] else [c]) s.

(** [.replace(/\*/g, ".*")] *)
Definition replace_asterisks (s : jsstring) : jsstring :=
  flat_map (λ c, if c =? asterisk then [full_stop; asterisk] else [c]) s.

(** [.replace(/\?/g, ".")] *)
Definition replace_question_marks (s : jsstring) : jsstring :=
  flat_map (λ c, if c =? question_mark then [full_stop] else [c]) s.

(** The argument of [new RegExp(...)]. *)
Definition regex_source (pattern : jsstring) : jsstring :=
  replace_question_marks (replace_asterisks (escape_special pattern)).

(** *** The regular expressions

    The part of the language of ECMAScript that these sources use: a
    sequence of atoms, each matched once or, followed by an asterisk, any
    number of times.  An atom is a full stop, a syntax character behind a
    backslash, or a character that is no syntax character. *)

Inductive atom :=
  | Char (c : N)
  | Dot.

Inductive term :=
  | Once (a : atom)
  | Star (a : atom).

(** The syntax characters of the grammar: those of the class above, the
    asterisk and the question mark. *)
Definition is_syntax (c : N) : bool :=
  is_special c || (c =? asterisk) || (c =? question_mark).

(** [new RegExp(source)]; [None] for a source outside that part of the
    language. *)
Fixpoint RegExp (source : jsstring) : option (list term) :=
  match source with
  | [] => Some []
  | c :: rest =>
      if c =? backslash then
        match rest with
        | d :: rest' =>
            if is_syntax d then
              match rest' with
              | e :: rest'' =>
                  if e =? asterisk
                  then option_map (cons (Star (Char d))) (RegExp rest'')
                  else option_map (cons (Once (Char d))) (RegExp rest')
              | [] => Some [Once (Char d)]
              end
            else None
        | [] => None
        end
      else if is_syntax c && negb (c =? full_stop) then None
      else
        let a := if c =? full_stop then Dot else Char c in
        match rest with
        | e :: rest' =>
            if e =? asterisk
            then option_map (cons (Star a)) (RegExp rest')
            else option_map (cons (Once a)) (RegExp rest)
        | [] => Some [Once a]
        end
  end.

(** The line terminators, which a full stop does not match. *)
Definition is_line_terminator (c : N) : bool :=
  (c =? 10) || (c =? 13) || (c =? 0x2028) || (c =? 0x2029).

Definition accepts (a : atom) (c : N) : bool :=
  match a with
  | Char d => c =? d
  | Dot => negb (is_line_terminator c)
  end.

(** Whether the expression matches at the start of [s].  The matcher of
    ECMAScript backtracks over every way of sharing [s] out among the
    terms, so that it finds a match whenever there is one. *)
Fixpoint match_here (r : list term) (s : jsstring) : bool :=
  match r with
  | [] => true
  | Once a :: r' =>
      match s with
      | c :: s' => accepts a c && match_here r' s'
      | [] => false
      end
  | Star a :: r' =>
      (fix star (s : jsstring) : bool :=
         match_here r' s
         || match s with
            | c :: s' => accepts a c && star s'
            | [] => false
            end) s
  end.

(** [regex.test(name)] for an expression without flags: a match starting
    anywhere in the name. *)
Fixpoint test (r : list term) (name : jsstring) : bool :=
  match_here r name
  || match name with
     | _ :: rest => test r rest
     | [] => false
     end.

(** [shouldIgnore(name, patterns)]; [None] if a pattern gives a source
    outside the part of the language above. *)
Fixpoint shouldIgnore (name : jsstring) (patterns : list jsstring) : option bool :=
  match patterns with
  | [] => Some false
  | pattern :: rest =>
      if match pattern with [] => true | _ :: _ => false end
         || JS.startsWith pattern (JS.lit "#")
      then shouldIgnore name rest
      else
        match RegExp (regex_source pattern) with
        | Some regex =>
            if test regex name then Some true else shouldIgnore name rest
        | None => None
        end
  end.

(** *** Vocabulary of the statements about patterns *)

(** What a pattern means, character by character. *)
Definition term_of (c : N) : term :=
  if c =? asterisk then Star Dot
  else if c =? question_mark then Once Dot
  else Once (Char c).

(** A pattern without wildcard. *)
Definition is_plain (pattern : jsstring) : bool :=
  forallb (λ c, negb (c =? asterisk) && negb (c =? question_mark)) pattern.

(** A pattern that [shouldIgnore] looks at. *)
Definition is_read (pattern : jsstring) : bool :=
  negb (match pattern with [] => true | _ :: _ => false end
        || JS.startsWith pattern (JS.lit "#")).

End FileContext.

(** ** The messages of a chat request: [ChatParticipantProvider.buildMessages] *)

Module Chat.

Local Open Scope Z_scope.

Inductive Role := system | user | assistant.

(** A [ChatMessage]. *)
Record ChatMessage := mkMessage {
  role : Role;
  content : jsstring
}.

(** [array.slice(start)] for an integer [start]: from the end when it is
    negative. *)
Definition Array_slice {A} (start : Z) (l : list A) : list A :=
  let len := Z.of_nat (length l) in
  let k := if start <? 0 then Z.max (len + start) 0 else Z.min start len in
  drop (Z.to_nat k) l.

Section Turns.

(** The value of [turn.response], and what [String] makes of it. *)
Variable Response : Type.
Variable String_of_response : Response → jsstring.

(** A turn of [context.history]: a [ChatRequestTurn], which has a
    [prompt], or a [ChatResponseTurn], which has none. *)
Inductive Turn :=
  | RequestTurn (prompt : jsstring)
  | ResponseTurn (response : Response).

(** What [buildMessages] reads of [request]: [command], [prompt], and the
    values of the variables [file] and [workspace] ([None]: not there). *)
Record ChatRequest := mkRequest {
  command : option jsstring;
  prompt : jsstring;
  variables_file : option (list jsstring);
  variables_workspace : option (list jsstring)
}.

(** [vscode.window.activeTextEditor], through what is read of it. *)
Record TextEditor := mkEditor {
  selection_isEmpty : bool;
  selected_text : jsstring;
  languageId : jsstring
}.

(** [x || d] for a string that can be [undefined]. *)
Definition or_default (x : option jsstring) (d : jsstring) : jsstring :=
  match x with
  | Some (c :: s) => c :: s
  | _ => d
  end.

(** [variables[name]?.length], as a condition. *)
Definition has_values (v : option (list jsstring)) : bool :=
  match v with
  | Some (_ :: _) => true
  | _ => false
  end.

Definition message_of_turn (turn : Turn) : ChatMessage :=
  match turn with
  | RequestTurn prompt => mkMessage user prompt
  | ResponseTurn response => mkMessage assistant (String_of_response response)
  end.

Definition system_message (request : ChatRequest) : ChatMessage :=
  let nl := [JS.LF] in
  mkMessage system
    (JS.lit "You are MyAICopilot, a code assistant in VS Code." ++ nl
     ++ JS.lit "- Be concise and accurate" ++ nl
     ++ JS.lit "- Use markdown code blocks with language tags" ++ nl
     ++ JS.lit "- When suggesting code, make it ready to insert" ++ nl
     ++ JS.lit "- Command: "
     ++ or_default (command request) (JS.lit "general chat")).

(** [buildMessages(request, context)].  [maxHistory] is the setting
    [chat.maxHistoryMessages], an integer, or [None] when it has no
    value: the negation of [undefined] is not a number, which [slice]
    takes for 0.  [getFileContext] and [getWorkspaceTree] are the methods
    of the [FileContextProvider], which return a string on every path. *)
Definition buildMessages (maxHistory : option Z) (editor : option TextEditor)
    (getFileContext : jsstring → jsstring) (getWorkspaceTree : jsstring)
    (request : ChatRequest) (history : list Turn) : list ChatMessage :=
  let nl := [JS.LF] in
  let recentHistory :=
    Array_slice (match maxHistory with Some n => - n | None => 0 end) history in
  let selected :=
    match editor with
    | Some e =>
        if negb (selection_isEmpty e) then
          JS.lit "## Selected Code (" ++ languageId e ++ JS.lit "):" ++ nl
          ++ JS.lit "```" ++ languageId e ++ nl
          ++ selected_text e ++ nl
          ++ JS.lit "```" ++ nl ++ nl
        else []
    | None => []
    end in
  let file :=
    if has_values (variables_file request) then
      JS.lit "## File Context:" ++ nl
      ++ getFileContext (default [] (head (default [] (variables_file request))))
      ++ nl ++ nl
    else [] in
  let workspace :=
    if has_values (variables_workspace request) then
      JS.lit "## Workspace Structure:" ++ nl ++ getWorkspaceTree ++ nl ++ nl
    else [] in
  let contextPrompt := selected ++ file ++ workspace in
  [system_message request]
  ++ map message_of_turn recentHistory
  ++ [mkMessage user (contextPrompt ++ JS.lit "User: " ++ prompt request)].

End Turns.

End Chat.

(** ** The commands of the extension: [src/extension.ts] *)

Module Extension.

Local Open Scope Z_scope.

(** Calls of the [Logger]. *)
Inductive LogCall :=
  | LogInfo (msg : jsstring)
  | LogError (msg : jsstring) (err : thrown).

(** The client, the value the secret storage holds under [SECRET_KEY],
    what was shown to the user (the messages of [showInformationMessage]
    and of [showErrorMessage], and the titles of the progress
    notifications [withProgress] opened), and the calls of the logger. *)
Record World := mkWorld {
  client : Client.World;
  secrets : option jsstring;
  informationMessages : list jsstring;
  errorMessages : list jsstring;
  progressNotifications : list jsstring;
  log : list LogCall
}.

(** The configuration the client reads, the key being the one stored. *)
Definition env_of (baseUrl model : jsstring) (w : World) : Client.Env :=
  Client.mkEnv baseUrl model (secrets w).

(** The command [myaicopilot.showApiKeyInput].  [key] is what the input
    box settles to ([None]: dismissed); [rejected] is the error
    [secrets.store] rejects with, if it does. *)
Definition showApiKeyInput (key : option jsstring) (rejected : option thrown)
    (w : World) : result unit * World :=
  match key with
  | Some k =>
      match Provider.trim k with
      | [] => (Ok tt, w)
      | c :: s =>
          match rejected with
          | Some e => (Throw e, w)
          | None =>
              (Ok tt,
               mkWorld (client w) (Some (Provider.trim k))
                 (informationMessages w
                  ++ [[0x2705%N] ++ JS.lit " API key saved securely in VS Code secrets"])
                 (errorMessages w) (progressNotifications w)
                 (log w ++ [LogInfo (JS.lit "API key updated")]))
          end
      end
  | None => (Ok tt, w)
  end.

(** The command [myaicopilot.resetApiKey]. *)
Definition resetApiKey (rejected : option thrown) (w : World)
  : result unit * World :=
  match rejected with
  | Some e => (Throw e, w)
  | None =>
      (Ok tt,
       mkWorld (client w) None
         (informationMessages w
          ++ [[0xD83D; 0xDDD1; 0xFE0F]%N ++ JS.lit " API key removed"])
         (errorMessages w) (progressNotifications w)
         (log w ++ [LogInfo (JS.lit "API key removed")]))
  end.


End Extension.

(** ** Hashing the context: [computeHash] of [utils/crypto.ts] *)

Module Crypto.

Local Open Scope Z_scope.

(** The digit of value [d < 16], in lower case. *)
Definition hex_digit (d : N) : N := (if d <? 10 then 48 + d else 87 + d)%N.

(** [n.toString(16)] for an integer [n >= 0]: the digits are produced from
    the last to the first; [fuel] is the number of binary digits of [n],
    which bounds that of its hexadecimal digits. *)
Fixpoint toString16_fuel (fuel : nat) (n : N) (acc : jsstring) : jsstring :=
  match fuel with
  | O => acc
  | S fuel' =>
      let acc' := hex_digit (n mod 16) :: acc in
      if (n / 16 =? 0)%N then acc' else toString16_fuel fuel' (n / 16) acc'
  end.

Definition toString16 (n : N) : jsstring :=
  toString16_fuel (S (N.to_nat (N.log2 n))) n [].

(** [s.padStart(2, "0")] *)
Definition padStart2 (s : jsstring) : jsstring :=
  match s with
  | [] => [48; 48]%N
  | [c] => [48%N; c]
  | _ => s
  end.

(** [ToInt32]: the integer modulo 2^32, read as a signed number. *)
Definition ToInt32 (z : Z) : Z := (z + 2 ^ 31) mod 2 ^ 32 - 2 ^ 31.

(** The body of the fallback's loop: [(hash * 33) ^ content.charCodeAt(i)].
    The product is exact, [hash] being a 32-bit integer; [^] takes both
    operands through [ToInt32], which leaves a code unit as it is. *)
Definition djb2_step (hash : Z) (c : N) : Z :=
  Z.lxor (ToInt32 (hash * 33)) (ToInt32 (Z.of_N c)).

(** [let hash = 5381; for (...) hash = ...] *)
Definition djb2 (content : jsstring) : Z := foldl djb2_step 5381 content.

Section Platform.

(** [crypto.subtle.digest("SHA-256", new TextEncoder().encode(content))],
    awaited: the bytes of the digest, or [None] when the [try] block
    throws (no Web Crypto, or a rejected promise). *)
Variable digest : jsstring → option (list byte).

(** [computeHash(content)]: the hash, and what goes to [console.warn]. *)
Definition computeHash (content : jsstring) : jsstring * list jsstring :=
  match content with
  | [] => (JS.lit "0", [])
  | _ :: _ =>
      match digest content with
      | Some hashBuffer =>
          (flat_map (λ b, padStart2 (toString16 (Byte.to_N b))) hashBuffer, [])
      | None =>
          (toString16 (Z.to_N (Z.abs (djb2 content))),
           [JS.lit "Web Crypto unavailable, using fallback hash"])
      end
  end.

End Platform.

(** *** Vocabulary of the statements about hashes *)

(** A digit of the lower-case hexadecimal notation. *)
Definition is_hex (c : N) : bool :=
  ((48 <=? c) && (c <=? 57) || (97 <=? c) && (c <=? 102))%N.

(** The value of a numeral in base 16. *)
Definition hex_value (s : jsstring) : N :=
  foldl (λ v c, (16 * v + (if c <? 58 then c - 48 else c - 87))%N) 0%N s.

End Crypto.

(** ** Further concrete inputs *)

Module Cases.

Local Open Scope Z_scope.

(** A body whose one record holds a character of two bytes, and the same
    body cut in three chunks, the second cut between the two bytes. *)
Definition accented_body : list byte :=
  SSE.bytes (JS.litq "data: {'choices':[{'delta':{'content':'caf"
             ++ [0xC3; 0xA9]%N ++ JS.litq "'}}]}" ++ [JS.LF; JS.LF]
             ++ JS.lit "data: [DONE]" ++ [JS.LF]).

Definition chunks : list (list byte) :=
  [take 11 accented_body; take 32 (drop 11 accented_body);
   drop 43 accented_body].

(** A body that ends at the sentinel, and reads that would follow it. *)
Definition done_reads : list SSE.read :=
  [SSE.Chunk (SSE.bytes (JS.lit "data: [DONE]" ++ [JS.LF]))].

Definition late_reads : list SSE.read :=
  [SSE.ReadFails (newError (JS.lit "connection lost"));
   SSE.Chunk SSE.example_body].

(** A token cancelled between the first and the second look of the loop,
    and a body of two chunks with a record each. *)
Definition cancelled_after_one : SSE.token := λ i, Nat.leb 1 i.

(** The body of an aborted request, one chunk of which was read before:
    the stream is errored, so that reading and cancelling are both
    rejected with the [AbortError]. *)
Definition aborted : thrown :=
  ErrorObj (JS.lit "AbortError") (JS.lit "The operation was aborted.").

Definition errored_reads : list SSE.read :=
  [SSE.Chunk (SSE.bytes (JS.litq "data: {'choices':[{'delta':{'content':'ab'}}]}"
                          ++ [JS.LF]));
   SSE.ReadFails aborted].

Definition two_records : list SSE.read :=
  [SSE.Chunk (SSE.bytes (JS.litq "data: {'choices':[{'delta':{'content':'ab'}}]}"
                          ++ [JS.LF]));
   SSE.Chunk (SSE.bytes (JS.litq "data: {'choices':[{'delta':{'content':'cd'}}]}"
                          ++ [JS.LF]))].

(** A configuration without a key. *)
Definition no_key : Client.Env :=
  Client.mkEnv (JS.lit "https://api.example.com/v1") (JS.lit "gpt-4o-mini") None.

Definition not_found : Client.Response :=
  Client.mkResponse 404 (JS.lit "Not Found") (Client.JsonValue Json.JNull) [] None.

Definition not_json : Client.Response :=
  Client.mkResponse 200 (JS.lit "OK")
    (Client.JsonError (JS.lit "SyntaxError") (JS.lit "Unexpected token <"))
    [] None.

(** The pipeline of the provider with the settings of [Sample], the hash
    and the table of prompts replaced by the identity. *)
Definition fetchCompletion :=
  Provider.fetchCompletion Sample.prefix (λ x, x) (λ x, x) Clean.cleanResponse
    [] [] Sample.settings.

Definition step :=
  Provider.step Sample.prefix (λ x, x) (λ x, x) Clean.cleanResponse
    [] [] Sample.settings.

Definition cacheKey : jsstring :=
  Provider.generateCacheKey (λ x, x) Sample.document Sample.position.

(** The item made of the answer [Sample.completed]. *)
Definition item : Vscode.InlineCompletionItem :=
  Vscode.mkItem (JS.lit "42;")
    (Vscode.mkRange Sample.position Sample.position)
    (Some (Vscode.mkCommand (JS.lit "Completion Accepted")
             (JS.lit "myaicopilot.completionAccepted") [cacheKey])).

(** The provider after a first request was answered. *)
Definition served : Provider.State :=
  snd (fetchCompletion Sample.document Sample.position 1%nat
         (Client.Responds 10 Sample.completed) true true Sample.idle).


(** A provider whose client has its breaker open. *)
Definition cooling : Provider.State :=
  Provider.mkState Sample.tripped (Cache.mkWorld ∅ []) [] None None [].

(** An answer in a fenced block with a language tag. *)
Definition tag : jsstring := JS.lit "ts".
Definition body : jsstring := [JS.LF] ++ JS.lit "const y = x + 1;" ++ [JS.LF].

(** An answer with white space around it and no fence. *)
Definition padded : jsstring :=
  [JS.LF] ++ JS.lit "  return x;  " ++ [JS.LF; 32%N].

(** The settings before and after the user edits the model. *)
Definition settings_before : gmap jsstring jsstring :=
  {[ JS.lit "api.model" := JS.lit "gpt-4o-mini" ]}.

Definition settings_after_edit : gmap jsstring jsstring :=
  {[ JS.lit "api.model" := JS.lit "gpt-4o" ]}.

(** A chat request after one exchange. *)
Definition chat_request : Chat.ChatRequest :=
  Chat.mkRequest None (JS.lit "and in Python?") None None.

Definition chat_history : list (Chat.Turn unit) :=
  [Chat.RequestTurn unit (JS.lit "How do I reverse a list?");
   Chat.ResponseTurn unit tt].

(** A cache that holds one completion, written at 1000 for 300 s. *)
Definition cached : Cache.World :=
  Cache.setCompletion Sample.prefix cacheKey Sample.an_item 300 1000 true
    (Cache.mkWorld ∅ []).

(** The extension before a key is set, and a key as it may be typed. *)
Definition installed : Extension.World :=
  Extension.mkWorld Sample.fresh None [] [] [] [].

Definition typed_key : jsstring := JS.lit "  sk-test " ++ [JS.LF].


End Cases.

(** * Properties *)

(** ** Abort signals *)

Section AbortFacts.

Import Abort.

Lemma is_aborted_addAbortListener x s target (h : heap) :
  is_aborted x (addAbortListener s target h) = is_aborted x h.
Proof.
  unfold addAbortListener, is_aborted.
  destruct (h !! s) as [sg|] eqn:Hs; [|reflexivity].
  destruct (decide (x = s)) as [->|Hne].
  - rewrite list_lookup_insert_eq by (eapply lookup_lt_Some; eauto).
    rewrite Hs. reflexivity.
  - rewrite list_lookup_insert_ne by congruence. reflexivity.
Qed.

Lemma is_aborted_newController x (h : heap) :
  is_aborted x (snd (newController h)) = is_aborted x h.
Proof.
  unfold newController, is_aborted; cbn.
  destruct (decide (x < length h)%nat) as [Hlt|Hge].
  - rewrite lookup_app_l by exact Hlt. reflexivity.
  - rewrite (lookup_ge_None_2 h x) by lia.
    rewrite lookup_app_r by lia.
    destruct (x - length h)%nat as [|k]; cbn; [reflexivity|].
    reflexivity.
Qed.

Lemma is_aborted_fresh (h : heap) :
  is_aborted (length h) h = false.
Proof.
  unfold is_aborted. rewrite lookup_ge_None_2 by lia. reflexivity.
Qed.

(** Registration runs nothing: the states of all signals are those from
    before the merge, and the new signal is not aborted. *)
Lemma mergeSignals_spec s1 s2 (h : heap) :
  fst (mergeSignals s1 s2 h) = length h ∧
  is_aborted (length h) (snd (mergeSignals s1 s2 h)) = false ∧
  ∀ x, is_aborted x (snd (mergeSignals s1 s2 h)) = is_aborted x h.
Proof.
  unfold mergeSignals.
  change (newController h) with (length h, h ++ [mkSignal false []]); cbn.
  assert (Hall : ∀ x,
    is_aborted x (addAbortListener s2 (length h)
                    (addAbortListener s1 (length h) (h ++ [mkSignal false []])))
    = is_aborted x h).
  { intros x. rewrite !is_aborted_addAbortListener.
    apply (is_aborted_newController x h). }
  split; [reflexivity|]. split; [|exact Hall].
  rewrite Hall. apply is_aborted_fresh.
Qed.

End AbortFacts.

(** ** The circuit breaker *)

Section BreakerFacts.

Import Client.
Local Open Scope Z_scope.

(** The breaker after [handleFailure(status)] at time [t]. *)
Lemma handleFailure_spec status w :
  handleFailure status w =
    (Ok tt,
     if qualifying status then
       let cb := circuitBreaker w in
       if maxFailures cb <=? failures cb + 1 then
         mkWorld (mkBreaker (failures cb + 1) (now w + cooldownMs cb)
                            (maxFailures cb) (cooldownMs cb))
                 (now w) (signals w) (requests w)
                 (warningMessages w ++
                    [JS.lit "MyAICopilot: Too many errors, cooling down for "
                       ++ JS.of_Z (cooldownMs cb / 1000) ++ JS.lit "s"])
       else
         mkWorld (mkBreaker (failures cb + 1) (cooldownUntil cb)
                            (maxFailures cb) (cooldownMs cb))
                 (now w) (signals w) (requests w) (warningMessages w)
     else w).
Proof.
  unfold handleFailure, qualifying.
  destruct ((500 <=? status) || (status =? 429)); [|reflexivity].
  destruct w as [[f c m d] t h rq wm]; cbn.
  destruct (m <=? f + 1); reflexivity.
Qed.

Lemma handleFailure_ok status w : (handleFailure status w).1 = Ok tt.
Proof. rewrite handleFailure_spec. reflexivity. Qed.

Lemma checkCircuitBreaker_open w :
  now w < cooldownUntil (circuitBreaker w) →
  checkCircuitBreaker w = (Throw coolingDown, w).
Proof.
  intros H. unfold checkCircuitBreaker, bind, Date_now, throw.
  apply Z.ltb_lt in H. rewrite H. reflexivity.
Qed.

Lemma checkCircuitBreaker_closed w :
  cooldownUntil (circuitBreaker w) <= now w →
  checkCircuitBreaker w = (Ok tt, w).
Proof.
  intros H. unfold checkCircuitBreaker, bind, Date_now, ret.
  apply Z.ltb_ge in H. rewrite H. reflexivity.
Qed.

(** An open breaker rejects the call at once: nothing is sent, nothing
    changes. *)
Lemma createCompletion_open env req fo w :
  now w < cooldownUntil (circuitBreaker w) →
  createCompletion env req fo w = (Throw coolingDown, w).
Proof.
  intros H. unfold createCompletion, bind at 1.
  rewrite checkCircuitBreaker_open by exact H. reflexivity.
Qed.

Lemma createChatCompletion_open env req token fo w :
  now w < cooldownUntil (circuitBreaker w) →
  createChatCompletion env req token fo w = (Throw coolingDown, w).
Proof.
  intros H. unfold createChatCompletion, bind at 1.
  rewrite checkCircuitBreaker_open by exact H. reflexivity.
Qed.

End BreakerFacts.

Section ClientSteps.

Import Client.
Local Open Scope Z_scope.

Lemma bind_check_closed {A} (k : unit → M A) w :
  cooldownUntil (circuitBreaker w) <= now w →
  bind checkCircuitBreaker k w = k tt w.
Proof.
  intros H. unfold bind at 1. rewrite checkCircuitBreaker_closed by exact H.
  reflexivity.
Qed.

Lemma bind_getApiKey {A} env c key (k : jsstring → M A) w :
  secret env = Some (c :: key) →
  bind (getApiKey env) k w = k (c :: key) w.
Proof. intros H. unfold bind, getApiKey. rewrite H. reflexivity. Qed.

Lemma bind_getApiKey_missing {A} env (k : jsstring → M A) w :
  secret env = None ∨ secret env = Some [] →
  bind (getApiKey env) k w = (Throw apiKeyMissing, w).
Proof. intros [H|H]; unfold bind, getApiKey; rewrite H; reflexivity. Qed.

(** The signals with which the operations call [fetch] are new: none is
    aborted when the call is made, and the older signals are as before. *)
Lemma bind_signal {A} req (k : nat → M A) w :
  ∃ sig h,
    Abort.is_aborted sig h = false ∧
    (∀ x, Abort.is_aborted x h = Abort.is_aborted x (signals w)) ∧
    bind newAbortController
      (λ controller,
         bind (match req_signal req with
               | Some s => mergeSignals controller s
               | None => ret controller
               end) k) w
    = k sig (mkWorld (circuitBreaker w) (now w) h (requests w) (warningMessages w)).
Proof.
  unfold bind at 1, newAbortController.
  change (Abort.newController (signals w))
    with (length (signals w), signals w ++ [Abort.mkSignal false []]).
  cbv iota beta.
  set (h1 := signals w ++ [Abort.mkSignal false []]).
  assert (H1 : ∀ x, Abort.is_aborted x h1 = Abort.is_aborted x (signals w))
    by (intros x; apply (is_aborted_newController x (signals w))).
  destruct (req_signal req) as [s|].
  - destruct (mergeSignals_spec (length (signals w)) s h1) as (Hm & Hf & Hall).
    unfold bind, mergeSignals; cbn.
    eexists (length h1), _. split; [exact Hf|]. split; [|reflexivity].
    intros x. rewrite Hall. apply H1.
  - exists (length (signals w)), h1. split.
    + rewrite H1. apply is_aborted_fresh.
    + split; [exact H1|reflexivity].
Qed.

Lemma bind_newAbortController {A} (k : nat → M A) w :
  bind newAbortController k w
  = k (length (signals w))
      (mkWorld (circuitBreaker w) (now w)
               (signals w ++ [Abort.mkSignal false []])
               (requests w) (warningMessages w)).
Proof. reflexivity. Qed.

Lemma fetch_live rq fo w :
  Abort.is_aborted (signal rq) (signals w) = false →
  fetch rq fo w =
    match fo with
    | Responds elapsed r =>
        (Ok r, mkWorld (circuitBreaker w) (now w + Z.of_N elapsed) (signals w)
                       (requests w ++ [rq]) (warningMessages w))
    | Rejects elapsed name message =>
        (Throw (ErrorObj name message),
         mkWorld (circuitBreaker w) (now w + Z.of_N elapsed) (signals w)
                 (requests w ++ [rq]) (warningMessages w))
    end.
Proof. intros H. unfold fetch. rewrite H. destruct fo; reflexivity. Qed.

End ClientSteps.

Section CompletionRuns.

Import Client.
Local Open Scope Z_scope.

(** [createCompletion] past the breaker and the credential: the request
    goes out on a signal that is not aborted, and the outcome decides. *)
Lemma createCompletion_closed env req fo w c key :
  cooldownUntil (circuitBreaker w) <= now w →
  secret env = Some (c :: key) →
  ∃ sig h,
    Abort.is_aborted sig h = false ∧
    (∀ x, Abort.is_aborted x h = Abort.is_aborted x (signals w)) ∧
    let rq := completionRequest env (c :: key) req sig in
    let sent elapsed :=
      mkWorld (circuitBreaker w) (now w + Z.of_N elapsed) h
              (requests w ++ [rq]) (warningMessages w) in
    createCompletion env req fo w =
      match fo with
      | Responds elapsed r =>
          if ok r then
            (match json r with
             | JsonValue v => Ok v
             | JsonError name message => Throw (rethrown name message)
             end,
             snd (resetFailures (sent elapsed)))
          else
            (Throw (newError (JS.lit "API Error " ++ JS.of_Z (status r)
                                ++ JS.lit ": " ++ statusText r)),
             snd (handleFailure (status r) (sent elapsed)))
      | Rejects elapsed name message =>
          (Throw (rethrown name message), sent elapsed)
      end.
Proof.
  assert (HE : JS.str_eqb (JS.lit "Error") (JS.lit "AbortError") = false)
    by reflexivity.
  intros Hc Hk. unfold createCompletion.
  rewrite bind_check_closed by exact Hc.
  rewrite (bind_getApiKey env c key) by exact Hk.
  match goal with
  | |- context [bind newAbortController (λ controller, bind _ ?k) w] =>
      destruct (bind_signal req k w) as (sig & h & Hf & Hall & ->)
  end.
  exists sig, h. split; [exact Hf|]. split; [exact Hall|].
  cbv zeta. unfold completionRequest, try_catch, bind at 1.
  rewrite fetch_live by exact Hf.
  destruct fo as [el r|el name message]; cbv beta iota.
  - destruct (ok r); cbv beta iota delta [negb].
    + unfold bind, resetFailures, modify_breaker, ret, throw.
      destruct (json r) as [v|name message]; cbv beta iota; [reflexivity|].
      unfold rethrown. destruct (JS.str_eqb name _); reflexivity.
    + unfold bind.
      match goal with
      | |- context [handleFailure ?s ?w0] =>
          rewrite (surjective_pairing (handleFailure s w0)), handleFailure_ok
      end.
      cbv beta iota. unfold throw, newError. rewrite HE. reflexivity.
  - unfold rethrown, throw. destruct (JS.str_eqb name _); reflexivity.
Qed.

End CompletionRuns.

Section ChatAndProbeRuns.

Import Client.
Local Open Scope Z_scope.

Lemma is_aborted_new_controller (h : Abort.heap) :
  Abort.is_aborted (length h) (h ++ [Abort.mkSignal false []]) = false.
Proof.
  etransitivity; [apply (is_aborted_newController (length h) h)|].
  apply is_aborted_fresh.
Qed.

Lemma createChatCompletion_closed env req token fo w c key :
  cooldownUntil (circuitBreaker w) <= now w →
  secret env = Some (c :: key) →
  let rq := chatRequest env (c :: key) req (length (signals w)) in
  createChatCompletion env req token fo w =
    match fo with
    | Responds elapsed r =>
        if ok r then
          (Ok (SSE.parseSSE (stream r) token),
           snd (resetFailures (sent_on_new rq elapsed w)))
        else
          (Throw (newError (JS.lit "API Error " ++ JS.of_Z (status r)
                              ++ JS.lit ": " ++ text r)),
           snd (handleFailure (status r) (sent_on_new rq elapsed w)))
    | Rejects elapsed name message =>
        (Throw (ErrorObj name message), sent_on_new rq elapsed w)
    end.
Proof.
  intros Hc Hk. unfold createChatCompletion.
  rewrite bind_check_closed by exact Hc.
  rewrite (bind_getApiKey env c key) by exact Hk.
  rewrite bind_newAbortController.
  cbv zeta. unfold chatRequest, sent_on_new, bind at 1.
  rewrite fetch_live by (cbn; apply is_aborted_new_controller).
  destruct fo as [el r|el name message]; cbv beta iota; [|reflexivity].
  destruct (ok r); cbv beta iota delta [negb].
  - reflexivity.
  - unfold bind.
    match goal with
    | |- context [handleFailure ?s ?w0] =>
        rewrite (surjective_pairing (handleFailure s w0)), handleFailure_ok
    end.
    reflexivity.
Qed.

Lemma testConnection_run env fo w c key :
  secret env = Some (c :: key) →
  let rq := probeRequest env (c :: key) (length (signals w)) in
  testConnection env fo w =
    match fo with
    | Responds elapsed r =>
        (if ok r then
           match json r with
           | JsonValue _ => Ok tt
           | JsonError name message => Throw (ErrorObj name message)
           end
         else Throw (newError (JS.lit "HTTP " ++ JS.of_Z (status r)
                                 ++ JS.lit ": " ++ statusText r)),
         sent_on_new rq elapsed w)
    | Rejects elapsed name message =>
        (Throw (ErrorObj name message), sent_on_new rq elapsed w)
    end.
Proof.
  intros Hk. unfold testConnection.
  rewrite (bind_getApiKey env c key) by exact Hk.
  rewrite bind_newAbortController.
  cbv zeta. unfold probeRequest, sent_on_new, bind at 1.
  rewrite fetch_live by (cbn; apply is_aborted_new_controller).
  destruct fo as [el r|el name message]; cbv beta iota; [|reflexivity].
  destruct (ok r); cbv beta iota delta [negb]; [|reflexivity].
  destruct (json r); reflexivity.
Qed.

(** Without a credential nothing is sent. *)
Lemma testConnection_no_key env fo w :
  secret env = None ∨ secret env = Some [] →
  testConnection env fo w = (Throw apiKeyMissing, w).
Proof.
  intros H. unfold testConnection. apply bind_getApiKey_missing, H.
Qed.

Lemma createCompletion_no_key env req fo w :
  cooldownUntil (circuitBreaker w) <= now w →
  secret env = None ∨ secret env = Some [] →
  createCompletion env req fo w = (Throw apiKeyMissing, w).
Proof.
  intros Hc H. unfold createCompletion.
  rewrite bind_check_closed by exact Hc. apply bind_getApiKey_missing, H.
Qed.

Lemma createChatCompletion_no_key env req token fo w :
  cooldownUntil (circuitBreaker w) <= now w →
  secret env = None ∨ secret env = Some [] →
  createChatCompletion env req token fo w = (Throw apiKeyMissing, w).
Proof.
  intros Hc H. unfold createChatCompletion.
  rewrite bind_check_closed by exact Hc. apply bind_getApiKey_missing, H.
Qed.

End ChatAndProbeRuns.

Section BreakerRuns.

Import Client.
Local Open Scope Z_scope.

Lemma report_breaker w r :
  circuitBreaker (report w r) =
    let cb := circuitBreaker w in
    if qualifying r.1 then
      if maxFailures cb <=? failures cb + 1
      then mkBreaker (failures cb + 1) (r.2 + cooldownMs cb)
                     (maxFailures cb) (cooldownMs cb)
      else mkBreaker (failures cb + 1) (cooldownUntil cb)
                     (maxFailures cb) (cooldownMs cb)
    else cb.
Proof.
  unfold report. rewrite handleFailure_spec. cbn.
  destruct (qualifying r.1); [|reflexivity].
  destruct (_ <=? _); reflexivity.
Qed.

(** A failure that does not qualify changes nothing. *)
Lemma report_other w status t :
  qualifying status = false → report w (status, t) = at_time t w.
Proof.
  intros H. unfold report. rewrite handleFailure_spec. cbn. rewrite H.
  reflexivity.
Qed.

Lemma reports_snoc rs r w : reports (rs ++ [r]) w = report (reports rs w) r.
Proof. unfold reports. rewrite foldl_app. reflexivity. Qed.

Lemma reports_constants rs w :
  maxFailures (circuitBreaker (reports rs w)) = maxFailures (circuitBreaker w) ∧
  cooldownMs (circuitBreaker (reports rs w)) = cooldownMs (circuitBreaker w).
Proof.
  induction rs as [|r rs IH] using rev_ind; [split; reflexivity|].
  rewrite reports_snoc, report_breaker. cbv zeta.
  destruct (qualifying r.1); [|exact IH].
  destruct (_ <=? _); cbn; exact IH.
Qed.

(** Every qualifying failure is counted. *)
Lemma reports_failures rs w :
  Forall (λ r, qualifying r.1 = true) rs →
  failures (circuitBreaker (reports rs w))
  = failures (circuitBreaker w) + Z.of_nat (length rs).
Proof.
  induction rs as [|r rs IH] using rev_ind; intros H.
  - cbn. lia.
  - apply Forall_app in H as [Hrs Hr]. apply Forall_inv in Hr.
    rewrite reports_snoc, report_breaker, length_app. cbv zeta.
    rewrite Hr. destruct (_ <=? _); cbn; rewrite IH by exact Hrs; lia.
Qed.

(** Below the threshold the breaker stays as it was. *)
Lemma reports_below rs w :
  Forall (λ r, qualifying r.1 = true) rs →
  failures (circuitBreaker w) + Z.of_nat (length rs)
    < maxFailures (circuitBreaker w) →
  cooldownUntil (circuitBreaker (reports rs w)) = cooldownUntil (circuitBreaker w).
Proof.
  induction rs as [|r rs IH] using rev_ind; intros H Hlt; [reflexivity|].
  apply Forall_app in H as [Hrs Hr]. apply Forall_inv in Hr.
  rewrite length_app in Hlt. cbn in Hlt.
  rewrite reports_snoc, report_breaker. cbv zeta. rewrite Hr.
  destruct (reports_constants rs w) as [Hm _]. rewrite Hm.
  rewrite reports_failures by exact Hrs.
  destruct (Z.leb_spec (maxFailures (circuitBreaker w))
              (failures (circuitBreaker w) + Z.of_nat (length rs) + 1)); [lia|].
  cbn. apply IH; [exact Hrs|lia].
Qed.

(** The failure that reaches the threshold opens it. *)
Lemma reports_reaching rs status t w :
  Forall (λ r, qualifying r.1 = true) rs →
  qualifying status = true →
  maxFailures (circuitBreaker w)
    <= failures (circuitBreaker w) + Z.of_nat (length rs) + 1 →
  cooldownUntil (circuitBreaker (reports (rs ++ [(status, t)]) w))
  = t + cooldownMs (circuitBreaker w).
Proof.
  intros Hrs Hq Hle.
  rewrite reports_snoc, report_breaker. cbv zeta. cbn [fst snd]. rewrite Hq.
  destruct (reports_constants rs w) as [Hm Hc]. rewrite Hm, Hc.
  rewrite reports_failures by exact Hrs.
  destruct (Z.leb_spec (maxFailures (circuitBreaker w))
              (failures (circuitBreaker w) + Z.of_nat (length rs) + 1)); [|lia].
  reflexivity.
Qed.

(** A successful response resets the counter and nothing else of the
    breaker. *)
Lemma createCompletion_success env req elapsed r w c key :
  cooldownUntil (circuitBreaker w) <= now w →
  secret env = Some (c :: key) →
  ok r = true →
  circuitBreaker (snd (createCompletion env req (Responds elapsed r) w))
  = mkBreaker 0 (cooldownUntil (circuitBreaker w))
              (maxFailures (circuitBreaker w)) (cooldownMs (circuitBreaker w)).
Proof.
  intros Hc Hk Hok.
  destruct (createCompletion_closed env req (Responds elapsed r) w c key Hc Hk)
    as (sig & h & _ & _ & ->).
  rewrite Hok. reflexivity.
Qed.

Lemma createChatCompletion_success env req token elapsed r w c key :
  cooldownUntil (circuitBreaker w) <= now w →
  secret env = Some (c :: key) →
  ok r = true →
  circuitBreaker (snd (createChatCompletion env req token (Responds elapsed r) w))
  = mkBreaker 0 (cooldownUntil (circuitBreaker w))
              (maxFailures (circuitBreaker w)) (cooldownMs (circuitBreaker w)).
Proof.
  intros Hc Hk Hok.
  pose proof (createChatCompletion_closed env req token (Responds elapsed r)
                w c key Hc Hk) as H.
  cbv zeta in H. rewrite H, Hok. reflexivity.
Qed.

End BreakerRuns.

Section BreakerOpening.

Import Client.
Local Open Scope Z_scope.

(** C1.  From a breaker whose counter is at zero, let failures that qualify
    (status at least 500, or 429) be reported through [handleFailure], as
    many as [maxFailures], the last one with status [status] when the clock
    reads [t].  Then the breaker has not moved before the last of them, and
    with the last one [cooldownUntil] is [t + cooldownMs]; from then on
    every call of [createCompletion] and of [createChatCompletion] made
    while the clock reads less than [cooldownUntil] fails at once with the
    cooling-down error and leaves the world as it is, so that no request
    is sent; a failure that does not qualify is not counted; and after
    fewer reports than [maxFailures], a successful response to either
    operation puts the counter back to 0. *)
Theorem breaker_opens_after_maxFailures
    (env : Env) (w : World) (rs : list (Z * Z)) (status t : Z) :
  failures (circuitBreaker w) = 0 →
  Forall (λ r, qualifying r.1 = true) (rs ++ [(status, t)]) →
  Z.of_nat (length (rs ++ [(status, t)])) = maxFailures (circuitBreaker w) →
  let w' := reports (rs ++ [(status, t)]) w in
  cooldownUntil (circuitBreaker (reports rs w)) = cooldownUntil (circuitBreaker w)
  ∧ cooldownUntil (circuitBreaker w') = t + cooldownMs (circuitBreaker w)
  ∧ (∀ clock req fo,
       clock < cooldownUntil (circuitBreaker w') →
       createCompletion env req fo (at_time clock w')
       = (Throw coolingDown, at_time clock w'))
  ∧ (∀ clock req token fo,
       clock < cooldownUntil (circuitBreaker w') →
       createChatCompletion env req token fo (at_time clock w')
       = (Throw coolingDown, at_time clock w'))
  ∧ (∀ w0 other clock,
       qualifying other = false → report w0 (other, clock) = at_time clock w0)
  ∧ (∀ k clock c key elapsed r,
       (k <= length rs)%nat →
       cooldownUntil (circuitBreaker w) <= clock →
       secret env = Some (c :: key) →
       ok r = true →
       let wk := at_time clock (reports (take k rs) w) in
       (∀ req,
          failures (circuitBreaker
            (snd (createCompletion env req (Responds elapsed r) wk))) = 0)
       ∧ (∀ req token,
          failures (circuitBreaker
            (snd (createChatCompletion env req token (Responds elapsed r) wk))) = 0)).
Proof.
  intros Hzero Hall Hlen w'.
  pose proof Hall as Hall'.
  apply Forall_app in Hall' as [Hrs Hlast]. apply Forall_inv in Hlast.
  cbn [fst] in Hlast.
  rewrite length_app in Hlen. cbn [length] in Hlen.
  split; [apply reports_below; [exact Hrs|lia]|].
  split; [subst w'; apply reports_reaching; [exact Hrs|exact Hlast|lia]|].
  split; [intros clock req fo Hlt; apply createCompletion_open; exact Hlt|].
  split; [intros clock req token fo Hlt; apply createChatCompletion_open;
          exact Hlt|].
  split; [intros w0 other clock Hq; apply report_other, Hq|].
  intros k clock c key elapsed r Hk Hclosed Hkey Hok wk.
  assert (Hcu : cooldownUntil (circuitBreaker wk) <= now wk).
  { subst wk. cbn. rewrite reports_below; [exact Hclosed| |].
    - apply Forall_take, Hrs.
    - rewrite length_take. lia. }
  split.
  - intros req.
    rewrite (createCompletion_success env req elapsed r wk c key Hcu Hkey Hok).
    reflexivity.
  - intros req token.
    rewrite (createChatCompletion_success env req token elapsed r wk c key
               Hcu Hkey Hok).
    reflexivity.
Qed.

End BreakerOpening.

Section BreakerInvariants.

Import Client.
Local Open Scope Z_scope.

Lemma handleFailure_breaker status w :
  circuitBreaker (snd (handleFailure status w))
  = after_failure status (now w) (circuitBreaker w).
Proof.
  rewrite handleFailure_spec. unfold after_failure. cbn.
  destruct (qualifying status); [|reflexivity].
  destruct (_ <=? _); reflexivity.
Qed.

Lemma handleFailure_now status w : now (snd (handleFailure status w)) = now w.
Proof.
  rewrite handleFailure_spec. cbn.
  destruct (qualifying status); [|reflexivity].
  destruct (_ <=? _); reflexivity.
Qed.

(** [testConnection] never touches the breaker, and the clock only moves
    forward. *)
Lemma testConnection_effect env fo w :
  circuitBreaker (snd (testConnection env fo w)) = circuitBreaker w ∧
  warningMessages (snd (testConnection env fo w)) = warningMessages w ∧
  now w <= now (snd (testConnection env fo w)).
Proof.
  destruct (secret env) as [[|c key]|] eqn:Hk.
  - rewrite testConnection_no_key by (right; exact Hk).
    split; [reflexivity|split; [reflexivity|cbn; lia]].
  - pose proof (testConnection_run env fo w c key Hk) as H. cbv zeta in H.
    rewrite H.
    destruct fo; (split; [reflexivity|split; [reflexivity|cbn; lia]]).
  - rewrite testConnection_no_key by (left; exact Hk).
    split; [reflexivity|split; [reflexivity|cbn; lia]].
Qed.

(** What one call of [createCompletion] does to the breaker: nothing, a
    reset of the counter, or a failure reported at the time the response
    came, which is not before the call. *)
Lemma createCompletion_effect env req fo w :
  let w' := snd (createCompletion env req fo w) in
  now w <= now w' ∧
  (circuitBreaker w' = circuitBreaker w
   ∨ circuitBreaker w' = after_success (circuitBreaker w)
   ∨ ∃ status, circuitBreaker w' = after_failure status (now w') (circuitBreaker w)).
Proof.
  cbv zeta.
  destruct (Z.lt_ge_cases (now w) (cooldownUntil (circuitBreaker w))) as [Ho|Hc].
  { rewrite createCompletion_open by exact Ho. split; [cbn; lia|left; reflexivity]. }
  destruct (secret env) as [[|c key]|] eqn:Hk.
  - rewrite createCompletion_no_key by (auto; right; exact Hk).
    split; [cbn; lia|left; reflexivity].
  - destruct (createCompletion_closed env req fo w c key Hc Hk)
      as (sig & h & _ & _ & ->).
    destruct fo as [el r|el name message].
    + destruct (ok r).
      * split; [cbn; lia|right; left; reflexivity].
      * cbn [snd]. rewrite handleFailure_now, handleFailure_breaker.
        split; [cbn; lia|right; right; exists (status r); reflexivity].
    + split; [cbn; lia|left; reflexivity].
  - rewrite createCompletion_no_key by (auto; left; exact Hk).
    split; [cbn; lia|left; reflexivity].
Qed.

Lemma createChatCompletion_effect env req token fo w :
  let w' := snd (createChatCompletion env req token fo w) in
  now w <= now w' ∧
  (circuitBreaker w' = circuitBreaker w
   ∨ circuitBreaker w' = after_success (circuitBreaker w)
   ∨ ∃ status, circuitBreaker w' = after_failure status (now w') (circuitBreaker w)).
Proof.
  cbv zeta.
  destruct (Z.lt_ge_cases (now w) (cooldownUntil (circuitBreaker w))) as [Ho|Hc].
  { rewrite createChatCompletion_open by exact Ho.
    split; [cbn; lia|left; reflexivity]. }
  destruct (secret env) as [[|c key]|] eqn:Hk.
  - rewrite createChatCompletion_no_key by (auto; right; exact Hk).
    split; [cbn; lia|left; reflexivity].
  - pose proof (createChatCompletion_closed env req token fo w c key Hc Hk) as H.
    cbv zeta in H. rewrite H.
    destruct fo as [el r|el name message].
    + destruct (ok r).
      * split; [cbn; lia|right; left; reflexivity].
      * cbn [snd]. rewrite handleFailure_now, handleFailure_breaker.
        split; [cbn; lia|right; right; exists (status r); reflexivity].
    + split; [cbn; lia|left; reflexivity].
  - rewrite createChatCompletion_no_key by (auto; left; exact Hk).
    split; [cbn; lia|left; reflexivity].
Qed.

(** The three shapes of a change keep the constants. *)
Lemma breaker_change_constants cb cb' t :
  (cb' = cb ∨ cb' = after_success cb ∨ ∃ status, cb' = after_failure status t cb) →
  maxFailures cb' = maxFailures cb ∧ cooldownMs cb' = cooldownMs cb.
Proof.
  intros [->|[->|[status ->]]]; [split; reflexivity..|].
  unfold after_failure. destruct (qualifying status); [|split; reflexivity].
  destruct (_ <=? _); split; reflexivity.
Qed.

(** Under a clock that does not run backwards they never lower
    [cooldownUntil], and keep it within [cooldownMs] of the clock. *)
Lemma breaker_change_cooldown cb cb' t0 t :
  (cb' = cb ∨ cb' = after_success cb ∨ ∃ status, cb' = after_failure status t cb) →
  t0 <= t →
  cooldownUntil cb <= t0 + cooldownMs cb →
  cooldownUntil cb <= cooldownUntil cb' ∧
  cooldownUntil cb' <= t + cooldownMs cb'.
Proof.
  intros [->|[->|[status ->]]] Ht Hinv; [cbn; lia..|].
  unfold after_failure. destruct (qualifying status); [|lia].
  destruct (_ <=? _); cbn; lia.
Qed.

(** In every reachable state the constants are those of the initializer
    and [cooldownUntil] is at most [cooldownMs] ahead of the clock. *)
Lemma reachable_invariant w :
  reachable w →
  maxFailures (circuitBreaker w) = 5 ∧
  cooldownMs (circuitBreaker w) = 60000 ∧
  cooldownUntil (circuitBreaker w) <= now w + cooldownMs (circuitBreaker w).
Proof.
  induction 1 as [env clock h Hclock | ms w Hw IH | env fo w Hw IH
                 | env req fo w Hw IH | env req token fo w Hw IH].
  - cbn. lia.
  - cbn. lia.
  - destruct (testConnection_effect env fo w) as (-> & _ & Hnow). lia.
  - destruct (createCompletion_effect env req fo w) as [Hnow Hcb].
    destruct (breaker_change_constants _ _ _ Hcb) as [-> ->].
    destruct (breaker_change_cooldown _ _ (now w) _ Hcb Hnow) as [_ H2]; [lia|].
    destruct (breaker_change_constants _ _ _ Hcb) as [_ Hd]. rewrite Hd in H2.
    lia.
  - destruct (createChatCompletion_effect env req token fo w) as [Hnow Hcb].
    destruct (breaker_change_constants _ _ _ Hcb) as [-> ->].
    destruct (breaker_change_cooldown _ _ (now w) _ Hcb Hnow) as [_ H2]; [lia|].
    destruct (breaker_change_constants _ _ _ Hcb) as [_ Hd]. rewrite Hd in H2.
    lia.
Qed.

End BreakerInvariants.

Section BreakerReachability.

Import Client.
Local Open Scope Z_scope.

Lemma breaker_opens_after_maxFailures_witness :
  cooldownUntil (circuitBreaker (reports (Sample.four_reports ++ [(500, 5)]) Sample.fresh))
  = 60005
  ∧ createCompletion Sample.env Sample.request (Responds 10 Sample.completed)
      (at_time 60004 (reports (Sample.four_reports ++ [(500, 5)]) Sample.fresh))
    = (Throw coolingDown,
       at_time 60004 (reports (Sample.four_reports ++ [(500, 5)]) Sample.fresh)).
Proof.
  destruct (breaker_opens_after_maxFailures Sample.env Sample.fresh
              Sample.four_reports 500 5) as (_ & H2 & H3 & _).
  - reflexivity.
  - repeat constructor.
  - reflexivity.
  - split; [exact H2|]. apply H3. rewrite H2. reflexivity.
Defined.



Lemma tripped_reachable : reachable Sample.tripped.
Proof.
  unfold Sample.tripped, Sample.failing_call.
  do 5 apply reach_createCompletion. apply reach_new. lia.
Qed.

Lemma cooled_reachable : reachable Sample.cooled.
Proof. apply reach_time, tripped_reachable. Qed.




(** C8.  The threshold and the cool-down of an instance are the constants
    of its initializer, 5 and 60000 ms: the constructor sets them whatever
    configuration and credential store it is given, and they are the same
    in every state the instance reaches, whatever settings are in force
    when its operations run. *)
Theorem breaker_constants_fixed :
  (∀ env clock h,
     circuitBreaker (newAPIClient env clock h) = mkBreaker 0 0 5 60000)
  ∧ (∀ w, reachable w →
          maxFailures (circuitBreaker w) = 5 ∧
          cooldownMs (circuitBreaker w) = 60000).
Proof.
  split; [reflexivity|].
  intros w Hw. destruct (reachable_invariant w Hw) as (H1 & H2 & _).
  split; assumption.
Qed.

Lemma breaker_constants_fixed_witness :
  maxFailures (circuitBreaker Sample.cooled) = 5 ∧
  cooldownMs (circuitBreaker Sample.cooled) = 60000.
Proof.
  apply (proj2 breaker_constants_fixed Sample.cooled cooled_reachable).
Defined.

(** C9.  [testConnection] does not look at the breaker and does not report
    to it: whatever the breaker holds, open or not, and however the probe
    ends, the breaker and the warnings shown are afterwards what they
    were, and when a credential is stored the probe is sent. *)
Theorem testConnection_bypasses_breaker (env : Env) (fo : FetchOutcome) (w : World) :
  circuitBreaker (snd (testConnection env fo w)) = circuitBreaker w
  ∧ warningMessages (snd (testConnection env fo w)) = warningMessages w
  ∧ (∀ c key,
       secret env = Some (c :: key) →
       requests (snd (testConnection env fo w))
       = requests w ++ [probeRequest env (c :: key) (length (signals w))]).
Proof.
  destruct (testConnection_effect env fo w) as (H1 & H2 & _).
  split; [exact H1|]. split; [exact H2|].
  intros c key Hk.
  pose proof (testConnection_run env fo w c key Hk) as H. cbv zeta in H.
  rewrite H. destruct fo; reflexivity.
Qed.

(** The probe goes out while the breaker is open, and its failure is not
    counted. *)
Lemma testConnection_bypasses_breaker_witness :
  now Sample.tripped < cooldownUntil (circuitBreaker Sample.tripped)
  ∧ circuitBreaker
      (snd (testConnection Sample.env (Responds 10 Sample.unavailable) Sample.tripped))
    = circuitBreaker Sample.tripped
  ∧ length (requests
      (snd (testConnection Sample.env (Responds 10 Sample.unavailable) Sample.tripped)))
    = S (length (requests Sample.tripped)).
Proof.
  destruct (testConnection_bypasses_breaker Sample.env
              (Responds 10 Sample.unavailable) Sample.tripped) as (H1 & _ & H3).
  split; [vm_compute; reflexivity|]. split; [exact H1|].
  rewrite (H3 115%N (JS.lit "k-test") eq_refl), length_app. cbn [length]. lia.
Defined.

End BreakerReachability.

(** ** Merging abort signals *)

Section MergeFacts.

Import Abort.

Lemma length_addAbortListener s target (h : heap) :
  length (addAbortListener s target h) = length h.
Proof.
  unfold addAbortListener. destruct (h !! s); [apply length_insert|reflexivity].
Qed.

Lemma is_aborted_insert_true x c (h : heap) :
  is_aborted x h = true → is_aborted x (<[c := mkSignal true []]> h) = true.
Proof.
  unfold is_aborted. intros H.
  destruct (decide (x = c)) as [->|Hne].
  - destruct (h !! c) as [sg|] eqn:Hc; [|discriminate].
    rewrite list_lookup_insert_eq by (eapply lookup_lt_Some; eauto).
    reflexivity.
  - rewrite list_lookup_insert_ne by congruence. exact H.
Qed.

Lemma length_abort_fuel fuel c (h : heap) :
  length (abort_fuel fuel c h) = length h.
Proof.
  revert c h. induction fuel as [|fuel IH]; intros c h; [reflexivity|].
  cbn. destruct (h !! c) as [sg|]; [|reflexivity].
  destruct (aborted sg); [reflexivity|].
  transitivity (length (<[c := mkSignal true []]> h)); [|apply length_insert].
  generalize (<[c := mkSignal true []]> h) as h0.
  induction (listeners sg) as [|l ls IHl]; intros h0; [reflexivity|].
  cbn. rewrite IHl. apply IH.
Qed.

(** Abortion is monotonic: no signal is ever un-aborted. *)
Lemma abort_fuel_monotone fuel c x (h : heap) :
  is_aborted x h = true → is_aborted x (abort_fuel fuel c h) = true.
Proof.
  revert c h. induction fuel as [|fuel IH]; intros c h H; [exact H|].
  cbn. destruct (h !! c) as [sg|]; [|exact H].
  destruct (aborted sg); [exact H|].
  apply (is_aborted_insert_true x c) in H. revert H.
  generalize (<[c := mkSignal true []]> h) as h0.
  induction (listeners sg) as [|l ls IHl]; intros h0 H; [exact H|].
  cbn. apply IHl, IH, H.
Qed.

Lemma foldl_abort_monotone fuel x ls (h : heap) :
  is_aborted x h = true →
  is_aborted x (foldl (λ h' target, abort_fuel fuel target h') h ls) = true.
Proof.
  revert h. induction ls as [|l ls IH]; intros h H; [exact H|].
  cbn. apply IH, abort_fuel_monotone, H.
Qed.

Lemma length_foldl_abort fuel ls (h : heap) :
  length (foldl (λ h' target, abort_fuel fuel target h') h ls) = length h.
Proof.
  revert h. induction ls as [|l ls IH]; intros h; [reflexivity|].
  cbn. rewrite IH. apply length_abort_fuel.
Qed.

(** With fuel left, aborting a signal of the store leaves it aborted. *)
Lemma abort_fuel_aborts fuel c (h : heap) :
  (c < length h)%nat → is_aborted c (abort_fuel (S fuel) c h) = true.
Proof.
  intros Hc. cbn.
  destruct (h !! c) as [sg|] eqn:E.
  - destruct (aborted sg) eqn:Ea.
    + unfold is_aborted. rewrite E. exact Ea.
    + apply foldl_abort_monotone. unfold is_aborted.
      rewrite list_lookup_insert_eq by exact Hc. reflexivity.
  - apply lookup_ge_None_1 in E. lia.
Qed.

(** Aborting a signal that carries a listener for [m] aborts [m]. *)
Lemma abort_reaches_listener s m (h : heap) sg :
  h !! s = Some sg → aborted sg = false → m ∈ listeners sg →
  (m < length h)%nat →
  is_aborted m (abort s h) = true.
Proof.
  intros Hs Ha Hm Hlen. unfold abort. cbn. rewrite Hs, Ha.
  apply list_elem_of_split in Hm as (l1 & l2 & ->).
  rewrite foldl_app. cbn.
  apply foldl_abort_monotone.
  set (h1 := foldl _ _ l1).
  assert (Hl : length h1 = length h).
  { subst h1. rewrite length_foldl_abort. apply length_insert. }
  destruct (length h) as [|n] eqn:En; [lia|].
  apply abort_fuel_aborts. lia.
Qed.

Lemma lookup_addAbortListener_eq s target (h : heap) sg :
  h !! s = Some sg →
  addAbortListener s target h !! s
  = Some (mkSignal (aborted sg) (listeners sg ++ [target])).
Proof.
  intros Hs. unfold addAbortListener. rewrite Hs.
  apply list_lookup_insert_eq. eapply lookup_lt_Some; eauto.
Qed.

Lemma lookup_addAbortListener_ne s s' target (h : heap) :
  s ≠ s' → addAbortListener s target h !! s' = h !! s'.
Proof.
  intros Hne. unfold addAbortListener.
  destruct (h !! s); [|reflexivity]. apply list_lookup_insert_ne. exact Hne.
Qed.

(** After a merge, each input signal of the store carries a listener for
    the merged controller. *)
Lemma mergeSignals_listens s1 s2 (h : heap) s :
  (s = s1 ∨ s = s2) → (s < length h)%nat →
  ∃ sg, snd (mergeSignals s1 s2 h) !! s = Some sg ∧
        length h ∈ listeners sg ∧
        aborted sg = is_aborted s h.
Proof.
  intros Hs Hlt. unfold mergeSignals, newController. cbn.
  destruct (lookup_lt_is_Some_2 h s Hlt) as [sg0 Hsg0].
  assert (H0 : (h ++ [mkSignal false []]) !! s = Some sg0)
    by (rewrite lookup_app_l by exact Hlt; exact Hsg0).
  assert (Ha : is_aborted s h = aborted sg0)
    by (unfold is_aborted; rewrite Hsg0; reflexivity).
  rewrite Ha.
  destruct (decide (s = s1)) as [->|Hne1].
  - pose proof (lookup_addAbortListener_eq s1 (length h) _ _ H0) as H1.
    destruct (decide (s1 = s2)) as [<-|Hne2].
    + rewrite (lookup_addAbortListener_eq s1 (length h) _ _ H1).
      eexists. split; [reflexivity|]. cbn. split; [|reflexivity].
      apply elem_of_app; right; constructor.
    + rewrite lookup_addAbortListener_ne by congruence. rewrite H1.
      eexists. split; [reflexivity|]. cbn. split; [|reflexivity].
      apply elem_of_app; right; constructor.
  - destruct Hs as [->| ->]; [congruence|].
    assert (H1 : addAbortListener s1 (length h) (h ++ [mkSignal false []]) !! s2
                 = Some sg0)
      by (rewrite lookup_addAbortListener_ne by congruence; exact H0).
    rewrite (lookup_addAbortListener_eq s2 (length h) _ _ H1).
    eexists. split; [reflexivity|]. cbn. split; [|reflexivity].
    apply elem_of_app; right; constructor.
Qed.

(** The case the merge handles: an input signal that is not aborted yet
    when the merge is made carries the abort over to the merged signal. *)
Lemma mergeSignals_propagates s1 s2 (h : heap) s :
  (s = s1 ∨ s = s2) → (s < length h)%nat → is_aborted s h = false →
  is_aborted (fst (mergeSignals s1 s2 h))
             (abort s (snd (mergeSignals s1 s2 h))) = true.
Proof.
  intros Hs Hlt Hna.
  destruct (mergeSignals_listens s1 s2 h s Hs Hlt) as (sg & Hsg & Hin & Ha).
  destruct (mergeSignals_spec s1 s2 h) as (-> & _ & _).
  apply (abort_reaches_listener s (length h) _ sg Hsg); [congruence|exact Hin|].
  unfold mergeSignals, newController. cbn.
  rewrite !length_addAbortListener, length_app. cbn. lia.
Qed.

(** Aborting again a signal that is aborted does nothing. *)
Lemma abort_aborted s (h : heap) : is_aborted s h = true → abort s h = h.
Proof.
  unfold is_aborted, abort. cbn. intros H.
  destruct (h !! s) as [sg|]; [|reflexivity]. rewrite H. reflexivity.
Qed.

(** C4, the case the code misses.  When the second signal is already
    aborted at the moment of merging, the merged signal is not aborted:
    registering a listener runs nothing, and the event it waits for was
    dispatched before.  Aborting that signal again changes nothing, so the
    merged signal stays as it is until the first signal aborts. *)
Theorem mergeSignals_misses_aborted_input (s1 s2 : nat) (h : heap) :
  is_aborted s2 h = true →
  let merged := fst (mergeSignals s1 s2 h) in
  let h' := snd (mergeSignals s1 s2 h) in
  is_aborted s2 h' = true
  ∧ is_aborted merged h' = false
  ∧ abort s2 h' = h'
  ∧ is_aborted merged (abort s2 h') = false.
Proof.
  intros H2. cbv zeta.
  destruct (mergeSignals_spec s1 s2 h) as (Hm & Hf & Hall).
  assert (H2' : is_aborted s2 (snd (mergeSignals s1 s2 h)) = true)
    by (rewrite Hall; exact H2).
  rewrite Hm. split; [exact H2'|]. split; [exact Hf|].
  rewrite (abort_aborted s2 _ H2'). split; [reflexivity|exact Hf].
Qed.

End MergeFacts.

Section MergeClaims.

Import Client.
Local Open Scope Z_scope.

Lemma mergeSignals_misses_aborted_input_witness :
  Abort.is_aborted 0 Sample.caller_aborted = true
  ∧ Abort.is_aborted
      (fst (Abort.mergeSignals 1 0 (snd (Abort.newController Sample.caller_aborted))))
      (snd (Abort.mergeSignals 1 0 (snd (Abort.newController Sample.caller_aborted))))
    = false.
Proof.
  split; [reflexivity|].
  apply (mergeSignals_misses_aborted_input 1 0
           (snd (Abort.newController Sample.caller_aborted))).
  reflexivity.
Defined.

(** The same at the level of [createCompletion]: called with a signal that
    its caller has aborted already, it sends the request all the same and
    returns the completion. *)
Example createCompletion_with_aborted_signal :
  let w := newAPIClient Sample.env 1000 Sample.caller_aborted in
  let res := createCompletion Sample.env Sample.cancelled_request
               (Responds 10 Sample.completed) w in
  Abort.is_aborted 0 (signals w) = true
  ∧ (∃ v, fst res = Ok v)
  ∧ length (requests (snd res)) = 1%nat.
Proof.
  cbv zeta. split; [reflexivity|]. split; [eexists; vm_compute; reflexivity|].
  vm_compute. reflexivity.
Qed.

End MergeClaims.

(** ** Credentials and headers *)

Section HeaderClaims.

Import Client.
Local Open Scope Z_scope.

Lemma handleFailure_requests status w :
  requests (snd (handleFailure status w)) = requests w.
Proof.
  rewrite handleFailure_spec. cbn.
  destruct (qualifying status); [|reflexivity].
  destruct (_ <=? _); reflexivity.
Qed.

(** Both completion operations send their request with the bearer token
    and the user agent. *)
Lemma completion_headers apiKey :
  header (JS.lit "Authorization") (getHeaders apiKey)
    = Some (JS.lit "Bearer " ++ apiKey)
  ∧ header (JS.lit "User-Agent") (getHeaders apiKey)
    = Some (JS.lit "MyAICopilot/0.1.0").
Proof. split; reflexivity. Qed.

Lemma createCompletion_request env req fo w c key :
  cooldownUntil (circuitBreaker w) <= now w →
  secret env = Some (c :: key) →
  ∃ sig, requests (snd (createCompletion env req fo w))
         = requests w ++ [completionRequest env (c :: key) req sig].
Proof.
  intros Hc Hk.
  destruct (createCompletion_closed env req fo w c key Hc Hk)
    as (sig & h & _ & _ & ->).
  exists sig. destruct fo as [el r|el name message]; [|reflexivity].
  destruct (ok r); [reflexivity|]. cbn [snd]. apply handleFailure_requests.
Qed.

Lemma createChatCompletion_request env req token fo w c key :
  cooldownUntil (circuitBreaker w) <= now w →
  secret env = Some (c :: key) →
  requests (snd (createChatCompletion env req token fo w))
  = requests w ++ [chatRequest env (c :: key) req (length (signals w))].
Proof.
  intros Hc Hk.
  pose proof (createChatCompletion_closed env req token fo w c key Hc Hk) as H.
  cbv zeta in H. rewrite H.
  destruct fo as [el r|el name message]; [|reflexivity].
  destruct (ok r); [reflexivity|]. cbn [snd]. apply handleFailure_requests.
Qed.

(** C5, where the code departs from it.  With a credential [key] stored,
    [testConnection] sends one request, whose only header is the bearer
    token: it carries no [User-Agent], unlike the requests of the two
    completion operations, which are built with [getHeaders]. *)
Theorem testConnection_sends_no_user_agent
    (base mdl : jsstring) (c : N) (key : jsstring)
    (fo : FetchOutcome) (w : World) :
  let env := mkEnv base mdl (Some (c :: key)) in
  ∃ rq,
    requests (snd (testConnection env fo w)) = requests w ++ [rq]
    ∧ header (JS.lit "Authorization") (headers rq)
      = Some (JS.lit "Bearer " ++ c :: key)
    ∧ header (JS.lit "User-Agent") (headers rq) = None
    ∧ header (JS.lit "User-Agent") (getHeaders (c :: key))
      = Some (JS.lit "MyAICopilot/0.1.0").
Proof.
  cbv zeta.
  exists (probeRequest (mkEnv base mdl (Some (c :: key))) (c :: key)
            (length (signals w))).
  split; [|split; [reflexivity|split; reflexivity]].
  pose proof (testConnection_run (mkEnv base mdl (Some (c :: key))) fo w c key
                eq_refl) as H.
  cbv zeta in H. rewrite H. destruct fo; reflexivity.
Qed.

End HeaderClaims.

(** ** The parser of server-sent events *)

Section ParserFacts.

Import SSE.

Lemma str_eqb_eq (a b : jsstring) : JS.str_eqb a b = true → a = b.
Proof.
  revert b. induction a as [|x a IH]; intros [|y b] H; try discriminate H.
  - reflexivity.
  - cbn in H. apply andb_prop in H as [Hx Hab].
    apply N.eqb_eq in Hx. rewrite Hx, (IH b Hab). reflexivity.
Qed.

(** A token that is never cancelled is as good as none, and what
    cancelling the reader would do plays no part. *)
Lemma loop_not_cancelled tk cancel cancel' i reads decoder buffer :
  (∀ j, isCancellationRequested tk j = false) →
  loop tk cancel i reads decoder buffer = loop None cancel' i reads decoder buffer.
Proof.
  intros Htk. revert i decoder buffer.
  induction reads as [|rd reads IH]; intros i decoder buffer;
    cbn -[JS.pop JS.split_newlines process_lines TextDecoder.decode];
    rewrite Htk; [reflexivity|].
  destruct rd as [value|e]; [|reflexivity].
  destruct (TextDecoder.decode decoder value) as [text decoder'].
  destruct (JS.pop (JS.split_newlines (buffer ++ text))) as [lines last_line].
  destruct (process_lines lines) as [evs [|]]; [reflexivity|].
  rewrite IH. reflexivity.
Qed.

Lemma parseSSE_not_cancelled tk body :
  (∀ j, isCancellationRequested tk j = false) →
  parseSSE body tk = parseSSE body None.
Proof.
  intros Htk. destruct body as [b|]; [|reflexivity].
  unfold parseSSE.
  rewrite (loop_not_cancelled tk (body_cancel b) (body_cancel b)) by exact Htk.
  reflexivity.
Qed.

Lemma parseSSE_cancel_unused reads cancel :
  parseSSE (Some (mkBody reads cancel)) None
  = parseSSE (Some (mkBody reads None)) None.
Proof.
  unfold parseSSE. cbn [body_reads body_cancel].
  rewrite (loop_not_cancelled None cancel None) by reflexivity. reflexivity.
Qed.

(** Every way of writing a list as three pieces is among [splits3]. *)
Lemma splits3_complete {A} (c1 c2 c3 : list A) :
  In (c1, c2, c3) (splits3 (c1 ++ c2 ++ c3)).
Proof.
  unfold splits3. apply in_flat_map. exists (length c1). split.
  - apply in_seq. rewrite !length_app. lia.
  - apply in_map_iff. exists (length c2). split.
    + rewrite take_app_length, drop_app_length, take_app_length.
      rewrite <- length_app, app_assoc, drop_app_length. reflexivity.
    + apply in_seq. rewrite !length_app. lia.
Qed.

(** The example, checked on each of its 6216 cuttings. *)
Lemma example_all_splits :
  forallb (λ cs, is_example_run (parse3 None cs)) (splits3 example_body) = true.
Proof. vm_compute. reflexivity. Qed.

End ParserFacts.

Section ParserClaims.

Import SSE.

(** C2.  Let the bytes of the example body (the records with contents
    [ab] and [cd] and the line [data: [DONE]], each followed by a blank
    line) reach the parser in three chunks [c1], [c2], [c3], cut anywhere,
    and let the token, if there is one, not be cancelled.  Then the
    fragments produced are exactly [ab] and [cd], in that order; nothing
    else happens (no warning, no error): the generator returns at the
    sentinel, having released the reader once.  The result is the same
    for every cutting, and whatever cancelling the reader would do. *)
Theorem parseSSE_example_any_chunking
    (c1 c2 c3 : list byte) (tk : option token) (cancel : option thrown) :
  c1 ++ c2 ++ c3 = example_body →
  (∀ i, isCancellationRequested tk i = false) →
  let r := parseSSE (Some (mkBody [Chunk c1; Chunk c2; Chunk c3] cancel)) tk in
  fragments r = [Json.JStr (JS.lit "ab"); Json.JStr (JS.lit "cd")]
  ∧ events r = [Yield (Json.JStr (JS.lit "ab")); Yield (Json.JStr (JS.lit "cd"))]
  ∧ how r = SawDone
  ∧ released r = 1%nat
  ∧ reader_cancelled r = false.
Proof.
  intros Hbody Htk r.
  assert (Hex : is_example_run r = true).
  { subst r. rewrite (parseSSE_not_cancelled tk) by exact Htk.
    rewrite parseSSE_cancel_unused.
    pose proof example_all_splits as Hall.
    rewrite forallb_forall in Hall.
    apply (Hall (c1, c2, c3)). rewrite <- Hbody. apply splits3_complete. }
  unfold is_example_run, fragments in *.
  destruct (events r) as [|[[| | | a | |]|] [|[[| | | b | |]|] [|]]];
    try discriminate Hex.
  destruct (how r); try discriminate Hex.
  apply andb_prop in Hex as [Hex Hc]. apply andb_prop in Hex as [Hex Hr].
  apply andb_prop in Hex as [Ha Hb].
  apply str_eqb_eq in Ha, Hb. subst a b.
  apply Nat.eqb_eq in Hr. apply negb_true_iff in Hc.
  repeat split; assumption || reflexivity.
Qed.

Lemma parseSSE_example_any_chunking_witness :
  let r := parseSSE (Some (mkBody [Chunk (take 9 example_body);
                                   Chunk (take 40 (drop 9 example_body));
                                   Chunk (drop 49 example_body)] None)) None in
  fragments r = [Json.JStr (JS.lit "ab"); Json.JStr (JS.lit "cd")]
  ∧ how r = SawDone.
Proof.
  destruct (parseSSE_example_any_chunking
              (take 9 example_body) (take 40 (drop 9 example_body))
              (drop 49 example_body) None None) as (H1 & _ & H3 & _).
  - vm_compute. reflexivity.
  - reflexivity.
  - split; [exact H1|exact H3].
Defined.

End ParserClaims.

(** ** The completion cache *)

Section CacheClaims.

Import Cache.
Local Open Scope Z_scope.

Lemma setCompletion_lookup prefix key it ttl clock stored w :
  workspaceState (setCompletion prefix key it ttl clock stored w) !! (prefix ++ key)
  = Some (mkEntry it (clock + ttl * 1000)).
Proof. cbn. apply lookup_insert_eq. Qed.

(** Reading an entry whose expiry has not passed changes nothing. *)
Lemma getCompletion_live prefix key clock stored w entry :
  workspaceState w !! (prefix ++ key) = Some entry →
  clock <= expiry entry →
  getCompletion prefix key clock stored w = (Some (item entry), w).
Proof.
  intros He Hle. unfold getCompletion. rewrite He.
  destruct (Z.ltb_spec (expiry entry) clock); [lia|reflexivity].
Qed.

(** Reading an entry whose expiry has passed removes it. *)
Lemma getCompletion_expired prefix key clock stored w entry :
  workspaceState w !! (prefix ++ key) = Some entry →
  expiry entry < clock →
  getCompletion prefix key clock stored w
  = (None,
     mkWorld (base.delete (prefix ++ key) (workspaceState w))
             (if stored then console w
              else console w ++ [JS.lit "Cache delete failed:"])).
Proof.
  intros He Hlt. unfold getCompletion. rewrite He.
  destruct (Z.ltb_spec (expiry entry) clock); [reflexivity|lia].
Qed.

(** C3, as amended.  For every key, item and time to live that is not
    negative, [setCompletion] followed by [getCompletion] with the clock
    unchanged returns the item and leaves the store as the write made it.
    The entry written expires at the time of writing plus [ttlSeconds *
    1000]; and for every stored entry, a read made once the clock exceeds
    its expiry returns nothing and deletes that entry, touching no other
    key and writing to the console only if the deletion fails to reach
    storage. *)
Theorem cache_set_get_expire
    (prefix key : jsstring) (it : Vscode.InlineCompletionItem)
    (ttlSeconds clock : Z) (stored stored' : bool) (w : World) :
  0 <= ttlSeconds →
  let w1 := setCompletion prefix key it ttlSeconds clock stored w in
  getCompletion prefix key clock stored' w1 = (Some it, w1)
  ∧ workspaceState w1 !! (prefix ++ key)
    = Some (mkEntry it (clock + ttlSeconds * 1000))
  ∧ (∀ w0 entry later,
       workspaceState w0 !! (prefix ++ key) = Some entry →
       expiry entry < later →
       let res := getCompletion prefix key later stored' w0 in
       fst res = None
       ∧ workspaceState (snd res) !! (prefix ++ key) = None
       ∧ (∀ k, k ≠ prefix ++ key →
               workspaceState (snd res) !! k = workspaceState w0 !! k)
       ∧ console (snd res)
         = if stored' then console w0
           else console w0 ++ [JS.lit "Cache delete failed:"]).
Proof.
  intros Httl w1. split; [|split].
  - apply (getCompletion_live prefix key clock stored' w1
             (mkEntry it (clock + ttlSeconds * 1000))).
    + apply setCompletion_lookup.
    + cbn. lia.
  - apply setCompletion_lookup.
  - intros w0 entry later He Hlt.
    rewrite (getCompletion_expired prefix key later stored' w0 entry He Hlt).
    cbn. split; [reflexivity|]. split; [apply lookup_delete_eq|].
    split; [|reflexivity].
    intros k Hk. apply lookup_delete_ne. congruence.
Qed.

Lemma cache_set_get_expire_witness :
  let w1 := setCompletion Sample.prefix (JS.lit "k") Sample.an_item 300 1000 true
              (mkWorld ∅ []) in
  getCompletion Sample.prefix (JS.lit "k") 1000 true w1 = (Some Sample.an_item, w1)
  ∧ fst (getCompletion Sample.prefix (JS.lit "k") 301001 true w1) = None.
Proof.
  destruct (cache_set_get_expire Sample.prefix (JS.lit "k") Sample.an_item
              300 1000 true true (mkWorld ∅ [])) as (H1 & H2 & H3); [lia|].
  split; [exact H1|].
  apply (H3 _ _ 301001 H2). cbn. lia.
Defined.

(** C3 as the specification has it fails for a negative time to live: the
    entry is written already expired, and the read that follows at the
    same instant returns nothing. *)
Lemma cache_negative_ttl_counterexample :
  fst (getCompletion Sample.prefix (JS.lit "k") 1000 true
         (setCompletion Sample.prefix (JS.lit "k") Sample.an_item (-1) 1000 true
            (mkWorld ∅ [])))
  = None
  ∧ ¬ (∀ prefix key it ttlSeconds clock stored stored' w,
         fst (getCompletion prefix key clock stored'
                (setCompletion prefix key it ttlSeconds clock stored w))
         = Some it).
Proof.
  assert (H : fst (getCompletion Sample.prefix (JS.lit "k") 1000 true
                     (setCompletion Sample.prefix (JS.lit "k") Sample.an_item
                        (-1) 1000 true (mkWorld ∅ []))) = None).
  { unfold getCompletion. rewrite setCompletion_lookup. reflexivity. }
  split; [exact H|].
  intros Hall.
  specialize (Hall Sample.prefix (JS.lit "k") Sample.an_item (-1) 1000 true true
                (mkWorld ∅ [])).
  rewrite H in Hall. discriminate Hall.
Qed.

End CacheClaims.

(** ** The completion pipeline *)

Section LoggerFacts.

(** A call of [logger.error] is written to the output channel under each
    of the four levels the setting can name. *)
Lemma error_is_written configLevel :
  configLevel ∈ Logger.levels →
  Logger.shouldLog configLevel (JS.lit "error") = true.
Proof.
  unfold Logger.levels. intros H.
  repeat (apply elem_of_cons in H as [->|H]; [reflexivity|]).
  apply not_elem_of_nil in H. destruct H.
Qed.

End LoggerFacts.

Section ClientErrors.

Import Client.
Local Open Scope Z_scope.

Lemma rethrown_is_error name message : instanceofError (rethrown name message) = true.
Proof. unfold rethrown. destruct (JS.str_eqb _ _); reflexivity. Qed.

(** Whatever [createCompletion] throws is an instance of [Error]. *)
Lemma createCompletion_throws_errors env req fo w err w' :
  createCompletion env req fo w = (Throw err, w') → instanceofError err = true.
Proof.
  destruct (Z.lt_ge_cases (now w) (cooldownUntil (circuitBreaker w))) as [Ho|Hc].
  { rewrite createCompletion_open by exact Ho. intros [= <- _]. reflexivity. }
  destruct (secret env) as [[|c key]|] eqn:Hk.
  - rewrite createCompletion_no_key by (auto; right; exact Hk).
    intros [= <- _]. reflexivity.
  - destruct (createCompletion_closed env req fo w c key Hc Hk)
      as (sig & h & _ & _ & ->).
    destruct fo as [el r|el name message].
    + destruct (ok r).
      * destruct (json r); intros [= <- _]. apply rethrown_is_error.
      * intros [= <- _]. reflexivity.
    + intros [= <- _]. apply rethrown_is_error.
  - rewrite createCompletion_no_key by (auto; left; exact Hk).
    intros [= <- _]. reflexivity.
Qed.

End ClientErrors.

Section PipelineFacts.

Import Provider.

Variable CACHE_PREFIX : jsstring.
Variable computeHash getLanguagePrompt cleanResponse : jsstring → jsstring.
Variable nullPropertyMessage notAFunctionMessage : jsstring.
Variable settings : Settings.

Local Abbreviation attempt :=
  (attempt CACHE_PREFIX cleanResponse nullPropertyMessage notAFunctionMessage settings).
Local Abbreviation fetchCompletion :=
  (fetchCompletion CACHE_PREFIX computeHash getLanguagePrompt cleanResponse
     nullPropertyMessage notAFunctionMessage settings).

(** The [catch] block always returns the empty list; it logs the failures
    that are instances of [Error] and not cancellations. *)
Lemma on_failure_spec err s :
  on_failure err s =
    (Ok [],
     mkState (api s) (cache s)
       (if instanceofError err && negb (is_cancellation err)
        then log s ++ [LogError (JS.lit "Completion failed:") err] else log s)
       (abortController s) (debounceTimer s) (tokenListeners s)).
Proof.
  destruct s as [a c l ac dt tl].
  destruct err as [name message|repr]; [|reflexivity].
  unfold on_failure, is_cancellation. cbn [instanceofError andb].
  destruct (JS.str_eqb name _ || JS.includes message _); reflexivity.
Qed.

(** Whatever the [try] block throws is an instance of [Error]. *)
Lemma attempt_throws_errors position cacheKey prompt controller fo stored_w
    s err s' :
  attempt position cacheKey prompt controller fo stored_w s = (Throw err, s') →
  instanceofError err = true.
Proof.
  unfold Provider.attempt, pbind at 1, call_api.
  destruct (Client.createCompletion _ _ fo (api s)) as [[completion|e] a] eqn:E.
  - unfold pbind at 1.
    match goal with
    | |- context [suggestion_of ?m completion ?s0] =>
        destruct (suggestion_of m completion s0) as [[suggestion|e] s1] eqn:E1
    end.
    + unfold pbind at 1.
      match goal with
      | |- context [clean ?f ?m suggestion s1] =>
          destruct (clean f m suggestion s1) as [[cleaned|e] s2] eqn:E2
      end.
      * destruct (trim cleaned); intros H; discriminate H.
      * intros [= <- _]. unfold clean in E2.
        destruct suggestion; inversion E2; reflexivity.
    + intros [= <- _]. unfold suggestion_of in E1.
      destruct completion; inversion E1; reflexivity.
  - intros [= <- _]. eapply createCompletion_throws_errors, E.
Qed.

Lemma fetchCompletion_returns document position token fo stored_d stored_w s :
  ∃ items s',
    fetchCompletion document position token fo stored_d stored_w s = (Ok items, s').
Proof.
  unfold Provider.fetchCompletion, pbind at 1, call_cache.
  destruct (Cache.getCompletion _ _ _ _ _) as [[it|] c].
  - eexists _, _. reflexivity.
  - unfold pbind at 1, replaceAbortController.
    destruct (Abort.newController _) as [ctl h].
    unfold pbind at 1, onCancellationRequested, ptry.
    match goal with
    | |- context [Provider.attempt ?a ?b ?c ?d ?e ?f ?g ?h ?i ?j ?k ?l] =>
        destruct (Provider.attempt a b c d e f g h i j k l) as [[items|err] s1]
    end.
    + eexists _, _. reflexivity.
    + rewrite on_failure_spec. eexists _, _. reflexivity.
Qed.

(** A [try] block that throws has written nothing to the log. *)
Lemma attempt_throws_log position cacheKey prompt controller fo stored_w
    s err s' :
  attempt position cacheKey prompt controller fo stored_w s = (Throw err, s') →
  log s' = log s.
Proof.
  unfold Provider.attempt, pbind at 1, call_api.
  destruct (Client.createCompletion _ _ fo (api s)) as [[completion|e] a].
  - unfold pbind at 1.
    match goal with
    | |- context [suggestion_of ?m completion ?s0] =>
        destruct (suggestion_of m completion s0) as [[suggestion|e] s1] eqn:E1
    end.
    + assert (Hl1 : log s1 = log s)
        by (unfold suggestion_of in E1; destruct completion; inversion E1;
            reflexivity).
      unfold pbind at 1.
      match goal with
      | |- context [clean ?f ?m suggestion s1] =>
          destruct (clean f m suggestion s1) as [[cleaned|e] s2] eqn:E2
      end.
      * destruct (trim cleaned); intros H; discriminate H.
      * intros [= _ <-]. unfold clean in E2.
        destruct suggestion; inversion E2; subst; exact Hl1.
    + intros [= _ <-]. unfold suggestion_of in E1.
      destruct completion; inversion E1; reflexivity.
  - intros [= _ <-]. reflexivity.
Qed.

(** C6.  [fetchCompletion] returns a list on every input and in every
    state: nothing it does makes it throw.  And whenever a call misses
    the cache, replaces the controller, and has its [try] block fail with
    an error [err], [fetchCompletion] returns the empty list.  If [err]
    is a cancellation (named [AbortError], or with [cancelled] in its
    message) the log is what it was before the call; otherwise the
    failure has been reported to the logger, once.  The rest of the state
    is what the failure left.  Every failure of the block is an instance
    of [Error], so none escapes the report. *)
Theorem fetchCompletion_failures_give_empty
    (document : TextDocument) (position : Vscode.Position) (token : nat)
    (fo : Client.FetchOutcome) (stored_d stored_w : bool) (s : State) :
  (∃ items s',
     fetchCompletion document position token fo stored_d stored_w s = (Ok items, s'))
  ∧ (∀ c1 controller s0 err s2,
       Cache.getCompletion CACHE_PREFIX (generateCacheKey computeHash document position)
         (Client.now (api s)) stored_d (cache s) = (None, c1) →
       replaceAbortController
         (mkState (api s) c1 (log s) (abortController s) (debounceTimer s)
                  (tokenListeners s))
       = (Ok controller, s0) →
       attempt position (generateCacheKey computeHash document position)
         (buildPrompt getLanguagePrompt document position) controller fo stored_w
         (snd (onCancellationRequested token s0))
       = (Throw err, s2) →
       instanceofError err = true
       ∧ fetchCompletion document position token fo stored_d stored_w s
         = (Ok [],
            mkState (api s2) (cache s2)
              (if is_cancellation err then log s
               else log s ++ [LogError (JS.lit "Completion failed:") err])
              (abortController s2) (debounceTimer s2) (tokenListeners s2))).
Proof.
  split; [apply fetchCompletion_returns|].
  intros c1 controller s0 err s2 Hmiss Hctl H.
  pose proof (attempt_throws_errors _ _ _ _ _ _ _ _ _ H) as Herr.
  pose proof (attempt_throws_log _ _ _ _ _ _ _ _ _ H) as Hlog.
  assert (Hl0 : log s0 = log s).
  { unfold replaceAbortController in Hctl.
    destruct (Abort.newController _) as [ctl h] in Hctl.
    injection Hctl as _ <-. reflexivity. }
  cbn [onCancellationRequested snd log] in Hlog. rewrite Hl0 in Hlog.
  split; [exact Herr|].
  unfold Provider.fetchCompletion, pbind at 1, call_cache. rewrite Hmiss.
  cbv beta iota. unfold pbind at 1. rewrite Hctl.
  unfold pbind at 1.
  change (onCancellationRequested token s0)
    with (Ok tt, snd (onCancellationRequested token s0)).
  cbv beta iota. unfold ptry. rewrite H, on_failure_spec, Herr, Hlog.
  cbn [andb]. destruct (is_cancellation err); reflexivity.
Qed.

End PipelineFacts.

Section PipelineWitness.

Import Provider.

(** A network failure is logged; a timeout is taken for a cancellation and
    is not. *)
Lemma fetchCompletion_failures_give_empty_witness :
  let fetch fo :=
    fetchCompletion Sample.prefix (λ x, x) (λ x, x) (λ x, x) [] [] Sample.settings
      Sample.document Sample.position 7 fo true true Sample.idle in
  (fst (fetch (Client.Rejects 5 (JS.lit "TypeError") (JS.lit "fetch failed")))
     = Ok []
   ∧ log (snd (fetch (Client.Rejects 5 (JS.lit "TypeError") (JS.lit "fetch failed"))))
     = [LogError (JS.lit "Completion failed:")
          (ErrorObj (JS.lit "TypeError") (JS.lit "fetch failed"))])
  ∧ (fst (fetch (Client.Rejects 30000 (JS.lit "AbortError") Client.abortErrorMessage))
       = Ok []
     ∧ log (snd (fetch (Client.Rejects 30000 (JS.lit "AbortError")
                          Client.abortErrorMessage)))
       = []).
Proof.
  cbv zeta. split.
  - destruct (fetchCompletion_failures_give_empty Sample.prefix (λ x, x) (λ x, x)
                (λ x, x) [] [] Sample.settings Sample.document Sample.position 7
                (Client.Rejects 5 (JS.lit "TypeError") (JS.lit "fetch failed"))
                true true Sample.idle) as [_ H].
    destruct (H (Cache.mkWorld ∅ []) 0%nat
                (snd (replaceAbortController Sample.idle))
                (ErrorObj (JS.lit "TypeError") (JS.lit "fetch failed"))
                _ ltac:(vm_compute; reflexivity) ltac:(vm_compute; reflexivity)
                ltac:(vm_compute; reflexivity)) as [_ ->].
    split; reflexivity.
  - destruct (fetchCompletion_failures_give_empty Sample.prefix (λ x, x) (λ x, x)
                (λ x, x) [] [] Sample.settings Sample.document Sample.position 7
                (Client.Rejects 30000 (JS.lit "AbortError") Client.abortErrorMessage)
                true true Sample.idle) as [_ H].
    destruct (H (Cache.mkWorld ∅ []) 0%nat
                (snd (replaceAbortController Sample.idle))
                (newError (JS.lit "Request timeout or cancelled"))
                _ ltac:(vm_compute; reflexivity) ltac:(vm_compute; reflexivity)
                ltac:(vm_compute; reflexivity)) as [_ ->].
    split; reflexivity.
Defined.

End PipelineWitness.

(** ** Debouncing *)

Section TimerField.

Import Provider.

Lemma keeps_timer_pret {A} (a : A) : keeps_timer (pret a).
Proof. intros s. reflexivity. Qed.

Lemma keeps_timer_pthrow {A} e : keeps_timer (@pthrow A e).
Proof. intros s. reflexivity. Qed.

Lemma keeps_timer_pbind {A B} (c : PM A) (k : A → PM B) :
  keeps_timer c → (∀ a, keeps_timer (k a)) → keeps_timer (pbind c k).
Proof.
  intros Hc Hk s. unfold pbind. specialize (Hc s).
  destruct (c s) as [[a|e] s1]; cbn in *; [|exact Hc].
  rewrite (Hk a s1). exact Hc.
Qed.

Lemma keeps_timer_ptry {A} (c : PM A) (handler : thrown → PM A) :
  keeps_timer c → (∀ e, keeps_timer (handler e)) → keeps_timer (ptry c handler).
Proof.
  intros Hc Hh s. unfold ptry. specialize (Hc s).
  destruct (c s) as [[a|e] s1]; cbn in *; [exact Hc|].
  rewrite (Hh e s1). exact Hc.
Qed.

Lemma keeps_timer_call_api {A} (c : Client.M A) : keeps_timer (call_api c).
Proof. intros s. unfold call_api. destruct (c (api s)). reflexivity. Qed.

Lemma keeps_timer_call_cache {A} (c : Z → Cache.World → A * Cache.World) :
  keeps_timer (call_cache c).
Proof. intros s. unfold call_cache. destruct (c _ (cache s)). reflexivity. Qed.

Lemma keeps_timer_logger e : keeps_timer (logger e).
Proof. intros s. reflexivity. Qed.

Lemma keeps_timer_replaceAbortController : keeps_timer replaceAbortController.
Proof.
  intros s. unfold replaceAbortController.
  destruct (Abort.newController _). reflexivity.
Qed.

Lemma keeps_timer_onCancellationRequested token :
  keeps_timer (onCancellationRequested token).
Proof. intros s. reflexivity. Qed.

Variable CACHE_PREFIX : jsstring.
Variable computeHash getLanguagePrompt cleanResponse : jsstring → jsstring.
Variable nullPropertyMessage notAFunctionMessage : jsstring.
Variable settings : Settings.

Lemma keeps_timer_on_failure err : keeps_timer (on_failure err).
Proof. intros s. rewrite on_failure_spec. reflexivity. Qed.

Lemma keeps_timer_attempt position cacheKey prompt controller fo stored_w :
  keeps_timer (attempt CACHE_PREFIX cleanResponse nullPropertyMessage
                 notAFunctionMessage settings position cacheKey prompt
                 controller fo stored_w).
Proof.
  unfold attempt.
  apply keeps_timer_pbind; [apply keeps_timer_call_api|]. intros completion.
  apply keeps_timer_pbind.
  { unfold suggestion_of.
    destruct completion; apply keeps_timer_pthrow || apply keeps_timer_pret. }
  intros suggestion. apply keeps_timer_pbind.
  { unfold clean.
    destruct suggestion; apply keeps_timer_pthrow || apply keeps_timer_pret. }
  intros cleaned. destruct (trim cleaned); [apply keeps_timer_pret|].
  apply keeps_timer_pbind; [apply keeps_timer_call_cache|]. intros _.
  apply keeps_timer_pbind; [apply keeps_timer_logger|]. intros _.
  apply keeps_timer_pret.
Qed.

(** [fetchCompletion] never assigns [debounceTimer]. *)
Lemma keeps_timer_fetchCompletion document position token fo stored_d stored_w :
  keeps_timer (fetchCompletion CACHE_PREFIX computeHash getLanguagePrompt
                 cleanResponse nullPropertyMessage notAFunctionMessage settings
                 document position token fo stored_d stored_w).
Proof.
  unfold fetchCompletion.
  apply keeps_timer_pbind; [apply keeps_timer_call_cache|]. intros [it|].
  - apply keeps_timer_pbind; [apply keeps_timer_logger|]. intros _.
    apply keeps_timer_pret.
  - apply keeps_timer_pbind; [apply keeps_timer_replaceAbortController|].
    intros controller.
    apply keeps_timer_pbind; [apply keeps_timer_onCancellationRequested|].
    intros _. apply keeps_timer_ptry; [apply keeps_timer_attempt|].
    apply keeps_timer_on_failure.
Qed.

End TimerField.

Section EventLoop.

Import Provider.

Variable CACHE_PREFIX : jsstring.
Variable computeHash getLanguagePrompt cleanResponse : jsstring → jsstring.
Variable nullPropertyMessage notAFunctionMessage : jsstring.
Variable settings : Settings.

Local Abbreviation step :=
  (step CACHE_PREFIX computeHash getLanguagePrompt cleanResponse
     nullPropertyMessage notAFunctionMessage settings).
Local Abbreviation run :=
  (run CACHE_PREFIX computeHash getLanguagePrompt cleanResponse
     nullPropertyMessage notAFunctionMessage settings).
Local Abbreviation fetch_settles :=
  (fetch_settles CACHE_PREFIX computeHash getLanguagePrompt cleanResponse
     nullPropertyMessage notAFunctionMessage settings).

Lemma length_settle p v ps : length (settle p v ps) = length ps.
Proof.
  unfold settle. destruct (ps !! p) as [[| |]|]; try reflexivity.
  apply length_insert.
Qed.

Lemma lookup_settle_ne p q v ps : p ≠ q → settle p v ps !! q = ps !! q.
Proof.
  intros Hne. unfold settle. destruct (ps !! p) as [[| |]|]; try reflexivity.
  apply list_lookup_insert_ne. exact Hne.
Qed.

Lemma lookup_snoc_old {A} (l : list A) (x y : A) i :
  l !! i = Some y → (l ++ [x]) !! i = Some y.
Proof. intros H. rewrite lookup_app_l by (eapply lookup_lt_Some; eauto). exact H. Qed.

(** Once the armed timer is removed no timer is left. *)
Lemma no_timer_left l t task t' task' :
  invariant l → timers l !! t = Some task →
  delete t (timers l) !! t' = Some task' → False.
Proof.
  intros Hinv Ht Ht'. apply lookup_delete_Some in Ht' as [Hne Ht'].
  pose proof (inv_single l Hinv t task Ht) as H1.
  pose proof (inv_single l Hinv t' task' Ht') as H2.
  congruence.
Qed.

Lemma cleared_empty l t task :
  invariant l →
  match debounceTimer (state l) with
  | Some t0 => delete t0 (timers l)
  | None => timers l
  end !! t = Some task → False.
Proof.
  intros Hinv H.
  destruct (debounceTimer (state l)) as [t0|] eqn:Hd.
  - apply lookup_delete_Some in H as [Hne Ht].
    pose proof (inv_single l Hinv t task Ht). congruence.
  - pose proof (inv_single l Hinv t task H). congruence.
Qed.

Lemma fetch_settles_fields job fo stored_d stored_w l :
  let l' := fetch_settles job fo stored_d stored_w l in
  debounceTimer (state l') = debounceTimer (state l)
  ∧ nextTimer l' = nextTimer l
  ∧ timers l' = timers l
  ∧ running l' = running l
  ∧ length (promises l') = length (promises l)
  ∧ (∀ q, q ≠ t_promise (j_task job) → promises l' !! q = promises l !! q).
Proof.
  cbv zeta. unfold Provider.fetch_settles.
  pose proof (keeps_timer_fetchCompletion CACHE_PREFIX computeHash
                getLanguagePrompt cleanResponse nullPropertyMessage
                notAFunctionMessage settings (t_document (j_task job))
                (t_position (j_task job)) (t_token (j_task job))
                fo stored_d stored_w (state l)) as Hdt.
  destruct (fetchCompletion _ _ _ _ _ _ _ _ _ _ _ _ _ _) as [r s].
  cbn in *. split; [exact Hdt|]. do 3 (split; [reflexivity|]).
  destruct r as [items|e]; [|destruct (j_debounced job)];
    (split; [try apply length_settle; reflexivity|]);
    intros q Hq; try reflexivity; apply lookup_settle_ne; congruence.
Qed.

(** Every step of the event loop keeps the invariant. *)
Lemma invariant_step a l : invariant l → invariant (step a l).
Proof.
  intros Hinv. destruct a as [document position kind token | t c
                             | i fo stored_d stored_w | ms].
  - (* a call of [provideInlineCompletionItems] *)
    cbn. unfold provideInlineCompletionItems.
    destruct (negb (isLanguageSupported settings (languageId document))).
    { destruct Hinv as [H1 H2 H3 H4 H5]. constructor; cbn.
      - exact H1.
      - exact H2.
      - intros t task Ht. apply lookup_snoc_old, (H3 t task Ht).
      - exact H4.
      - intros job Hj. rewrite length_app. specialize (H5 job Hj). cbn. lia. }
    destruct kind.
    + destruct Hinv as [H1 H2 H3 H4 H5]. constructor; cbn.
      * exact H1.
      * exact H2.
      * intros t task Ht. apply lookup_snoc_old, (H3 t task Ht).
      * intros t task job Ht Hj. apply elem_of_app in Hj as [Hj|Hj].
        -- apply (H4 t task job Ht Hj).
        -- apply list_elem_of_singleton in Hj. subst job. cbn.
           pose proof (lookup_lt_Some _ _ _ (H3 t task Ht)). lia.
      * intros job Hj. rewrite length_app. cbn.
        apply elem_of_app in Hj as [Hj|Hj].
        -- specialize (H5 job Hj). lia.
        -- apply list_elem_of_singleton in Hj. subst job. cbn. lia.
    + constructor; cbn.
      * intros t task Ht. apply lookup_insert_Some in Ht as [[<- _]|[_ Ht]].
        -- reflexivity.
        -- destruct (cleared_empty l t task Hinv Ht).
      * intros t task Ht. apply lookup_insert_Some in Ht as [[<- _]|[_ Ht]].
        -- lia.
        -- destruct (cleared_empty l t task Hinv Ht).
      * intros t task Ht. apply lookup_insert_Some in Ht as [[_ <-]|[_ Ht]].
        -- cbn. apply list_lookup_middle. reflexivity.
        -- destruct (cleared_empty l t task Hinv Ht).
      * intros t task job Ht Hj.
        apply lookup_insert_Some in Ht as [[_ <-]|[_ Ht]].
        -- cbn. pose proof (inv_known l Hinv job Hj). lia.
        -- destruct (cleared_empty l t task Hinv Ht).
      * intros job Hj. rewrite length_app. cbn.
        pose proof (inv_known l Hinv job Hj). lia.
  - (* the timer fires *)
    cbn. destruct (timers l !! t) as [task|] eqn:Ht; [|exact Hinv].
    unfold timer_callback. destruct c; constructor; cbn.
    + intros t' task' H. destruct (no_timer_left l t task t' task' Hinv Ht H).
    + intros t' task' H. destruct (no_timer_left l t task t' task' Hinv Ht H).
    + intros t' task' H. destruct (no_timer_left l t task t' task' Hinv Ht H).
    + intros t' task' job H. destruct (no_timer_left l t task t' task' Hinv Ht H).
    + intros job Hj. rewrite length_settle. apply (inv_known l Hinv job Hj).
    + intros t' task' H. destruct (no_timer_left l t task t' task' Hinv Ht H).
    + intros t' task' H. destruct (no_timer_left l t task t' task' Hinv Ht H).
    + intros t' task' H. destruct (no_timer_left l t task t' task' Hinv Ht H).
    + intros t' task' job H. destruct (no_timer_left l t task t' task' Hinv Ht H).
    + intros job Hj. apply elem_of_app in Hj as [Hj|Hj].
      * apply (inv_known l Hinv job Hj).
      * apply list_elem_of_singleton in Hj. subst job. cbn.
        apply (lookup_lt_Some _ _ Pending), (inv_pending l Hinv t task Ht).
  - (* a fetch settles *)
    cbn. destruct (running l !! i) as [job|] eqn:Hi; [|exact Hinv].
    pose proof (list_elem_of_lookup_2 _ _ _ Hi) as Hjob.
    match goal with
    | |- invariant (Provider.fetch_settles _ _ _ _ _ _ _ job fo stored_d stored_w ?l0) =>
        destruct (fetch_settles_fields job fo stored_d stored_w l0)
          as (Hd & Hn & Ht & Hr & Hlen & Hp)
    end.
    cbn in Hd, Hn, Ht, Hr, Hlen, Hp.
    constructor.
    + intros t task H. rewrite Ht in H. rewrite Hd.
      apply (inv_single l Hinv t task H).
    + intros t task H. rewrite Ht in H. rewrite Hn.
      apply (inv_fresh l Hinv t task H).
    + intros t task H. rewrite Ht in H. rewrite Hp.
      * apply (inv_pending l Hinv t task H).
      * intros Heq. apply (inv_apart l Hinv t task job H Hjob). congruence.
    + intros t task job' H Hj. rewrite Ht in H. rewrite Hr in Hj.
      apply list_elem_of_delete_inv in Hj. apply (inv_apart l Hinv t task job' H Hj).
    + intros job' Hj. rewrite Hr in Hj. rewrite Hlen.
      apply list_elem_of_delete_inv in Hj. apply (inv_known l Hinv job' Hj).
  - (* time passes *)
    destruct Hinv as [H1 H2 H3 H4 H5]. constructor; cbn; assumption.
Qed.

Lemma invariant_newLoop s : invariant (newLoop s).
Proof.
  constructor; cbn.
  - intros t task H. rewrite lookup_empty in H. discriminate H.
  - intros t task H. rewrite lookup_empty in H. discriminate H.
  - intros t task H. rewrite lookup_empty in H. discriminate H.
  - intros t task job H. rewrite lookup_empty in H. discriminate H.
  - intros job H. apply not_elem_of_nil in H. destruct H.
Qed.

Lemma invariant_run actions l : invariant l → invariant (run actions l).
Proof.
  revert l. induction actions as [|a actions IH]; intros l Hinv; [exact Hinv|].
  cbn. apply IH, invariant_step, Hinv.
Qed.

(** What nothing can settle stays pending through every step. *)
Lemma abandoned_step p a l : abandoned p l → abandoned p (step a l).
Proof.
  intros (Hp & Ht & Hr).
  pose proof (lookup_lt_Some _ _ _ Hp) as Hlt.
  destruct a as [document position kind token | t c
                | i fo stored_d stored_w | ms].
  - cbn. unfold provideInlineCompletionItems.
    destruct (negb (isLanguageSupported settings (languageId document))).
    { split; [apply lookup_snoc_old, Hp|]. split; [exact Ht|exact Hr]. }
    destruct kind.
    + split; [apply lookup_snoc_old, Hp|]. split; [exact Ht|].
      cbn. intros job Hj. apply elem_of_app in Hj as [Hj|Hj].
      * apply (Hr job Hj).
      * apply list_elem_of_singleton in Hj. subst job. cbn. lia.
    + split; [apply lookup_snoc_old, Hp|]. split; [|exact Hr].
      cbn. intros t task H.
      apply lookup_insert_Some in H as [[_ <-]|[_ H]]; [cbn; lia|].
      destruct (debounceTimer (state l)).
      * apply lookup_delete_Some in H as [_ H]. apply (Ht t task H).
      * apply (Ht t task H).
  - cbn. destruct (timers l !! t) as [task|] eqn:Hlook;
      [|split; [exact Hp|split; [exact Ht|exact Hr]]].
    pose proof (Ht t task Hlook) as Hne.
    unfold timer_callback, abandoned. destruct c; cbn -[settle].
    + split; [rewrite lookup_settle_ne by exact Hne; exact Hp|].
      split; [|exact Hr].
      intros t' task' H. apply lookup_delete_Some in H as [_ H].
      apply (Ht t' task' H).
    + split; [exact Hp|]. split.
      * intros t' task' H. apply lookup_delete_Some in H as [_ H].
        apply (Ht t' task' H).
      * intros job Hj. apply elem_of_app in Hj as [Hj|Hj].
        -- apply (Hr job Hj).
        -- apply list_elem_of_singleton in Hj. subst job. exact Hne.
  - cbn. destruct (running l !! i) as [job|] eqn:Hi;
      [|split; [exact Hp|split; [exact Ht|exact Hr]]].
    pose proof (Hr job (list_elem_of_lookup_2 _ _ _ Hi)) as Hne.
    match goal with
    | |- abandoned p (Provider.fetch_settles _ _ _ _ _ _ _ job fo stored_d stored_w ?l0) =>
        destruct (fetch_settles_fields job fo stored_d stored_w l0)
          as (_ & _ & Ht' & Hr' & _ & Hp')
    end.
    cbn in Ht', Hr', Hp'. split; [|split].
    + rewrite Hp' by congruence. exact Hp.
    + rewrite Ht'. exact Ht.
    + rewrite Hr'. intros job' Hj. apply list_elem_of_delete_inv in Hj.
      apply (Hr job' Hj).
  - split; [exact Hp|split; [exact Ht|exact Hr]].
Qed.

Lemma abandoned_run p actions l : abandoned p l → abandoned p (run actions l).
Proof.
  revert l. induction actions as [|a actions IH]; intros l H; [exact H|].
  cbn. apply IH, abandoned_step, H.
Qed.

(** A new automatic trigger disarms the armed timer and abandons the
    promise it was to resolve. *)
Lemma superseding_trigger_abandons l t0 task0 document position token :
  invariant l → timers l !! t0 = Some task0 →
  isLanguageSupported settings (languageId document) = true →
  let l1 := step (Provide document position Automatic token) l in
  timers l1 !! t0 = None ∧ abandoned (t_promise task0) l1.
Proof.
  intros Hinv Ht Hsup. cbn. unfold provideInlineCompletionItems.
  rewrite Hsup. cbn.
  pose proof (inv_single l Hinv t0 task0 Ht) as Hd.
  pose proof (inv_fresh l Hinv t0 task0 Ht) as Hf.
  pose proof (inv_pending l Hinv t0 task0 Ht) as Hp.
  rewrite Hd. split.
  - rewrite lookup_insert_ne by lia. apply lookup_delete_eq.
  - split; [apply lookup_snoc_old, Hp|]. split; cbn.
    + intros t task H. apply lookup_insert_Some in H as [[_ <-]|[_ H]].
      * cbn. pose proof (lookup_lt_Some _ _ _ Hp). lia.
      * destruct (no_timer_left l t0 task0 t task Hinv Ht H).
    + intros job Hj. apply (inv_apart l Hinv t0 task0 job Ht Hj).
Qed.

(** C10.  Take a provider in any state it can be in: a new one on which
    any calls were made and any timers and fetches ran.  When an automatic
    trigger for a supported language arrives while the debounce timer [t0]
    of an earlier trigger is armed, [t0] is cleared, and the promise that
    earlier call returned is pending and stays pending whatever happens
    afterwards (further triggers, timers firing, fetches settling): it is
    neither fulfilled nor rejected. *)
Theorem superseded_promise_never_settles
    (s : State) (before after : list action)
    (t0 : nat) (task0 : Task)
    (document : TextDocument) (position : Vscode.Position) (token : nat) :
  let l := run before (newLoop s) in
  timers l !! t0 = Some task0 →
  isLanguageSupported settings (languageId document) = true →
  let l1 := step (Provide document position Automatic token) l in
  timers l1 !! t0 = None
  ∧ promises l !! t_promise task0 = Some Pending
  ∧ promises (run after l1) !! t_promise task0 = Some Pending.
Proof.
  intros l Ht Hsup l1.
  assert (Hinv : invariant l) by apply invariant_run, invariant_newLoop.
  destruct (superseding_trigger_abandons l t0 task0 document position token
              Hinv Ht Hsup) as [Hgone Hab].
  split; [exact Hgone|]. split; [apply (inv_pending l Hinv t0 task0 Ht)|].
  apply (abandoned_run _ after) in Hab. apply Hab.
Qed.

End EventLoop.

Section EventLoopWitness.

Import Provider.

(** Two keystrokes in a row: the promise of the first stays pending while
    the timer of the second fires and its fetch settles. *)
Lemma superseded_promise_never_settles_witness :
  let step := step Sample.prefix (λ x, x) (λ x, x) (λ x, x) [] [] Sample.settings in
  let run := run Sample.prefix (λ x, x) (λ x, x) (λ x, x) [] [] Sample.settings in
  let l := run [Provide Sample.document Sample.position Automatic 1]
               (newLoop Sample.idle) in
  let l1 := step (Provide Sample.document Sample.position Automatic 2) l in
  let l2 := run [TimerFires 1 false; TimerFires 2 false;
                 FetchSettles 0 (Client.Responds 10 Sample.completed) true true] l1 in
  promises l2 !! 0%nat = Some Pending
  ∧ (∃ items, promises l2 !! 1%nat = Some (Fulfilled items)).
Proof.
  cbv zeta. split.
  - apply (superseded_promise_never_settles Sample.prefix (λ x, x) (λ x, x)
             (λ x, x) [] [] Sample.settings Sample.idle
             [Provide Sample.document Sample.position Automatic 1]
             [TimerFires 1 false; TimerFires 2 false;
              FetchSettles 0 (Client.Responds 10 Sample.completed) true true]
             1 (mkTask Sample.document Sample.position 1 0)
             Sample.document Sample.position 2).
    + vm_compute. reflexivity.
    + vm_compute. reflexivity.
  - eexists. vm_compute. reflexivity.
Defined.

End EventLoopWitness.

(** * Further properties *)

(** ** Line splitting and chunk boundaries *)

Section SplitFacts.

Local Open Scope N_scope.

(** The piece being accumulated is a prefix of the first line. *)
Lemma split_from_cur (cur s : jsstring) :
  ∃ hd tl, JS.split_from [] s = hd :: tl ∧ JS.split_from cur s = (cur ++ hd) :: tl.
Proof.
  revert cur. induction s as [|c rest IH]; intros cur.
  - exists [], []. cbn. rewrite app_nil_r. split; reflexivity.
  - cbn. destruct (c =? JS.LF).
    + exists [], (JS.split_from [] rest). rewrite app_nil_r. split; reflexivity.
    + destruct rest as [|d rest'].
      * exists [c], []. split; reflexivity.
      * destruct ((c =? JS.CR) && (d =? JS.LF)).
        -- exists [], (JS.split_from [] rest'). rewrite app_nil_r.
           split; reflexivity.
        -- destruct (IH [c]) as (hd & tl & H0 & H1).
           destruct (IH (cur ++ [c])) as (hd' & tl' & H0' & H1').
           rewrite H0 in H0'. injection H0' as <- <-.
           exists (c :: hd), tl. split; [exact H1|].
           rewrite H1', <- app_assoc. reflexivity.
Qed.

(** A text that splits into one piece is that piece. *)
Lemma split_from_single (s p : jsstring) : JS.split_from [] s = [p] → p = s.
Proof.
  revert p. induction s as [|c rest IH]; intros p; cbn.
  - intros [= <-]. reflexivity.
  - destruct (c =? JS.LF).
    + intros H. destruct (split_from_cur [] rest) as (hd & tl & H0 & _).
      rewrite H0 in H. discriminate H.
    + destruct rest as [|d rest'].
      * intros [= <-]. reflexivity.
      * destruct ((c =? JS.CR) && (d =? JS.LF)).
        -- intros H. destruct (split_from_cur [] rest') as (hd & tl & H0 & _).
           rewrite H0 in H. discriminate H.
        -- destruct (split_from_cur [c] (d :: rest')) as (hd & tl & H0 & H1).
           rewrite H1. intros [= <- ->]. rewrite (IH hd H0). reflexivity.
Qed.

(** Every split is some complete lines and a last piece. *)
Lemma split_newlines_snoc (s : jsstring) :
  ∃ lines lst, JS.split_newlines s = lines ++ [lst].
Proof.
  unfold JS.split_newlines.
  destruct (split_from_cur [] s) as (hd & tl & H0 & _). rewrite H0.
  destruct (exists_last (l := hd :: tl) ltac:(discriminate)) as (l' & a & ->).
  exists l', a. reflexivity.
Qed.

Lemma snoc_eq_cons_snoc {A} (a : A) (l l' : list A) (x y : A) :
  a :: l ++ [x] = l' ++ [y] → ∃ l0, l' = a :: l0 ∧ l = l0 ∧ x = y.
Proof.
  intros H. destruct l' as [|b l'].
  - destruct l; discriminate H.
  - injection H as <- H. apply app_inj_tail in H as [-> ->].
    exists l'. repeat split.
Qed.

(** Splitting after more text has arrived: the complete lines stay, and
    only the last piece is split again with what follows it. *)
Lemma split_newlines_app (x y : jsstring) (lines : list jsstring) (lst : jsstring) :
  JS.split_newlines x = lines ++ [lst] →
  JS.split_newlines (x ++ y) = lines ++ JS.split_newlines (lst ++ y).
Proof.
  unfold JS.split_newlines.
  remember (length x) as n eqn:Hn. revert x Hn lines lst.
  induction n as [n IH] using lt_wf_ind. intros x Hn lines lst.
  destruct x as [|c rest].
  - cbn. intros H. destruct lines as [|l0 lines].
    + injection H as <-. reflexivity.
    + destruct lines; discriminate H.
  - cbn [app]. cbn [JS.split_from]. destruct (c =? JS.LF) eqn:Ec.
    + destruct (split_newlines_snoc rest) as (lines' & lst' & H').
      unfold JS.split_newlines in H'. rewrite H'. intros H.
      apply snoc_eq_cons_snoc in H as (l0 & -> & <- & <-).
      cbn. f_equal. apply (IH (length rest)); [cbn in Hn; lia|reflexivity|exact H'].
    + destruct rest as [|d rest'].
      * cbn [app]. intros H. destruct lines as [|l0 lines].
        -- injection H as <-. cbn [app JS.split_from]. rewrite Ec. reflexivity.
        -- destruct lines; discriminate H.
      * cbn [app]. destruct ((c =? JS.CR) && (d =? JS.LF)) eqn:Es.
        -- destruct (split_newlines_snoc rest') as (lines' & lst' & H').
           unfold JS.split_newlines in H'. rewrite H'. intros H.
           apply snoc_eq_cons_snoc in H as (l0 & -> & <- & <-).
           cbn. f_equal.
           apply (IH (length rest')); [cbn in Hn; lia|reflexivity|exact H'].
        -- destruct (split_from_cur [c] (d :: rest')) as (hd & tl & H0 & H1).
           destruct (split_from_cur [c] (d :: rest' ++ y)) as (hd2 & tl2 & H2 & H3).
           change ([] ++ [c]) with [c]. rewrite H1, H3.
           destruct (split_newlines_snoc (d :: rest')) as (lines' & lst' & H').
           unfold JS.split_newlines in H'.
           pose proof (IH (length (d :: rest')) ltac:(cbn in *; lia) (d :: rest')
                         eq_refl lines' lst' H') as Hrec.
           cbn [app] in Hrec. rewrite H2 in Hrec. rewrite H0 in H'.
           destruct lines' as [|l1 lines'].
           ++ injection H' as <- ->. cbn. intros H.
              change [c :: hd] with ([] ++ [c :: hd]) in H.
              apply app_inj_tail in H as [<- <-].
              cbn [app]. cbn [JS.split_from]. rewrite Ec.
              pose proof (split_from_single _ _ H0) as ->.
              cbn [app]. rewrite Es. change ([] ++ [c]) with [c].
              rewrite H3. reflexivity.
           ++ injection H' as <- ->. cbn in Hrec. injection Hrec as <- ->.
              cbn. intros H.
              change ((c :: hd2) :: lines' ++ [lst'])
                with (((c :: hd2) :: lines') ++ [lst']) in H.
              apply app_inj_tail in H as [<- <-]. reflexivity.
Qed.

End SplitFacts.

Section ChunkFacts.

Import SSE.

Lemma pop_snoc {A} (l : list A) (x : A) : JS.pop (l ++ [x]) = (l, Some x).
Proof. unfold JS.pop. rewrite removelast_last, last_snoc. reflexivity. Qed.

(** The decoder keeps across calls all it needs: decoding two chunks one
    after the other gives what decoding them at once does. *)
Lemma decode_app st (a b : list byte) :
  TextDecoder.decode st (a ++ b)
  = let '(o1, s1) := TextDecoder.decode st a in
    let '(o2, s2) := TextDecoder.decode s1 b in
    (o1 ++ o2, s2).
Proof.
  revert st. induction a as [|x a IH]; intros st.
  - cbn. destruct (TextDecoder.decode st b). reflexivity.
  - cbn. destruct (TextDecoder.handle_byte st (Byte.to_N x)) as [cps st1].
    destruct (TextDecoder.emit st1 cps) as [out st2].
    rewrite IH.
    destruct (TextDecoder.decode st2 a) as [o1 s1].
    destruct (TextDecoder.decode s1 b) as [o2 s2].
    rewrite app_assoc. reflexivity.
Qed.

Lemma process_lines_app (l1 l2 : list jsstring) :
  process_lines (l1 ++ l2)
  = let '(e1, d1) := process_lines l1 in
    if d1 then (e1, true)
    else let '(e2, d2) := process_lines l2 in (e1 ++ e2, d2).
Proof.
  induction l1 as [|line l1 IH].
  - cbn. destruct (process_lines l2). reflexivity.
  - cbn [app process_lines].
    destruct (JS.startsWith line (JS.lit "data: ")); [|exact IH].
    destruct (JS.str_eqb (JS.slice line 6) (JS.lit "[DONE]")); [reflexivity|].
    rewrite IH. destruct (process_lines l1) as [e1 [|]]; [reflexivity|].
    destruct (process_lines l2) as [e2 d2]. rewrite app_assoc. reflexivity.
Qed.

(** Without a token the count of iterations plays no part. *)
Lemma loop_index cancel i j reads decoder buffer :
  loop None cancel i reads decoder buffer = loop None cancel j reads decoder buffer.
Proof.
  revert i j decoder buffer.
  induction reads as [|rd reads IH]; intros i j decoder buffer;
    cbn -[JS.pop JS.split_newlines process_lines TextDecoder.decode];
    [reflexivity|].
  destruct rd as [value|e]; [|reflexivity].
  destruct (TextDecoder.decode decoder value) as [text decoder'].
  destruct (JS.pop (JS.split_newlines (buffer ++ text))) as [lines last_line].
  destruct (process_lines lines) as [evs [|]]; [reflexivity|].
  rewrite (IH (S i) (S j)). reflexivity.
Qed.

(** Two chunks read one after the other do what their concatenation read
    at once does. *)
Lemma loop_merge cancel i a b reads decoder buffer :
  loop None cancel i (Chunk a :: Chunk b :: reads) decoder buffer
  = loop None cancel i (Chunk (a ++ b) :: reads) decoder buffer.
Proof.
  cbn -[JS.pop JS.split_newlines process_lines TextDecoder.decode].
  rewrite decode_app.
  destruct (TextDecoder.decode decoder a) as [t1 d1].
  destruct (TextDecoder.decode d1 b) as [t2 d2].
  destruct (split_newlines_snoc (buffer ++ t1)) as (lines1 & lst1 & H1).
  rewrite H1, pop_snoc. change (default [] (Some lst1)) with lst1.
  rewrite app_assoc, (split_newlines_app _ t2 _ _ H1).
  destruct (split_newlines_snoc (lst1 ++ t2)) as (lines2 & lst2 & H2).
  rewrite H2, (app_assoc lines1 lines2 [lst2]), !pop_snoc.
  change (default [] (Some lst2)) with lst2.
  rewrite process_lines_app.
  destruct (process_lines lines1) as [e1 [|]]; [reflexivity|].
  destruct (process_lines lines2) as [e2 [|]]; [reflexivity|].
  rewrite (loop_index cancel (S (S i)) (S i)).
  destruct (loop None cancel (S i) reads d2 lst2) as [[evs e] c].
  rewrite app_assoc. reflexivity.
Qed.

Lemma loop_chunks cancel i (c : list byte) (cs : list (list byte)) decoder buffer :
  loop None cancel i (map Chunk (c :: cs)) decoder buffer
  = loop None cancel i [Chunk (concat (c :: cs))] decoder buffer.
Proof.
  revert c. induction cs as [|c2 cs IH]; intros c.
  - cbn [concat map]. rewrite app_nil_r. reflexivity.
  - cbn [map]. rewrite loop_merge. specialize (IH (c ++ c2)).
    cbn [map] in IH. rewrite IH. cbn [concat]. rewrite app_assoc. reflexivity.
Qed.

(** X1.  The result of the parser does not depend on where the chunk
    boundaries fall: for every body, delivered in any number of chunks cut
    anywhere (inside a record, inside a line terminator, inside a
    multi-byte character), the events, the way the generator ends and the
    handling of the reader are those of the same bytes delivered at once,
    as long as the token, if any, is not cancelled. *)
Theorem parseSSE_chunking_irrelevant (cs : list (list byte)) (tk : option token)
    (cancel : option thrown) :
  (∀ i, isCancellationRequested tk i = false) →
  parseSSE (Some (mkBody (map Chunk cs) cancel)) tk
  = parseSSE (Some (mkBody [Chunk (concat cs)] cancel)) tk.
Proof.
  intros Htk. rewrite !(parseSSE_not_cancelled tk) by exact Htk.
  unfold parseSSE. cbn [body_reads body_cancel].
  destruct cs as [|c cs]; [reflexivity|].
  rewrite loop_chunks. reflexivity.
Qed.

(** A character of two bytes cut in the middle by a chunk boundary. *)
Lemma parseSSE_chunking_irrelevant_witness :
  parseSSE (Some (mkBody (map Chunk Cases.chunks) None)) None
  = parseSSE (Some (mkBody [Chunk (concat Cases.chunks)] None)) None.
Proof.
  apply (parseSSE_chunking_irrelevant Cases.chunks None None).
  intros i. reflexivity.
Defined.

End ChunkFacts.

Section StreamEndFacts.

Import SSE.

Lemma loop_final tk cancel i reads1 reads2 decoder buffer :
  snd (fst (loop tk cancel i reads1 decoder buffer)) ≠ EndOfBody →
  loop tk cancel i (reads1 ++ reads2) decoder buffer
  = loop tk cancel i reads1 decoder buffer.
Proof.
  revert i decoder buffer.
  induction reads1 as [|rd reads1 IH]; intros i decoder buffer;
    cbn -[JS.pop JS.split_newlines process_lines TextDecoder.decode].
  - destruct (isCancellationRequested tk i) eqn:Hc.
    + intros _. destruct reads2; cbn; rewrite Hc; reflexivity.
    + intros H. destruct (H eq_refl).
  - destruct (isCancellationRequested tk i); [reflexivity|].
    destruct rd as [value|e]; [|reflexivity].
    destruct (TextDecoder.decode decoder value) as [text decoder'].
    destruct (JS.pop (JS.split_newlines (buffer ++ text))) as [lines last_line].
    destruct (process_lines lines) as [evs [|]]; [reflexivity|].
    specialize (IH (S i) decoder' (default [] last_line)).
    destruct (loop tk cancel (S i) reads1 decoder' (default [] last_line))
      as [[evs' e] c].
    cbn in *. intros H. rewrite (IH H). reflexivity.
Qed.

(** X2.  Once the generator has ended otherwise than by the end of the
    body (at the sentinel, on a failed read, or on cancellation), nothing
    more is read: whatever the body holds after that point, further
    records or a read that fails, the run is the same. *)
Theorem parseSSE_reads_nothing_after_end
    (reads1 reads2 : list read) (tk : option token) (cancel : option thrown) :
  how (parseSSE (Some (mkBody reads1 cancel)) tk) ≠ EndOfBody →
  parseSSE (Some (mkBody (reads1 ++ reads2) cancel)) tk
  = parseSSE (Some (mkBody reads1 cancel)) tk.
Proof.
  unfold parseSSE. cbn [body_reads body_cancel]. intros H.
  rewrite loop_final; [reflexivity|].
  destruct (loop tk cancel 0 reads1 TextDecoder.init []) as [[evs e] c]. exact H.
Qed.

Lemma parseSSE_reads_nothing_after_end_witness :
  parseSSE (Some (mkBody (Cases.done_reads ++ Cases.late_reads) None)) None
  = parseSSE (Some (mkBody Cases.done_reads None)) None.
Proof.
  apply (parseSSE_reads_nothing_after_end Cases.done_reads Cases.late_reads
           None None).
  vm_compute. discriminate.
Defined.

Lemma loop_cancelled_at (tk : token) cancel n i reads decoder buffer :
  (∀ j, (j < n)%nat → tk (i + j)%nat = false) → tk (i + n)%nat = true →
  let cancelled := loop (Some tk) cancel i reads decoder buffer in
  let prefix := loop None cancel i (take n reads) decoder buffer in
  fst (fst cancelled) = fst (fst prefix)
  ∧ (snd (fst prefix) = EndOfBody → (n ≤ length reads)%nat →
     snd (fst cancelled)
     = match cancel with None => Cancelled | Some e => Failed e end
     ∧ snd cancelled = true)
  ∧ (snd (fst prefix) ≠ EndOfBody → cancelled = prefix).
Proof.
  revert i reads decoder buffer.
  induction n as [|n IH]; intros i reads decoder buffer Hlow Hat.
  - rewrite Nat.add_0_r in Hat. cbv zeta. rewrite take_0.
    destruct reads; cbn; rewrite Hat; destruct cancel; cbn;
      (split; [reflexivity|split; [intros _ _; split; reflexivity|]]);
      intros H; destruct (H eq_refl).
  - assert (H0 : tk i = false) by (rewrite <- (Nat.add_0_r i); apply Hlow; lia).
    cbv zeta. destruct reads as [|rd reads].
    + cbn. rewrite H0. cbn.
      split; [reflexivity|]. split; [intros _ Hlen; cbn in Hlen; lia|].
      intros H; destruct (H eq_refl).
    + cbn -[JS.pop JS.split_newlines process_lines TextDecoder.decode].
      rewrite H0. destruct rd as [value|e].
      2:{ cbn. split; [reflexivity|]. split; [discriminate|reflexivity]. }
      destruct (TextDecoder.decode decoder value) as [text decoder'].
      destruct (JS.pop (JS.split_newlines (buffer ++ text))) as [lines last_line].
      destruct (process_lines lines) as [evs [|]].
      { cbn. split; [reflexivity|]. split; [discriminate|reflexivity]. }
      specialize (IH (S i) reads decoder' (default [] last_line)).
      cbv zeta in IH.
      destruct IH as (IH1 & IH2 & IH3).
      { intros j Hj. replace (S i + j)%nat with (i + S j)%nat by lia.
        apply Hlow. lia. }
      { replace (S i + n)%nat with (i + S n)%nat by lia. exact Hat. }
      destruct (loop (Some tk) cancel (S i) reads decoder' (default [] last_line))
        as [[evs1 e1] c1].
      destruct (loop None cancel (S i) (take n reads) decoder' (default [] last_line))
        as [[evs2 e2] c2].
      cbn in *. subst evs2.
      split; [reflexivity|]. split.
      * intros He Hlen. apply IH2; [exact He|lia].
      * intros He. specialize (IH3 He). injection IH3 as -> ->. reflexivity.
Qed.

(** X3.  When the token is found cancelled at the [n]-th check of the loop
    (and not before), the events are exactly those of the first [n]
    reads: nothing of a later chunk is yielded, for no later chunk is
    read.  If those reads did not end the stream themselves, the reader
    is cancelled, and what that does decides how the generator ends: it
    ends as cancelled when [reader.cancel()] is fulfilled; when it is
    rejected, as on the errored body of an aborted request, the generator
    throws the error it is rejected with.  The reader is released once in
    either case. *)
Theorem parseSSE_cancellation (tk : token) (n : nat) (reads : list read)
    (cancel : option thrown) :
  (∀ j, (j < n)%nat → tk j = false) → tk n = true →
  let cancelled := parseSSE (Some (mkBody reads cancel)) (Some tk) in
  let prefix := parseSSE (Some (mkBody (take n reads) cancel)) None in
  events cancelled = events prefix
  ∧ released cancelled = 1%nat
  ∧ (how prefix = EndOfBody → (n ≤ length reads)%nat →
     reader_cancelled cancelled = true
     ∧ how cancelled
       = match cancel with
         | None => Cancelled
         | Some e => Failed e
         end).
Proof.
  intros Hlow Hat. cbv zeta. unfold parseSSE. cbn [body_reads body_cancel].
  destruct (loop_cancelled_at tk cancel n 0 reads TextDecoder.init [] Hlow Hat)
    as (H1 & H2 & _).
  destruct (loop (Some tk) cancel 0 reads TextDecoder.init []) as [[evs1 e1] c1].
  destruct (loop None cancel 0 (take n reads) TextDecoder.init [])
    as [[evs2 e2] c2].
  cbn in *. split; [exact H1|]. split; [reflexivity|].
  intros He Hlen. destruct (H2 He Hlen) as [Hhow Hc]. split; assumption.
Qed.

(** Cancelled after the first chunk: the record of the second is not
    yielded.  On a healthy stream the generator ends as cancelled; on
    the body of an aborted request it throws the [AbortError]. *)
Lemma parseSSE_cancellation_witness :
  (events (parseSSE (Some (mkBody Cases.two_records None))
             (Some Cases.cancelled_after_one))
   = [Yield (Json.JStr (JS.lit "ab"))]
   ∧ how (parseSSE (Some (mkBody Cases.two_records None))
            (Some Cases.cancelled_after_one))
     = Cancelled)
  ∧ how (parseSSE (Some (mkBody Cases.errored_reads (Some Cases.aborted)))
           (Some Cases.cancelled_after_one))
    = Failed Cases.aborted.
Proof.
  split.
  - destruct (parseSSE_cancellation Cases.cancelled_after_one 1 Cases.two_records
                None) as (Hev & _ & Hhow).
    + intros j Hj. destruct j; [reflexivity|lia].
    + reflexivity.
    + split.
      * rewrite Hev. vm_compute. reflexivity.
      * apply Hhow; [vm_compute; reflexivity|cbn; lia].
  - destruct (parseSSE_cancellation Cases.cancelled_after_one 1
                Cases.errored_reads (Some Cases.aborted)) as (_ & _ & Hhow).
    + intros j Hj. destruct j; [reflexivity|lia].
    + reflexivity.
    + apply Hhow; [vm_compute; reflexivity|cbn; lia].
Defined.

Lemma str_eqb_neq (a b : jsstring) : a ≠ b → JS.str_eqb a b = false.
Proof.
  intros H. destruct (JS.str_eqb a b) eqn:E; [|reflexivity].
  destruct (H (str_eqb_eq a b E)).
Qed.

Lemma startsWith_app (p s : jsstring) : JS.startsWith (p ++ s) p = true.
Proof.
  induction p as [|a p IH]; [destruct s; reflexivity|].
  cbn. rewrite N.eqb_refl. exact IH.
Qed.

Lemma process_lines_data (data : jsstring) (rest : list jsstring) :
  process_lines ((JS.lit "data: " ++ data) :: rest)
  = if JS.str_eqb data (JS.lit "[DONE]") then ([], true)
    else let '(evs, done) := process_lines rest in
         (handle_data data ++ evs, done).
Proof.
  cbn [process_lines]. rewrite startsWith_app.
  change (JS.slice (JS.lit "data: " ++ data) 6) with data. reflexivity.
Qed.

(** X4.  One bad line never fails the stream.  A line that does not start
    with [data: ] (a comment, another field, a blank line) is skipped
    without a trace; a record whose data is not JSON, or is the JSON
    [null], gives a warning and nothing else; in both cases the lines
    before and after it are handled as if it were not there. *)
Theorem process_lines_skips_bad_lines (l1 l2 : list jsstring) :
  (∀ line, JS.startsWith line (JS.lit "data: ") = false →
           process_lines (l1 ++ line :: l2) = process_lines (l1 ++ l2))
  ∧ (∀ data e1 e2 d2,
       Json.parse data = None ∨ Json.parse data = Some Json.JNull →
       data ≠ JS.lit "[DONE]" →
       process_lines l1 = (e1, false) →
       process_lines l2 = (e2, d2) →
       process_lines (l1 ++ (JS.lit "data: " ++ data) :: l2)
       = (e1 ++ Warn data :: e2, d2)).
Proof.
  split.
  - intros line Hline. rewrite !process_lines_app.
    destruct (process_lines l1) as [e1 [|]]; [reflexivity|].
    cbn [process_lines]. rewrite Hline. reflexivity.
  - intros data e1 e2 d2 Hbad Hdone H1 H2.
    rewrite process_lines_app, H1.
    rewrite process_lines_data, (str_eqb_neq _ _ Hdone), H2.
    unfold handle_data. destruct Hbad as [-> | ->]; reflexivity.
Qed.

(** A comment line and a record that is not JSON, before the sentinel. *)
Lemma process_lines_skips_bad_lines_witness :
  process_lines ([] ++ JS.lit ": keep-alive" :: [JS.lit "data: [DONE]"])
  = process_lines ([] ++ [JS.lit "data: [DONE]"])
  ∧ process_lines ([] ++ (JS.lit "data: " ++ JS.lit "{oops") :: [JS.lit "data: [DONE]"])
    = ([] ++ Warn (JS.lit "{oops") :: [], true).
Proof.
  destruct (process_lines_skips_bad_lines [] [JS.lit "data: [DONE]"]) as [H1 H2].
  split.
  - apply H1. reflexivity.
  - apply H2.
    + left. vm_compute. reflexivity.
    + discriminate.
    + reflexivity.
    + reflexivity.
Defined.

End StreamEndFacts.

(** ** More on the client *)

Section ClientEdges.

Import Client.
Local Open Scope Z_scope.

Lemma qualifying_not_ok r : qualifying (status r) = true → ok r = false.
Proof.
  unfold qualifying, ok. intros H.
  apply orb_true_iff in H as [H|H].
  - apply Z.leb_le in H.
    destruct (Z.leb_spec (status r) 299); [lia|]. apply andb_false_r.
  - apply Z.eqb_eq in H. rewrite H. reflexivity.
Qed.

(** X5.  The cool-down does not put the counter back: it stays where it
    was until a response succeeds.  So once the counter is within one of
    the threshold (as it is after the breaker has opened), the first
    qualifying failure of a call made after the cool-down opens the
    breaker again at once, for a full minute from the time of that
    response, and shows the warning again. *)
Theorem breaker_reopens_on_first_failure
    (env : Env) (req : CompletionRequest) (elapsed : N) (r : Response)
    (w : World) (c : N) (key : jsstring) :
  reachable w →
  maxFailures (circuitBreaker w) <= failures (circuitBreaker w) + 1 →
  cooldownUntil (circuitBreaker w) <= now w →
  secret env = Some (c :: key) →
  qualifying (status r) = true →
  let w' := snd (createCompletion env req (Responds elapsed r) w) in
  (∀ ms, failures (circuitBreaker (time_passes ms w)) = failures (circuitBreaker w))
  ∧ failures (circuitBreaker w') = failures (circuitBreaker w) + 1
  ∧ cooldownUntil (circuitBreaker w') = now w + Z.of_N elapsed + 60000
  ∧ warningMessages w'
    = warningMessages w
      ++ [JS.lit "MyAICopilot: Too many errors, cooling down for 60s"]
  ∧ (∀ clock req' fo',
       clock < now w + Z.of_N elapsed + 60000 →
       createCompletion env req' fo' (at_time clock w')
       = (Throw coolingDown, at_time clock w')).
Proof.
  intros Hw Hthr Hc Hk Hq w'.
  destruct (reachable_invariant w Hw) as (_ & Hms & _).
  pose proof (qualifying_not_ok r Hq) as Hnok.
  split; [reflexivity|].
  destruct (createCompletion_closed env req (Responds elapsed r) w c key Hc Hk)
    as (sig & h & _ & _ & Hrun).
  rewrite Hnok in Hrun. subst w'. rewrite Hrun. cbn [snd].
  rewrite handleFailure_spec, Hq. cbn.
  destruct (Z.leb_spec (maxFailures (circuitBreaker w))
              (failures (circuitBreaker w) + 1)) as [_|Hlt]; [|lia].
  cbn. rewrite Hms.
  repeat (split; [reflexivity|]).
  intros clock req' fo' Hclock.
  apply createCompletion_open. cbn. lia.
Qed.

(** The breaker of [Sample.cooled], opened at 1050 and closed again at
    61050, opens at the first 503 that follows. *)
Lemma breaker_reopens_on_first_failure_witness :
  cooldownUntil
    (circuitBreaker
       (snd (createCompletion Sample.env Sample.request
               (Responds 10 Sample.unavailable) Sample.cooled)))
  = now Sample.cooled + 10 + 60000.
Proof.
  destruct (breaker_reopens_on_first_failure Sample.env Sample.request 10
              Sample.unavailable Sample.cooled 115%N (JS.lit "k-test"))
    as (_ & _ & H & _).
  - apply cooled_reachable.
  - vm_compute. discriminate.
  - vm_compute. discriminate.
  - reflexivity.
  - reflexivity.
  - exact H.
Defined.

(** X6.  Without a usable credential no operation sends anything.  When
    the secret storage holds no key, or an empty one, [testConnection]
    fails with the configuration error, and so do [createCompletion] and
    [createChatCompletion] unless the breaker is open, in which case they
    fail with the cooling-down error without asking for the key; in every
    case the world, and with it the list of requests sent, is unchanged. *)
Theorem missing_credential_sends_nothing (env : Env) (fo : FetchOutcome) (w : World) :
  secret env = None ∨ secret env = Some [] →
  testConnection env fo w = (Throw apiKeyMissing, w)
  ∧ (∀ req,
       createCompletion env req fo w
       = (Throw (if now w <? cooldownUntil (circuitBreaker w)
                 then coolingDown else apiKeyMissing), w))
  ∧ (∀ req token,
       createChatCompletion env req token fo w
       = (Throw (if now w <? cooldownUntil (circuitBreaker w)
                 then coolingDown else apiKeyMissing), w)).
Proof.
  intros Hk. split; [apply testConnection_no_key, Hk|].
  split.
  - intros req. destruct (Z.ltb_spec (now w) (cooldownUntil (circuitBreaker w))).
    + apply createCompletion_open. assumption.
    + apply createCompletion_no_key; assumption.
  - intros req token.
    destruct (Z.ltb_spec (now w) (cooldownUntil (circuitBreaker w))).
    + apply createChatCompletion_open. assumption.
    + apply createChatCompletion_no_key; assumption.
Qed.

Lemma missing_credential_sends_nothing_witness :
  testConnection Cases.no_key (Responds 10 Sample.completed) Sample.fresh
  = (Throw apiKeyMissing, Sample.fresh).
Proof.
  apply (missing_credential_sends_nothing Cases.no_key
           (Responds 10 Sample.completed) Sample.fresh).
  left. reflexivity.
Defined.

(** X7.  [testConnection] succeeds exactly when a key is stored, the
    probe is answered with a status from 200 to 299, and the body of the
    answer parses as JSON; in every other case it fails. *)
Theorem testConnection_succeeds_iff (env : Env) (fo : FetchOutcome) (w : World) :
  fst (testConnection env fo w) = Ok tt
  ↔ (∃ c key, secret env = Some (c :: key))
    ∧ (∃ elapsed r v,
         fo = Responds elapsed r ∧ 200 <= status r <= 299 ∧ json r = JsonValue v).
Proof.
  split.
  - intros H. destruct (secret env) as [[|c key]|] eqn:Hk.
    + rewrite testConnection_no_key in H by (right; exact Hk). discriminate H.
    + split; [exists c, key; reflexivity|].
      pose proof (testConnection_run env fo w c key Hk) as Hrun.
      cbv zeta in Hrun. rewrite Hrun in H.
      destruct fo as [el r|el name message]; [|discriminate H].
      cbn in H. unfold ok in H.
      destruct (Z.leb_spec 200 (status r)); [|discriminate H].
      destruct (Z.leb_spec (status r) 299); [|discriminate H].
      cbn in H. destruct (json r) as [v|] eqn:Hj; [|discriminate H].
      exists el, r, v. repeat split; assumption.
    + rewrite testConnection_no_key in H by (left; exact Hk). discriminate H.
  - intros [(c & key & Hk) (el & r & v & -> & [Hlo Hhi] & Hj)].
    pose proof (testConnection_run env (Responds el r) w c key Hk) as Hrun.
    cbv zeta in Hrun. rewrite Hrun. cbn. unfold ok.
    destruct (Z.leb_spec 200 (status r)); [|lia].
    destruct (Z.leb_spec (status r) 299); [|lia].
    cbn. rewrite Hj. reflexivity.
Qed.

(** X8.  A response that is neither a success nor a qualifying failure (a
    client error such as 400, 401 or 404) is reported to the caller as
    [API Error], with its status and status text, and leaves the breaker
    and the warnings exactly as they were: such failures never open the
    breaker, however many there are. *)
Theorem client_error_not_counted
    (env : Env) (req : CompletionRequest) (elapsed : N) (r : Response)
    (w : World) (c : N) (key : jsstring) :
  cooldownUntil (circuitBreaker w) <= now w →
  secret env = Some (c :: key) →
  ok r = false →
  qualifying (status r) = false →
  let res := createCompletion env req (Responds elapsed r) w in
  fst res = Throw (newError (JS.lit "API Error " ++ JS.of_Z (status r)
                               ++ JS.lit ": " ++ statusText r))
  ∧ circuitBreaker (snd res) = circuitBreaker w
  ∧ warningMessages (snd res) = warningMessages w
  ∧ cooldownUntil (circuitBreaker (snd res)) <= now (snd res).
Proof.
  intros Hc Hk Hnok Hq res.
  destruct (createCompletion_closed env req (Responds elapsed r) w c key Hc Hk)
    as (sig & h & _ & _ & Hrun).
  rewrite Hnok in Hrun. subst res. rewrite Hrun. cbn [fst snd].
  rewrite handleFailure_spec, Hq. cbn.
  repeat (split; [reflexivity|]). lia.
Qed.

Lemma client_error_not_counted_witness :
  circuitBreaker
    (snd (createCompletion Sample.env Sample.request
            (Responds 10 Cases.not_found) Sample.fresh))
  = circuitBreaker Sample.fresh.
Proof.
  apply (client_error_not_counted Sample.env Sample.request 10 Cases.not_found
           Sample.fresh 115%N (JS.lit "k-test")).
  - vm_compute. discriminate.
  - reflexivity.
  - reflexivity.
  - reflexivity.
Defined.

(** X9.  Two kinds of failure the breaker never sees.  When [fetch]
    itself rejects (the network is down, or the 30 s timer aborted the
    request) the error is rethrown, an [AbortError] as [Request timeout
    or cancelled], and the breaker and the warnings are as before: an
    endpoint that cannot be reached never opens the breaker.  When the
    response has a success status and a body that is not JSON, the call
    fails with the error of the parser, and the failure counter is back
    at zero. *)
Theorem transport_failure_not_counted
    (env : Env) (req : CompletionRequest) (w : World) (c : N) (key : jsstring) :
  cooldownUntil (circuitBreaker w) <= now w →
  secret env = Some (c :: key) →
  (∀ elapsed name message,
     let res := createCompletion env req (Rejects elapsed name message) w in
     fst res = Throw (if JS.str_eqb name (JS.lit "AbortError")
                      then newError (JS.lit "Request timeout or cancelled")
                      else ErrorObj name message)
     ∧ circuitBreaker (snd res) = circuitBreaker w
     ∧ warningMessages (snd res) = warningMessages w
     ∧ length (requests (snd res)) = S (length (requests w)))
  ∧ (∀ elapsed r name message,
       ok r = true → json r = JsonError name message →
       let res := createCompletion env req (Responds elapsed r) w in
       fst res = Throw (rethrown name message)
       ∧ failures (circuitBreaker (snd res)) = 0
       ∧ cooldownUntil (circuitBreaker (snd res)) = cooldownUntil (circuitBreaker w)).
Proof.
  intros Hc Hk.
  split.
  - intros elapsed name message res.
    destruct (createCompletion_closed env req (Rejects elapsed name message)
                w c key Hc Hk) as (sig & h & _ & _ & Hrun).
    subst res. rewrite Hrun. cbn [fst snd circuitBreaker warningMessages requests].
    rewrite length_app. cbn [length].
    repeat (split; [reflexivity|]). lia.
  - intros elapsed r name message Hok Hj res.
    destruct (createCompletion_closed env req (Responds elapsed r) w c key Hc Hk)
      as (sig & h & _ & _ & Hrun).
    subst res. rewrite Hrun, Hok, Hj. cbn.
    repeat split.
Qed.

Lemma transport_failure_not_counted_witness :
  circuitBreaker
    (snd (createCompletion Sample.env Sample.request
            (Rejects 30000 (JS.lit "AbortError") (JS.lit "The operation was aborted."))
            Sample.fresh))
  = circuitBreaker Sample.fresh
  ∧ failures
      (circuitBreaker
         (snd (createCompletion Sample.env Sample.request
                 (Responds 10 Cases.not_json) Sample.fresh)))
    = 0.
Proof.
  destruct (transport_failure_not_counted Sample.env Sample.request Sample.fresh
              115%N (JS.lit "k-test")) as [H1 H2].
  - vm_compute. discriminate.
  - reflexivity.
  - split.
    + apply (H1 30000%N (JS.lit "AbortError") (JS.lit "The operation was aborted.")).
    + apply (H2 10%N Cases.not_json (JS.lit "SyntaxError")
               (JS.lit "Unexpected token <")); reflexivity.
Defined.

End ClientEdges.

(** ** More on the pipeline *)

Section ClientSignals.

Import Client.
Local Open Scope Z_scope.


(** [createCompletion] past the breaker and the credential, for a request
    that carries a signal: the signal handed to [fetch] is the result of
    the merge. *)
Lemma createCompletion_merged env req fo w c key s :
  cooldownUntil (circuitBreaker w) <= now w →
  secret env = Some (c :: key) →
  req_signal req = Some s →
  let merged :=
    Abort.mergeSignals (length (signals w)) s
                       (signals w ++ [Abort.mkSignal false []]) in
  let rq := completionRequest env (c :: key) req (fst merged) in
  let sent elapsed :=
    mkWorld (circuitBreaker w) (now w + Z.of_N elapsed) (snd merged)
            (requests w ++ [rq]) (warningMessages w) in
  createCompletion env req fo w =
    match fo with
    | Responds elapsed r =>
        if ok r then
          (match json r with
           | JsonValue v => Ok v
           | JsonError name message => Throw (rethrown name message)
           end,
           snd (resetFailures (sent elapsed)))
        else
          (Throw (newError (JS.lit "API Error " ++ JS.of_Z (status r)
                              ++ JS.lit ": " ++ statusText r)),
           snd (handleFailure (status r) (sent elapsed)))
    | Rejects elapsed name message =>
        (Throw (rethrown name message), sent elapsed)
    end.
Proof.
  assert (HE : JS.str_eqb (JS.lit "Error") (JS.lit "AbortError") = false)
    by reflexivity.
  intros Hc Hk Hs. cbv zeta. unfold createCompletion.
  rewrite bind_check_closed by exact Hc.
  rewrite (bind_getApiKey env c key) by exact Hk.
  rewrite bind_newAbortController, Hs.
  unfold bind at 1, mergeSignals. cbn [signals].
  pose proof (mergeSignals_spec (length (signals w)) s
                (signals w ++ [Abort.mkSignal false []])) as (H1 & H2 & _).
  destruct (Abort.mergeSignals (length (signals w)) s
              (signals w ++ [Abort.mkSignal false []])) as [m h].
  cbn [fst snd circuitBreaker now signals requests warningMessages] in *.
  assert (Hf : Abort.is_aborted m h = false) by (rewrite H1; exact H2).
  unfold completionRequest, try_catch, bind at 1.
  rewrite fetch_live by exact Hf.
  destruct fo as [el r|el name message]; cbv beta iota.
  - destruct (ok r); cbv beta iota delta [negb].
    + unfold bind, resetFailures, modify_breaker, ret, throw.
      destruct (json r) as [v|name message]; cbv beta iota; [reflexivity|].
      unfold rethrown. destruct (JS.str_eqb name _); reflexivity.
    + unfold bind.
      match goal with
      | |- context [handleFailure ?st ?w0] =>
          rewrite (surjective_pairing (handleFailure st w0)), handleFailure_ok
      end.
      cbv beta iota. unfold throw, newError. rewrite HE. reflexivity.
  - unfold rethrown, throw. destruct (JS.str_eqb name _); reflexivity.
Qed.


End ClientSignals.

Section PipelineRuns.

Import Provider.
Local Open Scope Z_scope.

Variable CACHE_PREFIX : jsstring.
Variable computeHash getLanguagePrompt cleanResponse : jsstring → jsstring.
Variable nullPropertyMessage notAFunctionMessage : jsstring.
Variable settings : Settings.

Local Abbreviation attempt :=
  (attempt CACHE_PREFIX cleanResponse nullPropertyMessage notAFunctionMessage settings).
Local Abbreviation fetchCompletion :=
  (fetchCompletion CACHE_PREFIX computeHash getLanguagePrompt cleanResponse
     nullPropertyMessage notAFunctionMessage settings).
Local Abbreviation cacheKey := (generateCacheKey computeHash).
Local Abbreviation buildPrompt := (buildPrompt getLanguagePrompt).

(** The state in which the [try] block starts after a cache miss: the
    previous controller aborted, a new one in its place, a listener on the
    token. *)
Lemma fetchCompletion_on_miss document position token fo stored_d stored_w s c1 :
  Cache.getCompletion CACHE_PREFIX (cacheKey document position)
    (Client.now (api s)) stored_d (cache s) = (None, c1) →
  let a := api s in
  let h := match abortController s with
           | Some c => Abort.abort c (Client.signals a)
           | None => Client.signals a
           end in
  let s1 :=
    mkState (Client.mkWorld (Client.circuitBreaker a) (Client.now a)
               (h ++ [Abort.mkSignal false []])
               (Client.requests a) (Client.warningMessages a))
            c1 (log s) (Some (length h)) (debounceTimer s)
            (tokenListeners s ++ [token]) in
  fetchCompletion document position token fo stored_d stored_w s
  = ptry (attempt position (cacheKey document position)
            (buildPrompt document position) (length h) fo stored_w)
         on_failure s1.
Proof.
  intros Hmiss. cbv zeta.
  unfold Provider.fetchCompletion, pbind at 1, call_cache. rewrite Hmiss.
  reflexivity.
Qed.

Lemma fetchCompletion_on_hit document position token fo stored_d stored_w s it c1 :
  Cache.getCompletion CACHE_PREFIX (cacheKey document position)
    (Client.now (api s)) stored_d (cache s) = (Some it, c1) →
  fetchCompletion document position token fo stored_d stored_w s
  = (Ok [it],
     mkState (api s) c1 (log s ++ [LogDebug (JS.lit "Cache hit for completion")])
             (abortController s) (debounceTimer s) (tokenListeners s)).
Proof.
  intros Hhit.
  unfold Provider.fetchCompletion, pbind at 1, call_cache. rewrite Hhit.
  reflexivity.
Qed.

(** What the [try] block has done when it returns an item. *)
Lemma attempt_returns_item position key prompt controller fo stored_w s it items s' :
  attempt position key prompt controller fo stored_w s = (Ok (it :: items), s') →
  items = []
  ∧ cache s'
    = Cache.setCompletion CACHE_PREFIX key it (cache_ttlSeconds settings)
        (Client.now (api s')) stored_w (cache s)
  ∧ api s'
    = snd (Client.createCompletion (client_env settings)
             (Client.mkCompletionRequest prompt (api_maxTokens settings)
                (api_temperature settings) (Some controller)) fo (api s))
  ∧ log s' = log s ++ [LogDebug (JS.lit "Completion generated successfully")]
  ∧ abortController s' = abortController s.
Proof.
  unfold Provider.attempt, pbind at 1, call_api.
  destruct (Client.createCompletion _ _ fo (api s)) as [[completion|e] a];
    [|discriminate].
  unfold pbind at 1.
  match goal with
  | |- context [suggestion_of ?m completion ?s0] =>
      destruct (suggestion_of m completion s0) as [[suggestion|e] s1] eqn:E1
  end; [|discriminate].
  assert (s1 = mkState a (cache s) (log s) (abortController s)
                 (debounceTimer s) (tokenListeners s)) as ->.
  { unfold suggestion_of in E1. destruct completion; inversion E1; reflexivity. }
  unfold pbind at 1.
  match goal with
  | |- context [clean ?f ?m suggestion ?s0] =>
      destruct (clean f m suggestion s0) as [[cleaned|e] s2] eqn:E2
  end; [|discriminate].
  assert (s2 = mkState a (cache s) (log s) (abortController s)
                 (debounceTimer s) (tokenListeners s)) as ->.
  { unfold clean in E2. destruct suggestion; inversion E2; reflexivity. }
  destruct (trim cleaned); [discriminate|].
  cbn. intros [= <- <- <-]. cbn. repeat split.
Qed.

(** The item the [try] block returns holds a cleaned text that is not
    blank, at the position of the cursor. *)
Lemma attempt_item position key prompt controller fo stored_w s it items s' :
  attempt position key prompt controller fo stored_w s = (Ok (it :: items), s') →
  ∃ text,
    it = Vscode.mkItem (cleanResponse text) (Vscode.mkRange position position)
           (Some (Vscode.mkCommand (JS.lit "Completion Accepted")
                    (JS.lit "myaicopilot.completionAccepted") [key]))
    ∧ trim (cleanResponse text) ≠ [].
Proof.
  unfold Provider.attempt, pbind at 1, call_api.
  destruct (Client.createCompletion _ _ fo (api s)) as [[completion|e] a];
    [|discriminate].
  unfold pbind at 1.
  match goal with
  | |- context [suggestion_of ?m completion ?s0] =>
      destruct (suggestion_of m completion s0) as [[suggestion|e] s1]
  end; [|discriminate].
  unfold pbind at 1, clean.
  destruct suggestion as [| | |text| |]; try discriminate.
  unfold pret at 1.
  destruct (trim (cleanResponse text)) eqn:E; [discriminate|].
  cbn. intros [= <- <- <-]. exists text. split; [reflexivity|].
  rewrite E. discriminate.
Qed.

(** What the client did is all that a failed or finished [try] block and
    the [catch] after it leave in the client's world; the controller is
    not touched. *)
Lemma attempt_shape position key prompt controller fo stored_w s r s2 :
  attempt position key prompt controller fo stored_w s = (r, s2) →
  ∃ cache' log',
    s2 = mkState
           (snd (Client.createCompletion (client_env settings)
                   (Client.mkCompletionRequest prompt (api_maxTokens settings)
                      (api_temperature settings) (Some controller)) fo (api s)))
           cache' log' (abortController s) (debounceTimer s) (tokenListeners s).
Proof.
  unfold Provider.attempt, pbind at 1, call_api.
  destruct (Client.createCompletion _ _ fo (api s)) as [[completion|e] a].
  2:{ intros [= <- <-]. eexists _, _. reflexivity. }
  unfold pbind at 1.
  match goal with
  | |- context [suggestion_of ?m completion ?s0] =>
      destruct (suggestion_of m completion s0) as [[suggestion|e] s1] eqn:E1
  end;
  (assert (s1 = mkState a (cache s) (log s) (abortController s)
                  (debounceTimer s) (tokenListeners s)) as ->
     by (unfold suggestion_of in E1; destruct completion; inversion E1;
         reflexivity)).
  2:{ intros [= <- <-]. eexists _, _. reflexivity. }
  unfold pbind at 1.
  match goal with
  | |- context [clean ?f ?m suggestion ?s0] =>
      destruct (clean f m suggestion s0) as [[cleaned|e] s3] eqn:E2
  end;
  (assert (s3 = mkState a (cache s) (log s) (abortController s)
                  (debounceTimer s) (tokenListeners s)) as ->
     by (unfold clean in E2; destruct suggestion; inversion E2; reflexivity)).
  2:{ intros [= <- <-]. eexists _, _. reflexivity. }
  destruct (trim cleaned); cbn; intros [= <- <-]; eexists _, _; reflexivity.
Qed.

Lemma try_catch_shape position key prompt controller fo stored_w s :
  ∃ res cache' log',
    ptry (attempt position key prompt controller fo stored_w) on_failure s
    = (res,
       mkState
         (snd (Client.createCompletion (client_env settings)
                 (Client.mkCompletionRequest prompt (api_maxTokens settings)
                    (api_temperature settings) (Some controller)) fo (api s)))
         cache' log' (abortController s) (debounceTimer s) (tokenListeners s)).
Proof.
  unfold ptry.
  destruct (attempt position key prompt controller fo stored_w s)
    as [[items|err] s2] eqn:Ha;
    destruct (attempt_shape _ _ _ _ _ _ _ _ _ Ha) as (cache' & log' & ->).
  - eexists _, _, _. reflexivity.
  - rewrite on_failure_spec. eexists _, _, _. reflexivity.
Qed.

Lemma try_catch_api position key prompt controller fo stored_w s :
  let s' := snd (ptry (attempt position key prompt controller fo stored_w)
                      on_failure s) in
  api s'
  = snd (Client.createCompletion (client_env settings)
           (Client.mkCompletionRequest prompt (api_maxTokens settings)
              (api_temperature settings) (Some controller)) fo (api s))
  ∧ abortController s' = abortController s.
Proof.
  cbv zeta.
  destruct (try_catch_shape position key prompt controller fo stored_w s)
    as (res & cache' & log' & ->).
  split; reflexivity.
Qed.

Lemma attempt_when_client_throws position key prompt controller fo stored_w s e a :
  Client.createCompletion (client_env settings)
    (Client.mkCompletionRequest prompt (api_maxTokens settings)
       (api_temperature settings) (Some controller)) fo (api s) = (Throw e, a) →
  attempt position key prompt controller fo stored_w s
  = (Throw e, mkState a (cache s) (log s) (abortController s) (debounceTimer s)
                      (tokenListeners s)).
Proof.
  intros H. unfold Provider.attempt, pbind at 1, call_api. rewrite H. reflexivity.
Qed.

(** X10.  A request repeated within the time to live is served from the
    cache.  If a call of [fetchCompletion] that missed the cache returned
    an item, then a call for the same document and position made up to
    [cache.ttlSeconds] seconds later returns that same item, sends no
    request, leaves the abort controller and the cache alone, and only
    notes the hit in the log. *)
Theorem repeated_request_served_from_cache
    (document : TextDocument) (position : Vscode.Position) (token : nat)
    (fo : Client.FetchOutcome) (stored_d stored_w : bool) (s s1 : State)
    (it : Vscode.InlineCompletionItem) (items : list Vscode.InlineCompletionItem) :
  fst (Cache.getCompletion CACHE_PREFIX (cacheKey document position)
         (Client.now (api s)) stored_d (cache s)) = None →
  fetchCompletion document position token fo stored_d stored_w s
    = (Ok (it :: items), s1) →
  ∀ (ms : N) token' fo' stored_d' stored_w',
    Z.of_N ms <= cache_ttlSeconds settings * 1000 →
    let later :=
      mkState (Client.time_passes ms (api s1)) (cache s1) (log s1)
              (abortController s1) (debounceTimer s1) (tokenListeners s1) in
    fetchCompletion document position token' fo' stored_d' stored_w' later
    = (Ok [it],
       mkState (api later) (cache s1)
               (log s1 ++ [LogDebug (JS.lit "Cache hit for completion")])
               (abortController s1) (debounceTimer s1) (tokenListeners s1)).
Proof.
  intros Hmiss Hrun ms token' fo' stored_d' stored_w' Hms later.
  destruct (Cache.getCompletion CACHE_PREFIX (cacheKey document position)
              (Client.now (api s)) stored_d (cache s)) as [o c1] eqn:Hget.
  cbn in Hmiss. subst o.
  rewrite (fetchCompletion_on_miss _ _ _ _ _ _ _ _ Hget) in Hrun.
  cbv zeta in Hrun. unfold ptry in Hrun.
  match type of Hrun with
  | context [Provider.attempt ?a ?b ?c ?d ?e ?f ?g ?h ?i ?j ?k ?l] =>
      destruct (Provider.attempt a b c d e f g h i j k l) as [[its|err] s2] eqn:Ha
  end.
  2:{ rewrite on_failure_spec in Hrun. discriminate Hrun. }
  injection Hrun as -> ->.
  destruct (attempt_returns_item _ _ _ _ _ _ _ _ _ _ Ha) as (_ & Hcache & _).
  subst later.
  rewrite (fetchCompletion_on_hit _ _ _ _ _ _ _ it (cache s1)); [reflexivity|].
  cbn [api cache].
  apply (getCompletion_live CACHE_PREFIX (cacheKey document position) _
           stored_d' (cache s1)
           (Cache.mkEntry it (Client.now (api s1)
                              + cache_ttlSeconds settings * 1000))).
  - rewrite Hcache. apply setCompletion_lookup.
  - cbn. lia.
Qed.

(** X11.  A timeout is taken for a cancellation.  When the request of a
    call that missed the cache is sent and [fetch] rejects with an
    [AbortError] (the 30 s timer fired, or the signal was aborted),
    [fetchCompletion] returns the empty list and writes nothing to the
    log: the failure cannot be told from a cancellation by the user. *)
Theorem pipeline_timeout_is_silent
    (document : TextDocument) (position : Vscode.Position) (token : nat)
    (elapsed : N) (message : jsstring) (stored_d stored_w : bool) (s : State)
    (c : N) (key : jsstring) :
  fst (Cache.getCompletion CACHE_PREFIX (cacheKey document position)
         (Client.now (api s)) stored_d (cache s)) = None →
  Client.cooldownUntil (Client.circuitBreaker (api s)) <= Client.now (api s) →
  Client.secret (client_env settings) = Some (c :: key) →
  let res := fetchCompletion document position token
               (Client.Rejects elapsed (JS.lit "AbortError") message)
               stored_d stored_w s in
  fst res = Ok []
  ∧ log (snd res) = log s
  ∧ length (Client.requests (api (snd res))) = S (length (Client.requests (api s)))
  ∧ Client.circuitBreaker (api (snd res)) = Client.circuitBreaker (api s).
Proof.
  intros Hmiss Hc Hk res.
  destruct (Cache.getCompletion CACHE_PREFIX (cacheKey document position)
              (Client.now (api s)) stored_d (cache s)) as [o c1] eqn:Hget.
  cbn in Hmiss. subst o res.
  rewrite (fetchCompletion_on_miss _ _ _ _ _ _ _ _ Hget). cbv zeta.
  match goal with
  | |- context [ptry (Provider.attempt _ _ _ _ _ ?pos ?k ?p ?ctl ?fo ?sw) _ ?s0] =>
      pose proof (createCompletion_merged (client_env settings)
                    (Client.mkCompletionRequest p (api_maxTokens settings)
                       (api_temperature settings) (Some ctl)) fo (api s0) c key ctl
                    Hc Hk eq_refl) as Hrun;
      cbv zeta in Hrun;
      unfold ptry;
      rewrite (attempt_when_client_throws pos k p ctl fo sw s0 _ _ Hrun)
  end.
  rewrite on_failure_spec. cbn [fst snd log api].
  split; [reflexivity|]. split; [reflexivity|].
  cbn. rewrite length_app. cbn. split; [lia|reflexivity].
Qed.

(** X12.  While the breaker is open the pipeline stays off the network
    and says so in the log: a call that misses the cache returns the
    empty list, sends nothing, and reports the cooling-down error to the
    logger, once per call. *)
Theorem pipeline_during_cooldown
    (document : TextDocument) (position : Vscode.Position) (token : nat)
    (fo : Client.FetchOutcome) (stored_d stored_w : bool) (s : State) :
  fst (Cache.getCompletion CACHE_PREFIX (cacheKey document position)
         (Client.now (api s)) stored_d (cache s)) = None →
  Client.now (api s) < Client.cooldownUntil (Client.circuitBreaker (api s)) →
  let res := fetchCompletion document position token fo stored_d stored_w s in
  fst res = Ok []
  ∧ Client.requests (api (snd res)) = Client.requests (api s)
  ∧ Client.circuitBreaker (api (snd res)) = Client.circuitBreaker (api s)
  ∧ log (snd res)
    = log s ++ [LogError (JS.lit "Completion failed:") Client.coolingDown].
Proof.
  intros Hmiss Ho res.
  destruct (Cache.getCompletion CACHE_PREFIX (cacheKey document position)
              (Client.now (api s)) stored_d (cache s)) as [o c1] eqn:Hget.
  cbn in Hmiss. subst o res.
  rewrite (fetchCompletion_on_miss _ _ _ _ _ _ _ _ Hget). cbv zeta.
  unfold ptry.
  match goal with
  | |- context [Provider.attempt _ _ _ _ _ ?pos ?k ?p ?ctl ?fo ?sw ?s0] =>
      rewrite (attempt_when_client_throws pos k p ctl fo sw s0 Client.coolingDown
                 (api s0))
        by (apply createCompletion_open; exact Ho)
  end.
  rewrite on_failure_spec. cbn [fst snd log api].
  repeat split.
Qed.


End PipelineRuns.

Section PipelineRunsWitness.

Import Provider.
Local Open Scope Z_scope.

(** The answer [42;] is cached for 300 s; a second request four minutes
    later, with the network down, is served from the cache. *)
Lemma repeated_request_served_from_cache_witness :
  fst (Cases.fetchCompletion Sample.document Sample.position 2
         (Client.Rejects 5 (JS.lit "TypeError") (JS.lit "fetch failed"))
         true true
         (mkState (Client.time_passes 240000 (api Cases.served))
                  (cache Cases.served) (log Cases.served)
                  (abortController Cases.served) (debounceTimer Cases.served)
                  (tokenListeners Cases.served)))
  = Ok [Cases.item].
Proof.
  pose proof (repeated_request_served_from_cache Sample.prefix (λ x, x) (λ x, x)
                Clean.cleanResponse [] [] Sample.settings
                Sample.document Sample.position 1
                (Client.Responds 10 Sample.completed) true true
                Sample.idle Cases.served Cases.item []) as H.
  cbv zeta in H. unfold Cases.fetchCompletion. rewrite H.
  - reflexivity.
  - vm_compute. reflexivity.
  - vm_compute. reflexivity.
  - vm_compute. discriminate.
Defined.

Lemma pipeline_timeout_is_silent_witness :
  let res := Cases.fetchCompletion Sample.document Sample.position 1
               (Client.Rejects 30000 (JS.lit "AbortError")
                  (JS.lit "The operation was aborted."))
               true true Sample.idle in
  fst res = Ok [] ∧ log (snd res) = [].
Proof.
  destruct (pipeline_timeout_is_silent Sample.prefix (λ x, x) (λ x, x)
              Clean.cleanResponse [] [] Sample.settings
              Sample.document Sample.position 1 30000
              (JS.lit "The operation was aborted.") true true Sample.idle
              115%N (JS.lit "k-test")) as (H1 & H2 & _).
  - vm_compute. reflexivity.
  - vm_compute. discriminate.
  - reflexivity.
  - split; [exact H1|exact H2].
Defined.

Lemma pipeline_during_cooldown_witness :
  let res := Cases.fetchCompletion Sample.document Sample.position 1
               (Client.Responds 10 Sample.completed) true true Cases.cooling in
  fst res = Ok []
  ∧ log (snd res) = [LogError (JS.lit "Completion failed:") Client.coolingDown].
Proof.
  destruct (pipeline_during_cooldown Sample.prefix (λ x, x) (λ x, x)
              Clean.cleanResponse [] [] Sample.settings
              Sample.document Sample.position 1
              (Client.Responds 10 Sample.completed) true true Cases.cooling)
    as (H1 & _ & _ & H2).
  - vm_compute. reflexivity.
  - vm_compute. reflexivity.
  - split; [exact H1|exact H2].
Defined.


End PipelineRunsWitness.

(** ** Cleaning the answer *)

Section CleanFacts.

Import Clean.

Local Abbreviation is_space := Provider.is_space.
Local Abbreviation trimStart := Provider.trimStart.
Local Abbreviation trim := Provider.trim.

Lemma startsWith_inv (s p : jsstring) :
  JS.startsWith s p = true → ∃ r, s = p ++ r.
Proof.
  revert s. induction p as [|a p IH]; intros s H.
  - exists s. reflexivity.
  - destruct s as [|b s]; [discriminate H|]. cbn in H.
    apply andb_prop in H as [Hab H]. apply N.eqb_eq in Hab. subst b.
    destruct (IH s H) as [r ->]. exists r. reflexivity.
Qed.

Lemma includes_cons (c : N) (s p : jsstring) :
  JS.includes (c :: s) p = JS.startsWith (c :: s) p || JS.includes s p.
Proof. reflexivity. Qed.

Lemma includes_spec (s p : jsstring) :
  JS.includes s p = true ↔ ∃ a b, s = a ++ p ++ b.
Proof.
  split.
  - induction s as [|c s IH].
    + change (JS.includes [] p) with (JS.startsWith [] p || false).
      rewrite orb_false_r. intros H.
      destruct (startsWith_inv _ _ H) as [r Hr]. exists [], r. exact Hr.
    + rewrite includes_cons. intros H. apply orb_prop in H as [H|H].
      * destruct (startsWith_inv _ _ H) as [r Hr]. exists [], r. exact Hr.
      * destruct (IH H) as (a & b & ->). exists (c :: a), b. reflexivity.
  - intros (a & b & ->). induction a as [|c a IH].
    + cbn [app]. destruct (p ++ b) eqn:E.
      * destruct p; [reflexivity|discriminate E].
      * rewrite includes_cons, <- E, startsWith_app. reflexivity.
    + cbn [app]. rewrite includes_cons, IH. apply orb_true_r.
Qed.

Lemma includes_infix (a s b p : jsstring) :
  JS.includes (a ++ s ++ b) p = false → JS.includes s p = false.
Proof.
  intros H. destruct (JS.includes s p) eqn:E; [|reflexivity].
  apply includes_spec in E as (a' & b' & ->).
  rewrite <- H. symmetry. apply includes_spec.
  exists (a ++ a'), (b' ++ b). rewrite <- !app_assoc. reflexivity.
Qed.

Lemma includes_short (s p : jsstring) :
  (length s < length p)%nat → JS.includes s p = false.
Proof.
  intros H. destruct (JS.includes s p) eqn:E; [|reflexivity].
  apply includes_spec in E as (a & b & ->).
  rewrite !length_app in H. lia.
Qed.

(** *** Finding a fence *)

Lemma find_fence_cons (c : N) (rest : jsstring) :
  find_fence (c :: rest)
  = if JS.startsWith (c :: rest) fence then Some ([], drop 3 (c :: rest))
    else match find_fence rest with
         | Some (before, after) => Some (c :: before, after)
         | None => None
         end.
Proof. reflexivity. Qed.

Lemma find_fence_None (s : jsstring) :
  find_fence s = None ↔ JS.includes s fence = false.
Proof.
  induction s as [|c s IH]; [split; reflexivity|].
  rewrite find_fence_cons, includes_cons.
  destruct (JS.startsWith (c :: s) fence).
  - split; discriminate.
  - cbn [orb]. rewrite <- IH.
    destruct (find_fence s) as [[b a]|]; split; (discriminate || reflexivity).
Qed.

Lemma find_fence_Some (s before after : jsstring) :
  find_fence s = Some (before, after) → s = before ++ fence ++ after.
Proof.
  revert before after. induction s as [|c s IH]; intros before after;
    [discriminate|].
  rewrite find_fence_cons.
  destruct (JS.startsWith (c :: s) fence) eqn:E.
  - intros [= <- <-]. destruct (startsWith_inv _ _ E) as [r Hr].
    injection Hr as -> ->. reflexivity.
  - destruct (find_fence s) as [[b a]|]; [|discriminate].
    intros [= <- <-]. rewrite (IH b a eq_refl) at 1. reflexivity.
Qed.

Lemma startsWith_fence_head (c : N) (s : jsstring) :
  (c =? backtick) = false → JS.startsWith (c :: s) fence = false.
Proof.
  intros Hc. destruct (JS.startsWith (c :: s) fence) eqn:E; [|reflexivity].
  destruct (startsWith_inv _ _ E) as [r Hr]. injection Hr as -> _.
  discriminate Hc.
Qed.

(** The closing fence of a piece that holds no backtick. *)
Lemma find_fence_closing (x after : jsstring) :
  forallb (λ c, negb (c =? backtick)) x = true →
  find_fence (x ++ fence ++ after) = Some (x, after).
Proof.
  intros H. induction x as [|c x IH].
  - change ([] ++ fence ++ after) with (backtick :: ([backtick; backtick] ++ after)).
    rewrite find_fence_cons.
    change (backtick :: ([backtick; backtick] ++ after)) with (fence ++ after).
    rewrite startsWith_app. reflexivity.
  - cbn [forallb] in H. apply andb_prop in H as [Hc H].
    cbn [app]. rewrite find_fence_cons.
    apply negb_true_iff in Hc.
    rewrite (startsWith_fence_head _ _ Hc), (IH H). reflexivity.
Qed.

Lemma no_backtick_no_fence (x : jsstring) :
  forallb (λ c, negb (c =? backtick)) x = true → JS.includes x fence = false.
Proof.
  intros H. induction x as [|c x IH]; [reflexivity|].
  cbn [forallb] in H. apply andb_prop in H as [Hc H].
  rewrite includes_cons, (IH H), orb_false_r.
  apply negb_true_iff in Hc. apply startsWith_fence_head, Hc.
Qed.

(** *** The two replacements of fences *)

Lemma extract_fences_fuel_S (fuel : nat) (s : jsstring) :
  extract_fences_fuel (S fuel) s
  = match find_fence s with
    | None => s
    | Some (before, after) =>
        match find_fence (skip_newline (skip_lower after)) with
        | None => s
        | Some (group, rest) => before ++ group ++ extract_fences_fuel fuel rest
        end
    end.
Proof. reflexivity. Qed.

Lemma length_skip_lower (s : jsstring) : (length (skip_lower s) <= length s)%nat.
Proof.
  induction s as [|c s IH]; [reflexivity|].
  cbn [skip_lower]. destruct (is_lower c); cbn [length]; lia.
Qed.

Lemma length_skip_newline (s : jsstring) :
  (length (skip_newline s) <= length s)%nat.
Proof. destruct s as [|c s]; [reflexivity|]. cbn. destruct (c =? JS.LF); cbn; lia. Qed.

(** The rounds [extract_fences] allows are enough: more change nothing. *)
Lemma extract_fences_fuel_enough (n m : nat) :
  ∀ s, (length s <= n)%nat → (length s <= m)%nat →
       extract_fences_fuel n s = extract_fences_fuel m s.
Proof.
  revert m. induction n as [|n IH]; intros m s Hn Hm.
  - destruct s; [|cbn in Hn; lia]. destruct m; reflexivity.
  - destruct m as [|m].
    { destruct s; [reflexivity|cbn in Hm; lia]. }
    rewrite !extract_fences_fuel_S.
    destruct (find_fence s) as [[before after]|] eqn:E1; [|reflexivity].
    destruct (find_fence (skip_newline (skip_lower after))) as [[group rest]|]
      eqn:E2; [|reflexivity].
    apply find_fence_Some in E1, E2.
    apply (f_equal (@length N)) in E1, E2. rewrite !length_app in E1, E2.
    pose proof (length_skip_lower after).
    pose proof (length_skip_newline (skip_lower after)).
    cbn [length fence] in E1, E2.
    rewrite (IH m rest) by lia. reflexivity.
Qed.

Lemma extract_fences_fuel_none (fuel : nat) (s : jsstring) :
  JS.includes s fence = false → extract_fences_fuel fuel s = s.
Proof.
  intros H. apply find_fence_None in H.
  destruct fuel; [reflexivity|]. cbn [extract_fences_fuel]. rewrite H.
  reflexivity.
Qed.

Lemma remove_fences_cons (a b c : N) (rest : jsstring) :
  remove_fences (a :: b :: c :: rest)
  = if (a =? backtick) && (b =? backtick) && (c =? backtick)
    then remove_fences rest
    else a :: remove_fences (b :: c :: rest).
Proof. reflexivity. Qed.

Lemma remove_fences_none (s : jsstring) :
  JS.includes s fence = false → remove_fences s = s.
Proof.
  induction s as [|a tl IH]; [reflexivity|].
  rewrite includes_cons. intros H. apply orb_false_elim in H as [Hs Hi].
  destruct tl as [|b [|c rest]].
  - reflexivity.
  - reflexivity.
  - rewrite remove_fences_cons. destruct ((a =? backtick) && (b =? backtick) && (c =? backtick)) eqn:E.
    + apply andb_prop in E as [E Ec]. apply andb_prop in E as [Ea Eb].
      apply N.eqb_eq in Ea, Eb, Ec. subst a b c.
      change (backtick :: backtick :: backtick :: rest) with (fence ++ rest) in Hs.
      rewrite startsWith_app in Hs. discriminate Hs.
    + rewrite (IH Hi). reflexivity.
Qed.

Lemma remove_fences_facts (n : nat) :
  ∀ s, (length s <= n)%nat →
    (lead (remove_fences s) <= lead s)%nat
    ∧ JS.includes (remove_fences s) fence = false.
Proof.
  induction n as [|n IH]; intros s Hn.
  - destruct s; [split; [reflexivity|reflexivity]|cbn in Hn; lia].
  - destruct s as [|a tl]; [split; reflexivity|].
    cbn [length] in Hn.
    destruct tl as [|b [|c rest]].
    + split; [reflexivity|]. apply includes_short. cbn. lia.
    + split; [reflexivity|]. apply includes_short. cbn. lia.
    + rewrite remove_fences_cons.
      destruct ((a =? backtick) && (b =? backtick) && (c =? backtick)) eqn:E.
      * destruct (IH rest) as [Hl Hi]; [cbn [length] in Hn; lia|].
        split; [|exact Hi].
        apply andb_prop in E as [E Ec]. apply andb_prop in E as [Ea Eb].
        cbn [lead]. rewrite Ea, Eb, Ec. lia.
      * destruct (IH (b :: c :: rest)) as [Hl Hi]; [cbn [length] in *; lia|].
        remember (remove_fences (b :: c :: rest)) as y eqn:Hy. clear Hy.
        split.
        -- cbn [lead] in Hl |- *. destruct (a =? backtick); lia.
        -- rewrite includes_cons, Hi, orb_false_r.
           destruct (JS.startsWith (a :: y) fence) eqn:Es; [|reflexivity].
           destruct (startsWith_inv _ _ Es) as [r Hr].
           injection Hr as -> ->. cbn [app lead] in Hl.
           rewrite N.eqb_refl in Hl.
           destruct (b =? backtick) eqn:Eb; [|lia].
           destruct (c =? backtick) eqn:Ec; [|lia].
           rewrite N.eqb_refl in E. discriminate E.
Qed.

Lemma remove_fences_no_fence (s : jsstring) :
  JS.includes (remove_fences s) fence = false.
Proof. apply (remove_fences_facts (length s) s). lia. Qed.

(** *** White space at the two ends *)

Lemma trimStart_spaces (w s : jsstring) :
  forallb is_space w = true → trimStart (w ++ s) = trimStart s.
Proof.
  induction w as [|c w IH]; [reflexivity|].
  cbn [forallb]. intros H. apply andb_prop in H as [Hc H].
  cbn [app Provider.trimStart]. rewrite Hc. exact (IH H).
Qed.

Lemma trimStart_split (s : jsstring) :
  ∃ w, s = w ++ trimStart s ∧ forallb is_space w = true.
Proof.
  induction s as [|c s (w & Hs & Hw)]; [exists []; split; reflexivity|].
  cbn [Provider.trimStart]. destruct (is_space c) eqn:E.
  - exists (c :: w). cbn [app forallb]. rewrite <- Hs, E, Hw. split; reflexivity.
  - exists []. split; reflexivity.
Qed.

Lemma trimStart_head (s : jsstring) (c : N) (r : jsstring) :
  trimStart s = c :: r → is_space c = false.
Proof.
  induction s as [|d s IH]; [discriminate|].
  cbn [Provider.trimStart]. destruct (is_space d) eqn:E; [exact IH|].
  intros [= <- <-]. exact E.
Qed.

Lemma trimStart_fixed (s : jsstring) :
  (∀ c r, s = c :: r → is_space c = false) → trimStart s = s.
Proof.
  intros H. destruct s as [|c r]; [reflexivity|].
  cbn [Provider.trimStart]. rewrite (H c r eq_refl). reflexivity.
Qed.

Lemma trimStart_app (s w : jsstring) :
  trimStart s ≠ [] → trimStart (s ++ w) = trimStart s ++ w.
Proof.
  induction s as [|c s IH]; [intros H; destruct (H eq_refl)|].
  cbn [app Provider.trimStart]. destruct (is_space c); [exact IH|reflexivity].
Qed.

Lemma trimStart_all_spaces (s : jsstring) :
  forallb is_space s = true → trimStart s = [].
Proof.
  intros H. rewrite <- (app_nil_r s), trimStart_spaces by exact H. reflexivity.
Qed.

Lemma trim_spaces_l (w s : jsstring) :
  forallb is_space w = true → trim (w ++ s) = trim s.
Proof. intros H. unfold Provider.trim. rewrite trimStart_spaces by exact H. reflexivity. Qed.

Lemma forallb_rev {A} (f : A → bool) (l : list A) :
  forallb f (rev l) = forallb f l.
Proof.
  induction l as [|a l IH]; [reflexivity|].
  cbn [rev forallb]. rewrite forallb_app, IH. cbn. rewrite andb_true_r.
  apply andb_comm.
Qed.

Lemma trim_spaces_r (s w : jsstring) :
  forallb is_space w = true → trim (s ++ w) = trim s.
Proof.
  intros H. unfold Provider.trim.
  destruct (trimStart s) as [|c r] eqn:E.
  - destruct (trimStart_split s) as (v & Hs & Hv). rewrite E, app_nil_r in Hs.
    subst v. rewrite (trimStart_all_spaces (s ++ w)); [reflexivity|].
    rewrite forallb_app, Hv, H. reflexivity.
  - rewrite trimStart_app by (rewrite E; discriminate).
    rewrite E, rev_app_distr, trimStart_spaces; [reflexivity|].
    rewrite forallb_rev. exact H.
Qed.

Lemma trim_split (s : jsstring) :
  ∃ a b, s = a ++ trim s ++ b
         ∧ forallb is_space a = true ∧ forallb is_space b = true.
Proof.
  destruct (trimStart_split s) as (a & Hs & Ha).
  destruct (trimStart_split (rev (trimStart s))) as (v & Hr & Hv).
  exists a, (rev v). split; [|split; [exact Ha|rewrite forallb_rev; exact Hv]].
  unfold Provider.trim. rewrite <- rev_app_distr, <- Hr, rev_involutive. exact Hs.
Qed.

Lemma trim_head (s : jsstring) (c : N) (r : jsstring) :
  trim s = c :: r → is_space c = false.
Proof.
  intros H.
  destruct (trimStart_split (rev (trimStart s))) as (v & Hr & Hv).
  apply (f_equal (@rev N)) in Hr. rewrite rev_involutive, rev_app_distr in Hr.
  fold (trim s) in Hr. rewrite H in Hr.
  apply (trimStart_head s c (r ++ rev v)). exact Hr.
Qed.

Lemma trim_last (s r : jsstring) (c : N) :
  trim s = r ++ [c] → is_space c = false.
Proof.
  intros H. unfold Provider.trim in H.
  apply (f_equal (@rev N)) in H. rewrite rev_involutive, rev_app_distr in H.
  apply (trimStart_head _ _ _ H).
Qed.

Lemma trim_fixed (s : jsstring) :
  (∀ c r, s = c :: r → is_space c = false) →
  (∀ r c, s = r ++ [c] → is_space c = false) →
  trim s = s.
Proof.
  intros Hh Hl. unfold Provider.trim. rewrite (trimStart_fixed s Hh).
  rewrite trimStart_fixed; [apply rev_involutive|].
  intros c r Hr. apply (Hl (rev r) c).
  rewrite <- (rev_involutive s), Hr. reflexivity.
Qed.

Lemma trim_trim (s : jsstring) : trim (trim s) = trim s.
Proof.
  apply trim_fixed.
  - intros c r. apply trim_head.
  - intros r c. apply trim_last.
Qed.

(** *** The two replacements of newlines take white space off the ends *)

Lemma after_leading_newline_split (s r : jsstring) :
  after_leading_newline s = Some r →
  ∃ w, s = w ++ r ∧ forallb is_space w = true.
Proof.
  revert r. induction s as [|c s IH]; intros r; [discriminate|].
  cbn [after_leading_newline]. destruct (is_space c) eqn:E; [|discriminate].
  destruct (after_leading_newline s) as [r'|].
  - intros [= <-]. destruct (IH r' eq_refl) as (w & -> & Hw).
    exists (c :: w). cbn [app forallb]. rewrite E, Hw. split; reflexivity.
  - destruct (c =? JS.LF); [|discriminate]. intros [= <-].
    exists [c]. cbn [app forallb]. rewrite E. split; reflexivity.
Qed.

Lemma remove_leading_newlines_split (s : jsstring) :
  ∃ w, s = w ++ remove_leading_newlines s ∧ forallb is_space w = true.
Proof.
  unfold remove_leading_newlines.
  destruct (after_leading_newline s) as [r|] eqn:E.
  - exact (after_leading_newline_split s r E).
  - exists []. split; reflexivity.
Qed.

Lemma remove_trailing_newlines_split (s : jsstring) :
  ∃ w, s = remove_trailing_newlines s ++ w ∧ forallb is_space w = true.
Proof.
  induction s as [|c s (w & Hs & Hw)]; [exists []; split; reflexivity|].
  cbn [remove_trailing_newlines].
  destruct ((c =? JS.LF) && forallb is_space s) eqn:E.
  - exists (c :: s). split; [reflexivity|].
    apply andb_prop in E as [Ec Es]. apply N.eqb_eq in Ec. subst c.
    cbn [forallb]. rewrite Es. reflexivity.
  - exists w. cbn [app]. rewrite <- Hs. split; [reflexivity|exact Hw].
Qed.

(** The replacements of newlines do nothing that [trim] would not do. *)
Lemma cleanResponse_trim (text : jsstring) :
  cleanResponse text = trim (remove_fences (extract_fences text)).
Proof.
  unfold cleanResponse.
  set (z := remove_fences (extract_fences text)).
  destruct (remove_leading_newlines_split z) as (w & Hz & Hw).
  destruct (remove_trailing_newlines_split (remove_leading_newlines z))
    as (v & Hr & Hv).
  rewrite Hz at 2. rewrite trim_spaces_l by exact Hw.
  rewrite Hr at 2. rewrite trim_spaces_r by exact Hv. reflexivity.
Qed.

Lemma cleanResponse_no_fence (text : jsstring) :
  JS.includes (cleanResponse text) fence = false.
Proof.
  rewrite cleanResponse_trim.
  set (z := remove_fences (extract_fences text)).
  destruct (trim_split z) as (a & b & Hz & _).
  apply (includes_infix a _ b). rewrite <- Hz. apply remove_fences_no_fence.
Qed.

End CleanFacts.

Section CleanClaims.

Import Clean.

Local Abbreviation is_space := Provider.is_space.
Local Abbreviation trim := Provider.trim.

(** X14.  The result of [cleanResponse] is clean and stable: whatever the
    text, the result holds no fence of three backticks, neither starts
    nor ends with white space, and is left as it is by another
    [cleanResponse]. *)
Theorem cleanResponse_result_is_clean (text : jsstring) :
  JS.includes (cleanResponse text) fence = false
  ∧ (∀ c r, cleanResponse text = c :: r → is_space c = false)
  ∧ (∀ r c, cleanResponse text = r ++ [c] → is_space c = false)
  ∧ cleanResponse (cleanResponse text) = cleanResponse text.
Proof.
  pose proof (cleanResponse_no_fence text) as Hf.
  split; [exact Hf|].
  split; [intros c r; rewrite cleanResponse_trim; apply trim_head|].
  split; [intros r c; rewrite cleanResponse_trim; apply trim_last|].
  rewrite (cleanResponse_trim (cleanResponse text)).
  unfold extract_fences. rewrite extract_fences_fuel_none by exact Hf.
  rewrite remove_fences_none by exact Hf.
  rewrite cleanResponse_trim. apply trim_trim.
Qed.

(** X15.  The two replacements of leading and trailing newlines never show
    in the result, [trim] doing their work and more: a text without a
    fence is trimmed and nothing else. *)
Theorem cleanResponse_without_fence (text : jsstring) :
  JS.includes text fence = false →
  cleanResponse text = trim text.
Proof.
  intros Hf. rewrite cleanResponse_trim. unfold extract_fences.
  rewrite extract_fences_fuel_none by exact Hf.
  rewrite remove_fences_none by exact Hf. reflexivity.
Qed.

Lemma cleanResponse_without_fence_witness :
  cleanResponse Cases.padded = JS.lit "return x;".
Proof.
  rewrite (cleanResponse_without_fence Cases.padded); reflexivity.
Defined.

Lemma skip_lower_tag (tag rest : jsstring) :
  forallb is_lower tag = true →
  forallb (λ c, negb (is_lower c)) (take 1 rest) = true →
  skip_lower (tag ++ rest) = rest.
Proof.
  intros Ht Hr. induction tag as [|c tag IH].
  - destruct rest as [|d rest]; [reflexivity|].
    cbn in Hr. rewrite andb_true_r in Hr. apply negb_true_iff in Hr.
    cbn [app skip_lower]. rewrite Hr. reflexivity.
  - cbn [forallb] in Ht. apply andb_prop in Ht as [Hc Ht].
    cbn [app skip_lower]. rewrite Hc. exact (IH Ht).
Qed.

(** X16.  A block between two fences is unwrapped.  The lower-case letters
    right after the opening fence go as its language tag, and one line
    feed after them; what follows, up to the closing fence, is the
    answer, trimmed.  The letters go even when no line feed follows them:
    the first word of a block written on one line is lost. *)
Theorem cleanResponse_unwraps_block (tag body : jsstring) :
  forallb is_lower tag = true →
  forallb (λ c, negb (is_lower c)) (take 1 body) = true →
  forallb (λ c, negb (c =? backtick)) body = true →
  cleanResponse (fence ++ tag ++ body ++ fence) = trim (skip_newline body).
Proof.
  intros Ht Hh Hb.
  assert (Hn : forallb (λ c, negb (c =? backtick)) (skip_newline body) = true).
  { destruct body as [|c r]; [reflexivity|]. cbn [skip_newline].
    destruct (c =? JS.LF); [|exact Hb].
    cbn [forallb] in Hb. apply andb_prop in Hb as [_ Hb]. exact Hb. }
  assert (He : extract_fences (fence ++ tag ++ body ++ fence) = skip_newline body).
  { unfold extract_fences.
    change (length (fence ++ tag ++ body ++ fence))
      with (S (length ([backtick; backtick] ++ tag ++ body ++ fence))).
    rewrite extract_fences_fuel_S.
    pose proof (find_fence_closing [] (tag ++ body ++ fence) eq_refl) as H1.
    cbn [app] in H1. rewrite H1.
    rewrite skip_lower_tag;
      [|exact Ht|destruct body as [|c r]; [reflexivity|exact Hh]].
    replace (skip_newline (body ++ fence)) with (skip_newline body ++ fence ++ []).
    - rewrite (find_fence_closing _ [] Hn). cbn [app].
      rewrite extract_fences_fuel_none by reflexivity. apply app_nil_r.
    - rewrite app_nil_r. destruct body as [|c r]; [reflexivity|].
      cbn [app skip_newline]. destruct (c =? JS.LF); reflexivity. }
  rewrite cleanResponse_trim, He.
  rewrite remove_fences_none by (apply no_backtick_no_fence, Hn). reflexivity.
Qed.

Lemma cleanResponse_unwraps_block_witness :
  cleanResponse (fence ++ Cases.tag ++ Cases.body ++ fence)
  = JS.lit "const y = x + 1;"
  ∧ cleanResponse (fence ++ JS.lit "return" ++ JS.lit " x;" ++ fence)
    = JS.lit "x;".
Proof.
  split.
  - rewrite (cleanResponse_unwraps_block Cases.tag Cases.body); reflexivity.
  - rewrite (cleanResponse_unwraps_block (JS.lit "return") (JS.lit " x;"));
      reflexivity.
Defined.

End CleanClaims.

Section CleanPipeline.

Import Provider.

Variable CACHE_PREFIX : jsstring.
Variable computeHash getLanguagePrompt : jsstring → jsstring.
Variable nullPropertyMessage notAFunctionMessage : jsstring.
Variable settings : Settings.

Local Abbreviation fetchCompletion :=
  (fetchCompletion CACHE_PREFIX computeHash getLanguagePrompt Clean.cleanResponse
     nullPropertyMessage notAFunctionMessage settings).

(** X17.  An item that [fetchCompletion] makes from an answer of the model
    (the cache held none) is the only one returned; it sits at the cursor
    and its text is not empty, holds no fence, and has no white space at
    either end. *)
Theorem fetched_item_is_clean
    (document : TextDocument) (position : Vscode.Position) (token : nat)
    (fo : Client.FetchOutcome) (stored_d stored_w : bool) (s s1 : State)
    (it : Vscode.InlineCompletionItem) (items : list Vscode.InlineCompletionItem) :
  fst (Cache.getCompletion CACHE_PREFIX (generateCacheKey computeHash document position)
         (Client.now (api s)) stored_d (cache s)) = None →
  fetchCompletion document position token fo stored_d stored_w s
    = (Ok (it :: items), s1) →
  items = []
  ∧ Vscode.range it = Vscode.mkRange position position
  ∧ Vscode.insertText it ≠ []
  ∧ JS.includes (Vscode.insertText it) Clean.fence = false
  ∧ (∀ c r, Vscode.insertText it = c :: r → is_space c = false)
  ∧ (∀ r c, Vscode.insertText it = r ++ [c] → is_space c = false).
Proof.
  intros Hmiss Hrun.
  destruct (Cache.getCompletion CACHE_PREFIX
              (generateCacheKey computeHash document position)
              (Client.now (api s)) stored_d (cache s)) as [o c1] eqn:Hget.
  cbn in Hmiss. subst o.
  rewrite (fetchCompletion_on_miss _ _ _ _ _ _ _ _ _ _ _ _ _ _ _ Hget) in Hrun.
  cbv zeta in Hrun. unfold ptry in Hrun.
  match type of Hrun with
  | context [Provider.attempt ?a ?b ?c ?d ?e ?f ?g ?h ?i ?j ?k ?l] =>
      destruct (Provider.attempt a b c d e f g h i j k l) as [[its|err] s2] eqn:Ha
  end.
  2:{ rewrite on_failure_spec in Hrun. discriminate Hrun. }
  injection Hrun as -> ->.
  destruct (attempt_returns_item _ _ _ _ _ _ _ _ _ _ _ _ _ _ _ Ha) as (Hitems & _).
  destruct (attempt_item _ _ _ _ _ _ _ _ _ _ _ _ _ _ _ Ha) as (text & -> & Hne).
  cbn [Vscode.range Vscode.insertText].
  split; [exact Hitems|]. split; [reflexivity|].
  split; [intros E; rewrite E in Hne; apply Hne; reflexivity|].
  split; [apply cleanResponse_no_fence|].
  rewrite cleanResponse_trim. split.
  - intros c r. apply trim_head.
  - intros r c. apply trim_last.
Qed.

End CleanPipeline.

Section CleanPipelineWitness.

Import Provider.

Lemma fetched_item_is_clean_witness :
  Vscode.insertText Cases.item ≠ []
  ∧ JS.includes (Vscode.insertText Cases.item) Clean.fence = false.
Proof.
  destruct (fetched_item_is_clean Sample.prefix (λ x, x) (λ x, x) [] []
              Sample.settings Sample.document Sample.position 1
              (Client.Responds 10 Sample.completed) true true
              Sample.idle Cases.served Cases.item [])
    as (_ & _ & H1 & H2 & _).
  - vm_compute. reflexivity.
  - vm_compute. reflexivity.
  - split; [exact H1|exact H2].
Defined.

End CleanPipelineWitness.

(** ** More on the event loop *)

Section EventLoopRuns.

Import Provider.

Variable CACHE_PREFIX : jsstring.
Variable computeHash getLanguagePrompt cleanResponse : jsstring → jsstring.
Variable nullPropertyMessage notAFunctionMessage : jsstring.
Variable settings : Settings.

Local Abbreviation step :=
  (step CACHE_PREFIX computeHash getLanguagePrompt cleanResponse
     nullPropertyMessage notAFunctionMessage settings).
Local Abbreviation run :=
  (run CACHE_PREFIX computeHash getLanguagePrompt cleanResponse
     nullPropertyMessage notAFunctionMessage settings).
Local Abbreviation fetchCompletion :=
  (fetchCompletion CACHE_PREFIX computeHash getLanguagePrompt cleanResponse
     nullPropertyMessage notAFunctionMessage settings).

Lemma settle_not_rejected p items ps q e :
  ps !! q ≠ Some (Rejected e) →
  settle p (Fulfilled items) ps !! q ≠ Some (Rejected e).
Proof.
  intros H. unfold settle. destruct (ps !! p) as [[| |]|] eqn:Hp; try exact H.
  destruct (decide (p = q)) as [->|Hne].
  - rewrite list_lookup_insert_eq by (eapply lookup_lt_Some; eauto). discriminate.
  - rewrite list_lookup_insert_ne by exact Hne. exact H.
Qed.

Lemma snoc_not_rejected (ps : list Promise) v q e :
  ps !! q ≠ Some (Rejected e) → v ≠ Rejected e →
  (ps ++ [v]) !! q ≠ Some (Rejected e).
Proof.
  intros H Hv Hq. apply lookup_app_Some in Hq as [Hq|[_ Hq]]; [exact (H Hq)|].
  apply list_lookup_singleton_Some in Hq as [_ Hq]. exact (Hv Hq).
Qed.

Lemma step_not_rejected a l :
  (∀ q e, promises l !! q ≠ Some (Rejected e)) →
  ∀ q e, promises (step a l) !! q ≠ Some (Rejected e).
Proof.
  intros H q e.
  destruct a as [document position kind token | t c
                | i fo stored_d stored_w | ms].
  - cbn. unfold provideInlineCompletionItems.
    destruct (negb (isLanguageSupported settings (languageId document)));
      [|destruct kind]; cbn; apply snoc_not_rejected; (apply H || discriminate).
  - cbn. destruct (timers l !! t) as [task|]; [|apply H].
    unfold timer_callback. destruct c; cbn; [|apply H].
    apply settle_not_rejected, H.
  - cbn. destruct (running l !! i) as [job|]; [|apply H].
    unfold fetch_settles. cbn [state].
    destruct (fetchCompletion_returns CACHE_PREFIX computeHash getLanguagePrompt
                cleanResponse nullPropertyMessage notAFunctionMessage settings
                (t_document (j_task job)) (t_position (j_task job))
                (t_token (j_task job)) fo stored_d stored_w (state l))
      as (items & s' & ->).
    cbn. apply settle_not_rejected, H.
  - apply H.
Qed.

(** X18.  No promise the provider hands to the editor is ever rejected,
    whatever calls are made, timers fire and requests answer or fail: a
    promise is pending or fulfilled with a list. *)
Theorem no_promise_is_rejected (s : State) (actions : list action) (p : nat)
    (e : thrown) :
  promises (run actions (newLoop s)) !! p ≠ Some (Rejected e).
Proof.
  revert p e.
  assert (H0 : ∀ q e, promises (newLoop s) !! q ≠ Some (Rejected e))
    by (intros q e; discriminate).
  revert H0. generalize (newLoop s) as l.
  induction actions as [|a actions IH]; intros l H; [exact H|].
  cbn. apply IH, step_not_rejected, H.
Qed.

Lemma single_key_size {A} (m : gmap nat A) (d : option nat) :
  (∀ k v, m !! k = Some v → d = Some k) → (size m <= 1)%nat.
Proof.
  intros H. destruct (map_to_list m) as [|[k v] rest] eqn:E.
  - apply map_to_list_empty_iff in E. subst m. rewrite map_size_empty. lia.
  - destruct rest as [|[k' v'] rest'].
    + rewrite <- (length_map_to_list m), E. cbn. lia.
    + exfalso.
      pose proof (NoDup_fst_map_to_list m) as Hnd. rewrite E in Hnd. cbn in Hnd.
      assert (Hk : m !! k = Some v)
        by (apply elem_of_map_to_list; rewrite E; left).
      assert (Hk' : m !! k' = Some v')
        by (apply elem_of_map_to_list; rewrite E; right; left).
      pose proof (H k v Hk) as H1. pose proof (H k' v' Hk') as H2.
      assert (k = k') by congruence. subst k'.
      apply NoDup_cons in Hnd as [Hnd _]. apply Hnd. left.
Qed.

(** X19.  At most one debounce timer is armed at any time, whatever calls
    were made: a burst of keystrokes leaves one timer, not one for each. *)
Theorem at_most_one_timer_armed (s : State) (actions : list action) :
  (size (timers (run actions (newLoop s))) <= 1)%nat.
Proof.
  pose proof (invariant_run CACHE_PREFIX computeHash getLanguagePrompt
                cleanResponse nullPropertyMessage notAFunctionMessage settings
                actions (newLoop s) (invariant_newLoop s)) as Hinv.
  apply (single_key_size _ (debounceTimer (state (run actions (newLoop s))))).
  intros k v Hk. apply (inv_single _ Hinv k v Hk).
Qed.

(** X20.  The trigger that is not superseded gets its answer.  After an
    automatic trigger for a supported language, when its timer fires with
    the token not cancelled and the request it starts settles, the promise
    the call returned is fulfilled with the list [fetchCompletion]
    returns; when the timer fires with the token cancelled, the promise is
    fulfilled with the empty list and nothing is fetched. *)
Theorem debounced_trigger_is_answered
    (s : State) (before : list action)
    (document : TextDocument) (position : Vscode.Position) (token : nat)
    (fo : Client.FetchOutcome) (stored_d stored_w : bool) :
  let l := run before (newLoop s) in
  isLanguageSupported settings (languageId document) = true →
  let p := length (promises l) in
  let l1 := step (Provide document position Automatic token) l in
  let fired := step (TimerFires (nextTimer l) false) l1 in
  let settled :=
    step (FetchSettles (length (running l)) fo stored_d stored_w) fired in
  let dropped := step (TimerFires (nextTimer l) true) l1 in
  promises l1 !! p = Some Pending
  ∧ promises fired !! p = Some Pending
  ∧ (∃ items s',
       fetchCompletion document position token fo stored_d stored_w (state l1)
       = (Ok items, s')
       ∧ promises settled !! p = Some (Fulfilled items)
       ∧ state settled = s')
  ∧ promises dropped !! p = Some (Fulfilled [])
  ∧ running dropped = running l
  ∧ state dropped = state l1.
Proof.
  intros l Hsup p l1 fired settled dropped.
  assert (Hl1 : l1 = mkLoop
            (mkState (api (state l)) (cache (state l)) (log (state l))
               (abortController (state l)) (Some (nextTimer l))
               (tokenListeners (state l)))
            (S (nextTimer l))
            (<[nextTimer l := mkTask document position token p]>
               match debounceTimer (state l) with
               | Some t => delete t (timers l)
               | None => timers l
               end)
            (promises l ++ [Pending]) (running l)).
  { subst l1. cbn. unfold provideInlineCompletionItems. rewrite Hsup. reflexivity. }
  clearbody l1.
  assert (Hp1 : promises l1 !! p = Some Pending).
  { rewrite Hl1. cbn. subst p. apply list_lookup_middle. reflexivity. }
  clearbody p.
  assert (Ht : timers l1 !! nextTimer l = Some (mkTask document position token p)).
  { rewrite Hl1. cbn. apply lookup_insert_eq. }
  assert (Hfired : fired = mkLoop (state l1) (nextTimer l1)
                             (delete (nextTimer l) (timers l1)) (promises l1)
                             (running l ++ [mkJob (mkTask document position token p) true])).
  { subst fired. cbn. rewrite Ht. unfold timer_callback. cbn.
    rewrite Hl1. reflexivity. }
  clearbody fired.
  assert (Hdropped : dropped = mkLoop (state l1) (nextTimer l1)
                             (delete (nextTimer l) (timers l1))
                             (settle p (Fulfilled []) (promises l1))
                             (running l)).
  { subst dropped. cbn. rewrite Ht. unfold timer_callback. cbn.
    rewrite Hl1. reflexivity. }
  clearbody dropped.
  split; [exact Hp1|]. split; [rewrite Hfired; exact Hp1|].
  split.
  - destruct (fetchCompletion_returns CACHE_PREFIX computeHash getLanguagePrompt
                cleanResponse nullPropertyMessage notAFunctionMessage settings
                document position token fo stored_d stored_w (state l1))
      as (items & s' & Hrun).
    exists items, s'. split; [exact Hrun|].
    subst settled. rewrite Hfired. cbn.
    rewrite (list_lookup_middle (running l) [] _ (length (running l)) eq_refl).
    unfold fetch_settles. cbn. rewrite Hrun. cbn.
    split; [|reflexivity].
    unfold settle. rewrite Hp1.
    apply list_lookup_insert_eq. eapply lookup_lt_Some, Hp1.
  - rewrite Hdropped. cbn. split; [|split; reflexivity].
    unfold settle. rewrite Hp1.
    apply list_lookup_insert_eq. eapply lookup_lt_Some, Hp1.
Qed.

End EventLoopRuns.

Section EventLoopRunsWitness.

Import Provider.

(** One keystroke, then the timer and the answer. *)
Lemma debounced_trigger_is_answered_witness :
  let l1 := Cases.step (Provide Sample.document Sample.position Automatic 1)
              (newLoop Sample.idle) in
  let fired := Cases.step (TimerFires 1 false) l1 in
  let settled :=
    Cases.step (FetchSettles 0 (Client.Responds 10 Sample.completed) true true)
               fired in
  promises l1 !! 0%nat = Some Pending
  ∧ promises settled !! 0%nat = Some (Fulfilled [Cases.item]).
Proof.
  destruct (debounced_trigger_is_answered Sample.prefix (λ x, x) (λ x, x)
              Clean.cleanResponse [] [] Sample.settings Sample.idle []
              Sample.document Sample.position 1
              (Client.Responds 10 Sample.completed) true true)
    as (H1 & _ & (items & s' & Hrun & H3 & _) & _).
  - vm_compute. reflexivity.
  - cbv zeta. split; [exact H1|].
    assert (Hi : items = [Cases.item])
      by (vm_compute in Hrun; injection Hrun as <- _; reflexivity).
    rewrite <- Hi. exact H3.
Defined.

End EventLoopRunsWitness.

(** ** The cache, cleared *)

Section ClearFacts.

Variable CACHE_PREFIX CHAT_CACHE_PREFIX : jsstring.

Local Abbreviation clear := (CacheManager.clear CACHE_PREFIX CHAT_CACHE_PREFIX).

Lemma lookup_foldl_delete {A} (ks : list jsstring) (m : gmap jsstring A) k :
  foldl (λ m k, base.delete k m) m ks !! k
  = if bool_decide (k ∈ ks) then None else m !! k.
Proof.
  revert m. induction ks as [|k0 ks IH]; intros m; [reflexivity|].
  cbn [foldl]. rewrite IH.
  destruct (decide (k = k0)) as [->|Hne].
  - rewrite lookup_delete_eq.
    rewrite (bool_decide_eq_true_2 (k0 ∈ k0 :: ks)) by left.
    destruct (bool_decide (k0 ∈ ks)); reflexivity.
  - rewrite lookup_delete_ne by congruence.
    destruct (decide (k ∈ ks)) as [Hin|Hnin].
    + rewrite !bool_decide_eq_true_2; [reflexivity|right; exact Hin|exact Hin].
    + rewrite !bool_decide_eq_false_2; [reflexivity| |exact Hnin].
      intros H. apply elem_of_cons in H as [H|H]; [congruence|exact (Hnin H)].
Qed.

Lemma keys_spec (w : Cache.World) k :
  k ∈ CacheManager.keys w ↔ is_Some (Cache.workspaceState w !! k).
Proof.
  unfold CacheManager.keys. rewrite list_elem_of_fmap. split.
  - intros ([k' v] & -> & H). apply elem_of_map_to_list in H. exists v. exact H.
  - intros [v H]. exists (k, v). split; [reflexivity|].
    apply elem_of_map_to_list. exact H.
Qed.

Lemma lookup_clear (w : Cache.World) k :
  Cache.workspaceState (fst (clear w)) !! k
  = if JS.startsWith k CACHE_PREFIX || JS.startsWith k CHAT_CACHE_PREFIX
    then None else Cache.workspaceState w !! k.
Proof.
  unfold CacheManager.clear. cbn [fst Cache.workspaceState].
  rewrite lookup_foldl_delete.
  destruct (JS.startsWith k CACHE_PREFIX || JS.startsWith k CHAT_CACHE_PREFIX)
    eqn:E.
  - destruct (Cache.workspaceState w !! k) as [v|] eqn:Hk.
    + rewrite bool_decide_eq_true_2; [reflexivity|].
      apply list_elem_of_In, List.filter_In. split; [|exact E].
      apply list_elem_of_In, keys_spec. exists v. exact Hk.
    + destruct (bool_decide _); reflexivity.
  - rewrite bool_decide_eq_false_2; [reflexivity|].
    intros H. apply list_elem_of_In, List.filter_In in H as [_ H]. congruence.
Qed.

(** X21.  After [clear()] the cache serves nothing: every [getCompletion]
    misses, without having anything to delete.  What is stored under keys
    that start with neither prefix is as before, and the outcome of the
    writes to storage is never looked at: [Cache cleared] is logged, and
    nothing goes to [console.error], even when they fail. *)
Theorem clear_empties_cache (w : Cache.World) :
  let w' := fst (clear w) in
  (∀ key now stored,
     Cache.getCompletion CACHE_PREFIX key now stored w' = (None, w'))
  ∧ (∀ k, JS.startsWith k CACHE_PREFIX = false →
          JS.startsWith k CHAT_CACHE_PREFIX = false →
          Cache.workspaceState w' !! k = Cache.workspaceState w !! k)
  ∧ Cache.console w' = Cache.console w
  ∧ snd (clear w) = [JS.lit "Cache cleared"].
Proof.
  cbv zeta. split; [|split; [|split; reflexivity]].
  - intros key now stored. unfold Cache.getCompletion.
    rewrite lookup_clear, startsWith_app. reflexivity.
  - intros k H1 H2. rewrite lookup_clear, H1, H2. reflexivity.
Qed.

End ClearFacts.

Section ClearWitness.

(** An entry written and then cleared is not served. *)
Lemma clear_empties_cache_witness :
  let cleared :=
    fst (CacheManager.clear Sample.prefix (JS.lit "myaicopilot.chat.")
           Cases.cached) in
  fst (Cache.getCompletion Sample.prefix Cases.cacheKey 1000 true Cases.cached)
  = Some Sample.an_item
  ∧ Cache.getCompletion Sample.prefix Cases.cacheKey 1000 true cleared
    = (None, cleared).
Proof.
  cbv zeta. split; [vm_compute; reflexivity|].
  destruct (clear_empties_cache Sample.prefix (JS.lit "myaicopilot.chat.")
              Cases.cached) as [H _].
  apply H.
Defined.

End ClearWitness.

(** ** The logger's threshold *)

Section LoggerThreshold.

Import Logger.
Local Open Scope Z_scope.

Lemma indexOf_from_missing (i : Z) (l : list jsstring) (x : jsstring) :
  x ∉ l → indexOf_from i l x = -1.
Proof.
  revert i. induction l as [|y l IH]; intros i H; [reflexivity|].
  cbn [indexOf_from].
  rewrite str_eqb_neq by (intros ->; apply H; left).
  apply IH. intros Hin. apply H. right. exact Hin.
Qed.

(** X22.  The setting [logging.level] is a threshold in the order error,
    warn, info, debug: a message is written exactly when its level comes
    no later than the configured one.  A configured level that is none of
    the four therefore silences the logger altogether, errors included. *)
Theorem shouldLog_threshold (configLevel level : jsstring) :
  level ∈ levels →
  shouldLog configLevel level = true
  ↔ ∃ i j, levels !! i = Some level ∧ levels !! j = Some configLevel
           ∧ (i <= j)%nat.
Proof.
  intros Hl.
  destruct (decide (configLevel ∈ levels)) as [Hc|Hc].
  - unfold levels in Hl, Hc.
    repeat (apply elem_of_cons in Hl as [->|Hl]);
      try (apply not_elem_of_nil in Hl; destruct Hl);
      repeat (apply elem_of_cons in Hc as [->|Hc]);
      try (apply not_elem_of_nil in Hc; destruct Hc);
      (split;
       [ intros H; try discriminate H;
         first [ exists 0%nat, 0%nat; repeat split; lia
               | exists 0%nat, 1%nat; repeat split; lia
               | exists 0%nat, 2%nat; repeat split; lia
               | exists 0%nat, 3%nat; repeat split; lia
               | exists 1%nat, 1%nat; repeat split; lia
               | exists 1%nat, 2%nat; repeat split; lia
               | exists 1%nat, 3%nat; repeat split; lia
               | exists 2%nat, 2%nat; repeat split; lia
               | exists 2%nat, 3%nat; repeat split; lia
               | exists 3%nat, 3%nat; repeat split; lia ]
       | intros (i & j & Hi & Hj & Hij);
         destruct i as [|[|[|[|i]]]]; try discriminate Hi;
         destruct j as [|[|[|[|j]]]]; try discriminate Hj;
         try lia; reflexivity ]).
  - split.
    + unfold shouldLog, indexOf.
      rewrite (indexOf_from_missing 0 levels configLevel Hc).
      unfold levels in Hl.
      repeat (apply elem_of_cons in Hl as [->|Hl]); try discriminate.
      apply not_elem_of_nil in Hl. destruct Hl.
    + intros (i & j & _ & Hj & _). destruct Hc.
      apply (list_elem_of_lookup_2 _ j). exact Hj.
Qed.

Lemma shouldLog_threshold_witness :
  shouldLog (JS.lit "warn") (JS.lit "error") = true.
Proof.
  apply (shouldLog_threshold (JS.lit "warn") (JS.lit "error")).
  - left.
  - exists 0%nat, 1%nat. repeat split. lia.
Defined.

End LoggerThreshold.

(** ** Settings, read once *)

Section ConfigurationFacts.

Import ConfigurationManager.

Context {V : Type}.

Lemma coherent_handle (m : t V) (current : WorkspaceConfiguration V) (e : event V)
    (rest : list (event V)) :
  coherent V m current → reported V current (e :: rest) →
  coherent V (handle V m e) (settings_after V current [e])
  ∧ reported V (settings_after V current [e]) rest.
Proof.
  intros [Hc Hk] Hr. destruct e as [key|affects c'|affects]; cbn in *.
  - split; [|exact Hr]. unfold get.
    destruct (cache V m !! key) as [value|] eqn:E; cbn.
    + split; assumption.
    + split; [exact Hc|]. intros k v Hv. cbn in Hv.
      apply lookup_insert_Some in Hv as [[<- <-]|[_ Hv]].
      * rewrite Hc. reflexivity.
      * apply Hk. exact Hv.
  - destruct Hr as [Hsame Hr]. split; [|exact Hr].
    unfold onDidChangeConfiguration. destruct affects; cbn.
    + split; [reflexivity|]. intros k v Hv. cbn in Hv. rewrite lookup_empty in Hv.
      discriminate Hv.
    + rewrite (Hsame eq_refl). split; assumption.
  - split; [|exact Hr]. unfold onDidChange. destruct affects; cbn.
    + split; [exact Hc|]. intros k v Hv. cbn in Hv. rewrite lookup_empty in Hv.
      discriminate Hv.
    + split; assumption.
Qed.

Lemma coherent_run (es : list (event V)) :
  ∀ m current, coherent V m current → reported V current es →
    coherent V (foldl (handle V) m es) (settings_after V current es).
Proof.
  induction es as [|e es IH]; intros m current Hm Hr; [exact Hm|].
  destruct (coherent_handle m current e es Hm Hr) as [Hm' Hr'].
  exact (IH _ _ Hm' Hr').
Qed.

(** X23.  The manager's cache never shows: as long as the platform reports
    the changes of the settings, [get] returns the value the key has in
    the settings in force ([undefined] when it has none), whatever was
    read and whatever changed before. *)
Theorem get_returns_current_setting
    (current : WorkspaceConfiguration V) (es : list (event V)) (key : jsstring) :
  reported V current es →
  fst (get V key (foldl (handle V) (new V current) es))
  = settings_after V current es !! key.
Proof.
  intros Hr.
  destruct (coherent_run es (new V current) current) as [Hc Hk]; [|exact Hr|].
  { split; [reflexivity|]. intros k v H. cbn in H. rewrite lookup_empty in H.
    discriminate H. }
  unfold get. destruct (cache V _ !! key) as [value|] eqn:E; cbn.
  - apply Hk. exact E.
  - rewrite Hc. reflexivity.
Qed.

End ConfigurationFacts.

Section ConfigurationWitness.

Import ConfigurationManager.

(** The model is read, then changed, then read again. *)
Lemma get_returns_current_setting_witness :
  fst (get jsstring (JS.lit "api.model")
         (foldl (handle jsstring) (new jsstring Cases.settings_before)
            [Get jsstring (JS.lit "api.model");
             Changed jsstring true Cases.settings_after_edit;
             ChangedKey jsstring true]))
  = Some (JS.lit "gpt-4o").
Proof.
  rewrite (get_returns_current_setting Cases.settings_before).
  - vm_compute. reflexivity.
  - cbn. split; [discriminate|exact I].
Defined.

End ConfigurationWitness.

(** ** Patterns of ignored entries *)

Section IgnoreFacts.

Import FileContext.

(** What the three replacements make of one character of the pattern. *)
Lemma regex_source_cons (c : N) (p : jsstring) :
  regex_source (c :: p)
  = (if is_special c then [backslash; c]
     else if c =? asterisk then [full_stop; asterisk]
     else if c =? question_mark then [full_stop]
     else [c]) ++ regex_source p.
Proof.
  unfold regex_source, escape_special, replace_asterisks, replace_question_marks.
  cbn [flat_map]. rewrite !flat_map_app.
  f_equal. destruct (is_special c) eqn:Es.
  - unfold is_special in Es.
    repeat (apply orb_prop in Es as [Es|Es]);
      apply N.eqb_eq in Es; subst c; reflexivity.
  - cbn [flat_map app]. destruct (c =? asterisk) eqn:Ea.
    + reflexivity.
    + cbn [flat_map app]. destruct (c =? question_mark); reflexivity.
Qed.

Lemma special_is_syntax (c : N) :
  is_special c = true →
  is_syntax c = true ∧ (c =? asterisk) = false ∧ (c =? question_mark) = false.
Proof.
  intros Es. unfold is_syntax. rewrite Es. split; [reflexivity|].
  unfold is_special in Es.
  repeat (apply orb_prop in Es as [Es|Es]);
    apply N.eqb_eq in Es; subst c; split; reflexivity.
Qed.

Lemma not_special (c : N) :
  is_special c = false → (c =? backslash) = false ∧ (c =? full_stop) = false.
Proof.
  intros Es. split.
  - destruct (c =? backslash) eqn:E; [|reflexivity].
    apply N.eqb_eq in E. subst c. discriminate Es.
  - destruct (c =? full_stop) eqn:E; [|reflexivity].
    apply N.eqb_eq in E. subst c. discriminate Es.
Qed.

(** No source starts with an asterisk. *)
Lemma regex_source_head (p : jsstring) (e : N) (rest : jsstring) :
  regex_source p = e :: rest → (e =? asterisk) = false.
Proof.
  destruct p as [|c p]; [discriminate|]. rewrite regex_source_cons.
  destruct (is_special c) eqn:Es; [intros [= <- _]; reflexivity|].
  destruct (c =? asterisk) eqn:Ea; [intros [= <- _]; reflexivity|].
  destruct (c =? question_mark); intros [= <- _]; [reflexivity|exact Ea].
Qed.

Lemma RegExp_escaped (d : N) (rest : jsstring) :
  is_syntax d = true →
  (∀ e rest', rest = e :: rest' → (e =? asterisk) = false) →
  RegExp (backslash :: d :: rest)
  = option_map (cons (Once (Char d))) (RegExp rest).
Proof.
  intros Hd Hrest. cbn [RegExp].
  change (backslash =? backslash) with true. cbv beta iota. rewrite Hd.
  destruct rest as [|e rest']; [reflexivity|].
  rewrite (Hrest e rest' eq_refl). reflexivity.
Qed.

Lemma RegExp_atom (c : N) (rest : jsstring) :
  (c =? backslash) = false →
  is_syntax c && negb (c =? full_stop) = false →
  (∀ e rest', rest = e :: rest' → (e =? asterisk) = false) →
  RegExp (c :: rest)
  = option_map (cons (Once (if c =? full_stop then Dot else Char c)))
               (RegExp rest).
Proof.
  intros Hc Hs Hrest. cbn [RegExp]. rewrite Hc, Hs.
  destruct rest as [|e rest']; [reflexivity|].
  rewrite (Hrest e rest' eq_refl). reflexivity.
Qed.

Lemma RegExp_star (rest : jsstring) :
  RegExp (full_stop :: asterisk :: rest)
  = option_map (cons (Star Dot)) (RegExp rest).
Proof. reflexivity. Qed.

(** The expression of a pattern: each character stands for itself, but
    for the asterisk, any run of characters, and the question mark, any
    one character. *)
Lemma RegExp_regex_source (p : jsstring) :
  RegExp (regex_source p) = Some (map term_of p).
Proof.
  induction p as [|c p IH]; [reflexivity|].
  rewrite regex_source_cons. cbn [map]. unfold term_of at 1.
  pose proof (regex_source_head p) as Hhead.
  destruct (is_special c) eqn:Es.
  - destruct (special_is_syntax c Es) as (Hs & Ha & Hq).
    cbn [app]. rewrite RegExp_escaped by assumption.
    rewrite IH, Ha, Hq. reflexivity.
  - destruct (not_special c Es) as [Hb Hf].
    destruct (c =? asterisk) eqn:Ea.
    + cbn [app]. rewrite RegExp_star, IH. reflexivity.
    + destruct (c =? question_mark) eqn:Eq.
      * cbn [app]. rewrite RegExp_atom; [|reflexivity|reflexivity|exact Hhead].
        rewrite IH. reflexivity.
      * cbn [app]. rewrite RegExp_atom; [|exact Hb| |exact Hhead].
        -- rewrite IH, Hf. reflexivity.
        -- unfold is_syntax. rewrite Es, Ea, Eq. reflexivity.
Qed.

(** *** Matching *)

Lemma match_here_star (a : atom) (r : list term) (s : jsstring) :
  match_here (Star a :: r) s
  = match_here r s
    || match s with
       | c :: s' => accepts a c && match_here (Star a :: r) s'
       | [] => false
       end.
Proof. destruct s; reflexivity. Qed.

Lemma test_cons (r : list term) (c : N) (s : jsstring) :
  test r (c :: s) = match_here r (c :: s) || test r s.
Proof. reflexivity. Qed.

Lemma test_nil (r : list term) : test r [] = match_here r [].
Proof. cbn. apply orb_false_r. Qed.

(** Characters without wildcard are matched one by one. *)
Lemma match_here_plain (q : jsstring) (r : list term) (s : jsstring) :
  match_here (map (λ c, Once (Char c)) q ++ r) s
  = JS.startsWith s q && match_here r (drop (length q) s).
Proof.
  revert s. induction q as [|c q IH]; intros s.
  - destruct s; reflexivity.
  - destruct s as [|d s]; [reflexivity|].
    cbn [map app match_here accepts length drop JS.startsWith].
    rewrite IH, (N.eqb_sym d c). apply andb_assoc.
Qed.

Lemma term_of_plain (q : jsstring) :
  is_plain q = true → map term_of q = map (λ c, Once (Char c)) q.
Proof.
  intros H. induction q as [|c q IH]; [reflexivity|].
  cbn [is_plain forallb] in H. apply andb_prop in H as [Hc H].
  apply andb_prop in Hc as [Ha Hq].
  apply negb_true_iff in Ha, Hq.
  cbn [map]. unfold term_of at 1. rewrite Ha, Hq, (IH H). reflexivity.
Qed.

Lemma test_ext (r1 r2 : list term) :
  (∀ s, match_here r1 s = match_here r2 s) → ∀ s, test r1 s = test r2 s.
Proof.
  intros H s. induction s as [|c s IH].
  - rewrite !test_nil. apply H.
  - rewrite !test_cons, IH, H. reflexivity.
Qed.

(** Without wildcard, [test] looks for the pattern anywhere in the
    name. *)
Lemma test_plain (q : jsstring) (s : jsstring) :
  test (map (λ c, Once (Char c)) q) s = JS.includes s q.
Proof.
  assert (H : ∀ s, match_here (map (λ c, Once (Char c)) q) s = JS.startsWith s q).
  { intros s0. rewrite <- (app_nil_r (map _ q)), match_here_plain.
    cbn [match_here]. apply andb_true_r. }
  induction s as [|c s IH].
  - rewrite test_nil, H. cbn. symmetry. apply orb_false_r.
  - rewrite test_cons, includes_cons, IH, H. reflexivity.
Qed.

Lemma match_here_star_dot_test (r : list term) (s : jsstring) :
  match_here (Star Dot :: r) s = true → test r s = true.
Proof.
  induction s as [|c s IH]; rewrite match_here_star.
  - rewrite orb_false_r, test_nil. exact (λ H, H).
  - rewrite test_cons. intros H. apply orb_prop in H as [H|H].
    + rewrite H. reflexivity.
    + apply andb_prop in H as [_ H]. rewrite (IH H). apply orb_true_r.
Qed.

(** An asterisk at the start makes no difference to a search. *)
Lemma test_star_dot (r : list term) (s : jsstring) :
  test (Star Dot :: r) s = test r s.
Proof.
  apply eq_true_iff_eq. induction s as [|c s IH].
  - rewrite !test_nil, match_here_star, orb_false_r. reflexivity.
  - rewrite !test_cons. split; intros H; apply orb_prop in H as [H|H].
    + apply match_here_star_dot_test in H. rewrite test_cons in H. exact H.
    + apply IH in H. rewrite H. apply orb_true_r.
    + rewrite match_here_star, H. reflexivity.
    + apply IH in H. rewrite H. apply orb_true_r.
Qed.

End IgnoreFacts.

Section IgnoreClaims.

Import FileContext.

(** X24.  The escaping is complete: whatever the pattern, the source built
    from it is an expression in which every character of the pattern
    stands for itself, but for the asterisk ([.*]) and the question mark
    ([.]).  So [shouldIgnore] has an answer for every name and every list
    of patterns: no pattern makes [new RegExp] fail. *)
Theorem glob_regex_is_well_formed (pattern : jsstring) :
  RegExp (regex_source pattern) = Some (map term_of pattern)
  ∧ ∀ name patterns, ∃ answer, shouldIgnore name patterns = Some answer.
Proof.
  split; [apply RegExp_regex_source|].
  intros name patterns. induction patterns as [|p rest [answer IH]].
  - exists false. reflexivity.
  - cbn [shouldIgnore]. rewrite RegExp_regex_source, IH.
    destruct (_ || _); [exists answer; reflexivity|].
    destruct (test _ name); [exists true|exists answer]; reflexivity.
Qed.

(** X25.  The expression is not anchored: a pattern without wildcard
    ignores every name that contains it, not only the name equal to it.
    With such patterns [shouldIgnore] answers whether the name contains
    one of those that are neither empty nor start with [#]. *)
Theorem plain_pattern_is_substring_test (name : jsstring) (patterns : list jsstring) :
  forallb is_plain patterns = true →
  shouldIgnore name patterns
  = Some (existsb (λ p, is_read p && JS.includes name p) patterns).
Proof.
  intros H. induction patterns as [|p rest IH]; [reflexivity|].
  cbn [forallb] in H. apply andb_prop in H as [Hp H].
  cbn [shouldIgnore existsb]. unfold is_read at 1.
  rewrite RegExp_regex_source, (IH H), (term_of_plain p Hp), test_plain.
  destruct (_ || _); [reflexivity|].
  cbn [negb andb]. destruct (JS.includes name p); reflexivity.
Qed.

(** The pattern [dist] ignores [redistribute.ts]; [build/] ignores no
    entry called [build]. *)
Lemma plain_pattern_is_substring_test_witness :
  shouldIgnore (JS.lit "redistribute.ts") [JS.lit "# output"; JS.lit "dist"]
  = Some true
  ∧ shouldIgnore (JS.lit "build") [JS.lit "build/"] = Some false.
Proof.
  split.
  - rewrite (plain_pattern_is_substring_test (JS.lit "redistribute.ts")
               [JS.lit "# output"; JS.lit "dist"]); reflexivity.
  - rewrite (plain_pattern_is_substring_test (JS.lit "build") [JS.lit "build/"]);
      reflexivity.
Defined.

(** X26.  An asterisk at the start or at the end of a pattern changes
    nothing: [*.log] ignores the names that contain [.log], wherever, as
    the pattern [.log] does, and not only those that end with it. *)
Theorem asterisk_at_the_ends_is_void (name q : jsstring) :
  is_plain q = true →
  shouldIgnore name [asterisk :: q] = Some (JS.includes name q)
  ∧ (is_read q = true →
     shouldIgnore name [q ++ [asterisk]] = Some (JS.includes name q)).
Proof.
  intros Hq. split.
  - cbn [shouldIgnore]. rewrite RegExp_regex_source.
    change (JS.startsWith (asterisk :: q) (JS.lit "#")) with false.
    cbn [orb map]. change (term_of asterisk) with (Star Dot).
    rewrite test_star_dot, (term_of_plain q Hq), test_plain.
    destruct (JS.includes name q); reflexivity.
  - intros Hr. cbn [shouldIgnore]. rewrite RegExp_regex_source.
    assert (Hread : is_read (q ++ [asterisk]) = true).
    { destruct q as [|c q]; [discriminate Hr|]. unfold is_read in *.
      cbn [app]. destruct q; exact Hr. }
    unfold is_read in Hread. apply negb_true_iff in Hread. rewrite Hread.
    rewrite map_app, (term_of_plain q Hq). cbn [map].
    change (term_of asterisk) with (Star Dot).
    rewrite (test_ext _ (map (λ c, Once (Char c)) q)).
    + rewrite test_plain. destruct (JS.includes name q); reflexivity.
    + intros s. rewrite match_here_plain, match_here_star. cbn [match_here orb].
      rewrite andb_true_r, <- (app_nil_r (map _ q)), match_here_plain.
      cbn [match_here]. rewrite andb_true_r. reflexivity.
Qed.

Lemma asterisk_at_the_ends_is_void_witness :
  shouldIgnore (JS.lit "my.login.ts") [JS.lit "*.log"] = Some true.
Proof.
  destruct (asterisk_at_the_ends_is_void (JS.lit "my.login.ts") (JS.lit ".log"))
    as [H _]; [reflexivity|exact H].
Defined.

End IgnoreClaims.

(** ** The chat request *)

Section ChatFacts.

Import Chat.
Local Open Scope Z_scope.

Context {Response : Type}.
Variable String_of_response : Response → jsstring.

Lemma Array_slice_last {A} (n : Z) (l : list A) :
  0 <= n →
  Array_slice (- n) l
  = drop (length l - (if n =? 0 then length l
                      else Nat.min (Z.to_nat n) (length l))) l.
Proof.
  intros Hn. unfold Array_slice. cbv zeta.
  destruct (Z.eqb_spec n 0) as [->|Hne].
  - cbn [Z.opp]. change (0 <? 0) with false. cbv iota.
    rewrite Z.min_l by lia. rewrite Nat.sub_diag. reflexivity.
  - destruct (Z.ltb_spec (- n) 0) as [_|Hge]; [|lia].
    f_equal. lia.
Qed.

(** X27.  The setting [chat.maxHistoryMessages] bounds the history that is
    sent, except at zero: a positive [n] keeps the last [n] turns (all of
    them when there are fewer), in order, between the system message and
    the message of the user; with [n = 0] the whole history is sent, for
    [slice(-0)] is [slice(0)]. *)
Theorem history_window
    (n : Z) (editor : option TextEditor) (getFileContext : jsstring → jsstring)
    (getWorkspaceTree : jsstring) (request : ChatRequest)
    (history : list (Turn Response)) :
  0 <= n →
  let kept := if n =? 0 then length history
              else Nat.min (Z.to_nat n) (length history) in
  ∃ last,
    role last = user
    ∧ buildMessages Response String_of_response (Some n) editor getFileContext
        getWorkspaceTree request history
      = [system_message request]
        ++ map (message_of_turn Response String_of_response)
               (drop (length history - kept) history)
        ++ [last].
Proof.
  intros Hn kept. unfold buildMessages. cbv zeta.
  rewrite (Array_slice_last n history Hn).
  eexists. split; [|reflexivity]. reflexivity.
Qed.

End ChatFacts.

Section ChatWitness.

Import Chat.

(** With the setting at zero the two turns of the history are both sent. *)
Lemma history_window_witness :
  length (buildMessages unit (λ _, JS.lit "[object Object]") (Some 0%Z) None
            (λ _, []) [] Cases.chat_request Cases.chat_history)
  = 4%nat.
Proof.
  destruct (history_window (λ _, JS.lit "[object Object]") 0 None (λ _, []) []
              Cases.chat_request Cases.chat_history) as (last & _ & H).
  - lia.
  - rewrite H. reflexivity.
Defined.

End ChatWitness.

(** ** The commands *)

Section CommandFacts.

Import Extension.
Local Open Scope Z_scope.

(** X28.  The key command never stores a key the client would refuse.
    Whatever is typed, either nothing is stored (the box was left blank
    or holds white space only) or the key stored is the input without the
    white space around it, which [getApiKey] then returns; after
    [resetApiKey], [getApiKey] fails with the configuration error. *)
Theorem stored_key_is_usable
    (input : jsstring) (baseUrl model : jsstring) (w : World) :
  let w' := snd (showApiKeyInput (Some input) None w) in
  (Provider.trim input = [] → w' = w)
  ∧ (Provider.trim input ≠ [] →
     secrets w' = Some (Provider.trim input)
     ∧ ∀ cw, Client.getApiKey (env_of baseUrl model w') cw
             = (Ok (Provider.trim input), cw))
  ∧ ∀ cw, Client.getApiKey
            (env_of baseUrl model (snd (resetApiKey None w'))) cw
          = (Throw Client.apiKeyMissing, cw).
Proof.
  cbv zeta. unfold showApiKeyInput.
  destruct (Provider.trim input) as [|c s] eqn:E.
  - split; [reflexivity|]. split; [intros H; destruct (H eq_refl)|].
    intros cw. reflexivity.
  - split; [discriminate|]. split.
    + intros _. split; [reflexivity|]. intros cw.
      unfold Client.getApiKey, env_of. cbn. reflexivity.
    + intros cw. reflexivity.
Qed.

Lemma stored_key_is_usable_witness :
  secrets (snd (showApiKeyInput (Some Cases.typed_key) None Cases.installed))
  = Some (JS.lit "sk-test").
Proof.
  destruct (stored_key_is_usable Cases.typed_key [] [] Cases.installed)
    as (_ & H & _).
  destruct H as [H _]; [vm_compute; discriminate|].
  rewrite H. vm_compute. reflexivity.
Defined.



End CommandFacts.

(** ** Hashes *)

Section HashFacts.

Import Crypto.
Local Open Scope N_scope.

Lemma hex_digit_is_hex (d : N) : d < 16 → is_hex (hex_digit d) = true.
Proof.
  intros H. unfold hex_digit, is_hex.
  destruct (N.ltb_spec d 10).
  - replace (48 <=? 48 + d) with true by (symmetry; apply N.leb_le; lia).
    replace (48 + d <=? 57) with true by (symmetry; apply N.leb_le; lia).
    reflexivity.
  - replace (97 <=? 87 + d) with true by (symmetry; apply N.leb_le; lia).
    replace (87 + d <=? 102) with true by (symmetry; apply N.leb_le; lia).
    apply orb_true_r.
Qed.

Lemma hex_value_digit (d : N) :
  d < 16 → (if hex_digit d <? 58 then hex_digit d - 48 else hex_digit d - 87) = d.
Proof.
  intros H. unfold hex_digit. destruct (N.ltb_spec d 10).
  - destruct (N.ltb_spec (48 + d) 58); lia.
  - destruct (N.ltb_spec (87 + d) 58); lia.
Qed.

Lemma toString16_fuel_hex (fuel : nat) :
  ∀ n acc, forallb is_hex acc = true →
           forallb is_hex (toString16_fuel fuel n acc) = true.
Proof.
  induction fuel as [|fuel IH]; intros n acc Hacc; [exact Hacc|].
  cbn [toString16_fuel].
  assert (Hd : forallb is_hex (hex_digit (n mod 16) :: acc) = true).
  { cbn [forallb]. rewrite hex_digit_is_hex, Hacc; [reflexivity|].
    apply N.mod_lt. discriminate. }
  destruct (n / 16 =? 0); [exact Hd|]. apply IH, Hd.
Qed.

Lemma toString16_fuel_length (fuel : nat) :
  ∀ n acc k, (1 <= k)%nat → n < 16 ^ N.of_nat k →
    (length (toString16_fuel fuel n acc) <= length acc + k)%nat.
Proof.
  induction fuel as [|fuel IH]; intros n acc k Hk Hn; [cbn; lia|].
  cbn [toString16_fuel].
  destruct (N.eqb_spec (n / 16) 0) as [E|E]; [cbn [length]; lia|].
  destruct k as [|k]; [lia|].
  destruct k as [|k].
  { change (16 ^ N.of_nat 1) with 16 in Hn.
    destruct E. apply N.div_small. exact Hn. }
  specialize (IH (n / 16) (hex_digit (n mod 16) :: acc) (S k)).
  cbn [length] in IH. etransitivity; [apply IH|lia].
  - lia.
  - apply N.Div0.div_lt_upper_bound.
    rewrite <- N.pow_succ_r'. 
    replace (N.succ (N.of_nat (S k))) with (N.of_nat (S (S k))) by lia.
    exact Hn.
Qed.

Lemma toString16_fuel_nonempty (fuel : nat) (n : N) (acc : jsstring) :
  (length acc <= length (toString16_fuel fuel n acc))%nat.
Proof.
  revert n acc. induction fuel as [|fuel IH]; intros n acc; [reflexivity|].
  cbn [toString16_fuel]. destruct (n / 16 =? 0); [cbn; lia|].
  etransitivity; [|apply IH]. cbn. lia.
Qed.

Lemma hex_value_app (s : jsstring) (v : N) :
  foldl (λ v c, 16 * v + (if c <? 58 then c - 48 else c - 87)) v s
  = v * 16 ^ N.of_nat (length s) + hex_value s.
Proof.
  unfold hex_value. revert v. induction s as [|c s IH]; intros v.
  - cbn. lia.
  - cbn [foldl length]. rewrite IH, (IH (16 * 0 + _)).
    rewrite Nat2N.inj_succ, N.pow_succ_r'. lia.
Qed.

Lemma hex_value_cons (c : N) (s : jsstring) :
  hex_value (c :: s)
  = (if c <? 58 then c - 48 else c - 87) * 16 ^ N.of_nat (length s) + hex_value s.
Proof.
  unfold hex_value at 1. cbn [foldl]. rewrite hex_value_app. lia.
Qed.

(** With fuel for every digit, the numeral denotes the number. *)
Lemma toString16_fuel_value (fuel : nat) :
  ∀ n acc, n < 16 ^ N.of_nat fuel →
    hex_value (toString16_fuel fuel n acc)
    = n * 16 ^ N.of_nat (length acc) + hex_value acc.
Proof.
  induction fuel as [|fuel IH]; intros n acc Hn.
  - change (16 ^ N.of_nat 0) with 1 in Hn. assert (n = 0) by lia. subst n.
    cbn [toString16_fuel]. lia.
  - cbn [toString16_fuel].
    pose proof (N.Div0.div_mod n 16) as Hdm.
    pose proof (N.mod_lt n 16 ltac:(discriminate)) as Hlt.
    destruct (N.eqb_spec (n / 16) 0) as [E|E].
    + rewrite hex_value_cons, hex_value_digit by exact Hlt.
      rewrite E in Hdm. lia.
    + rewrite IH.
      * rewrite hex_value_cons, hex_value_digit by exact Hlt.
        cbn [length]. rewrite Nat2N.inj_succ, N.pow_succ_r'. lia.
      * apply N.Div0.div_lt_upper_bound.
        rewrite <- N.pow_succ_r', <- Nat2N.inj_succ. exact Hn.
Qed.

Lemma toString16_value (n : N) : hex_value (toString16 n) = n.
Proof.
  unfold toString16. rewrite toString16_fuel_value.
  - cbn. lia.
  - destruct (N.eq_dec n 0) as [->|Hn]; [reflexivity|].
    destruct (N.log2_spec n) as [_ Hlt]; [lia|].
    eapply N.lt_le_trans; [exact Hlt|].
    rewrite <- N2Nat.inj_succ, N2Nat.id.
    apply N.pow_le_mono_l. lia.
Qed.

Lemma toString16_hex (n : N) : forallb is_hex (toString16 n) = true.
Proof. apply toString16_fuel_hex. reflexivity. Qed.

Lemma toString16_length (n : N) (k : nat) :
  (1 <= k)%nat → n < 16 ^ N.of_nat k →
  (1 <= length (toString16 n) <= k)%nat.
Proof.
  intros Hk Hn. split.
  - unfold toString16. cbn [toString16_fuel].
    destruct (n / 16 =? 0); [cbn; lia|].
    etransitivity; [|apply toString16_fuel_nonempty]. cbn. lia.
  - apply (toString16_fuel_length _ n [] k Hk Hn).
Qed.

Lemma padStart2_byte (b : byte) :
  length (padStart2 (toString16 (Byte.to_N b))) = 2%nat
  ∧ forallb is_hex (padStart2 (toString16 (Byte.to_N b))) = true.
Proof. destruct b; split; reflexivity. Qed.

Local Open Scope Z_scope.

Lemma ToInt32_range (z : Z) : - 2 ^ 31 <= ToInt32 z < 2 ^ 31.
Proof.
  unfold ToInt32.
  pose proof (Z.mod_pos_bound (z + 2 ^ 31) (2 ^ 32) ltac:(lia)). lia.
Qed.

Lemma lxor_bound (a b : Z) :
  0 <= a < 2 ^ 31 → 0 <= b < 2 ^ 31 → 0 <= Z.lxor a b < 2 ^ 31.
Proof.
  intros Ha Hb. split; [apply Z.lxor_nonneg; lia|].
  destruct (Z.eq_dec (Z.lxor a b) 0) as [->|Hne]; [lia|].
  apply Z.log2_lt_pow2; [pose proof (proj2 (Z.lxor_nonneg a b)); lia|].
  eapply Z.le_lt_trans; [apply Z.log2_lxor; lia|].
  apply Z.max_lub_lt.
  - destruct (Z.eq_dec a 0) as [->|]; [cbn; lia|].
    apply Z.log2_lt_pow2; lia.
  - destruct (Z.eq_dec b 0) as [->|]; [cbn; lia|].
    apply Z.log2_lt_pow2; lia.
Qed.

Lemma lxor_int32 (a b : Z) :
  - 2 ^ 31 <= a < 2 ^ 31 → - 2 ^ 31 <= b < 2 ^ 31 →
  - 2 ^ 31 <= Z.lxor a b < 2 ^ 31.
Proof.
  intros Ha Hb.
  destruct (Z.lt_ge_cases a 0) as [Na|Pa]; destruct (Z.lt_ge_cases b 0) as [Nb|Pb].
  - rewrite <- Z.lxor_lnot_lnot.
    pose proof (lxor_bound (Z.lnot a) (Z.lnot b)) as H.
    unfold Z.lnot in *. lia.
  - rewrite <- (Z.lnot_involutive (Z.lxor a b)), Z.lnot_lxor_l.
    pose proof (lxor_bound (Z.lnot a) b) as H.
    unfold Z.lnot in *. lia.
  - rewrite <- (Z.lnot_involutive (Z.lxor a b)), Z.lnot_lxor_r.
    pose proof (lxor_bound a (Z.lnot b)) as H.
    unfold Z.lnot in *. lia.
  - pose proof (lxor_bound a b). lia.
Qed.

Lemma djb2_range (content : jsstring) : - 2 ^ 31 <= djb2 content < 2 ^ 31.
Proof.
  unfold djb2.
  assert (H0 : - 2 ^ 31 <= 5381 < 2 ^ 31) by lia.
  revert H0. generalize 5381. induction content as [|c content IH]; intros h Hh.
  - exact Hh.
  - cbn [foldl]. apply IH. unfold djb2_step.
    apply lxor_int32; apply ToInt32_range.
Qed.

End HashFacts.

Section HashClaims.

Import Crypto.

Variable digest : jsstring → option (list byte).

(** X30.  Every hash is a numeral in lower-case hexadecimal digits: [0]
    for the empty content; two digits for each byte of the digest when
    the platform computes one; and, when it does not, from one to eight
    digits that denote the absolute value of a 32-bit number, so that
    the fallback tells at most 2^31 + 1 contents apart. *)
Theorem computeHash_is_hexadecimal (content : jsstring) :
  let hash := fst (computeHash digest content) in
  forallb is_hex hash = true
  ∧ (content = [] → hash = JS.lit "0")
  ∧ (∀ hashBuffer, content ≠ [] → digest content = Some hashBuffer →
       length hash = (2 * length hashBuffer)%nat)
  ∧ (content ≠ [] → digest content = None →
       (1 <= length hash <= 8)%nat
       ∧ Z.of_N (hex_value hash) = Z.abs (djb2 content)
       ∧ (hex_value hash <= 2 ^ 31)%N).
Proof.
  cbv zeta. unfold computeHash.
  destruct content as [|c content]; [repeat split; try reflexivity; intros; congruence|].
  pose proof (djb2_range (c :: content)) as Hr.
  destruct (digest (c :: content)) as [hashBuffer|]; cbn [fst].
  - split; [|split; [discriminate|split; [|discriminate]]].
    + induction hashBuffer as [|b bs IH]; [reflexivity|].
      cbn [flat_map]. rewrite forallb_app, IH.
      rewrite (proj2 (padStart2_byte b)). reflexivity.
    + intros hb _ [= <-].
      induction hashBuffer as [|b bs IH]; [reflexivity|].
      cbn [flat_map length]. rewrite length_app, IH.
      rewrite (proj1 (padStart2_byte b)). lia.
  - split; [apply toString16_hex|].
    split; [discriminate|]. split; [discriminate|].
    intros _ _. rewrite toString16_value. split; [|split].
    + apply toString16_length; [lia|].
      change (16 ^ N.of_nat 8)%N with (Z.to_N (2 ^ 32)). lia.
    + lia.
    + change (2 ^ 31)%N with (Z.to_N (2 ^ 31)). lia.
Qed.

End HashClaims.

Section HashWitness.

Import Crypto.

(** Without Web Crypto, the hash of [abc]. *)
Lemma computeHash_is_hexadecimal_witness :
  fst (computeHash (λ _, None) (JS.lit "abc")) = JS.lit "b873285"
  ∧ hex_value (fst (computeHash (λ _, None) (JS.lit "abc"))) = 193409669%N.
Proof.
  split; [vm_compute; reflexivity|].
  destruct (computeHash_is_hexadecimal (λ _, None) (JS.lit "abc"))
    as (_ & _ & _ & H).
  destruct H as (_ & H & _); [discriminate|reflexivity|].
  apply N2Z.inj. rewrite H. vm_compute. reflexivity.
Defined.

End HashWitness.
